(** * core/econf: the hierarchical configuration store

    A shallow embedding of [core/econf/conf.go].  Go maps are mutable
    objects that are passed around by reference ([deepSearch] hands out a
    sub-map of the tree, [Sub] gives a second Configuration a map of the
    first), so the tree lives in an explicit heap of map objects and every
    operation threads the heap. *)

From Stdlib.Strings Require Import Byte Ascii.
From Stdlib.Floats Require PrimFloat SpecFloat FloatOps.
From stdpp Require Import gmap strings list fin_maps.

#[local] Set Warnings "-register-all,-clear-no-such-hyp".

(** ** Values *)

(** Immutable data: what a decoder produces and what a leaf of the tree
    holds.  [TMap] only occurs below a [TList] once a value is stored in the
    tree; mappings of the tree itself are heap objects. *)
Inductive tree :=
  | TNil
  | TBool (b : bool)
  | TInt (z : Z)
  | TFloat (f : PrimFloat.float)
  | TStr (s : string)
  | TList (l : list tree)
  | TMap (m : gmap string tree).

(** A map object is named by its address. *)
Definition loc := nat.

(** An [interface{}] value: nil, a scalar, a sequence (never mutated by this
    package, hence kept as immutable data), or a reference to a
    [map[string]interface{}] object. *)
Inductive value :=
  | VNil
  | VBool (b : bool)
  | VInt (z : Z)
  | VFloat (f : PrimFloat.float)
  | VStr (s : string)
  | VList (l : list tree)
  | VMap (l : loc).

Abbreviation mapobj := (gmap string value).
Abbreviation heap := (list (gmap string value)).

(** Callbacks (functions taking the Configuration) are opaque; one is
    named by a number. *)
Definition handler := nat.

Inductive error :=
  | ErrInvalidKey
  | ErrExternal (msg : string)
  | Errorf (format : string) (operand : error).

(** ** Size and depth of immutable data *)

Fixpoint tsize (t : tree) : nat :=
  match t with
  | TMap m => S (map_fold (λ _ t' n, tsize t' + n) 0 m)
  | TList l => S (foldr (λ t' n, tsize t' + n) 0 l)
  | _ => 1
  end.

(** Nesting depth of mappings, not counting mappings below a sequence. *)
Fixpoint tdepth (t : tree) : nat :=
  match t with
  | TMap m => S (map_fold (λ _ t' n, tdepth t' `max` n) 0 m)
  | _ => 0
  end.

(** ** Strings *)

(** [strings.HasPrefix]. *)
Fixpoint HasPrefix (s prefix : string) : bool :=
  match prefix, s with
  | EmptyString, _ => true
  | String a prefix', String b s' => bool_decide (a = b) && HasPrefix s' prefix'
  | String _ _, EmptyString => false
  end.

(** The general case of [strings.Split] for a non-empty separator: cut at
    the leftmost occurrence, continue behind it.  [skip] counts the bytes of
    a separator just recognised that are still to be dropped; [cur] is the
    piece being read. *)
Fixpoint genSplit (sep : string) (skip : nat) (cur : string) (s : string)
    : list string :=
  match s with
  | EmptyString => [cur]
  | String ch s' =>
      match skip with
      | S n => genSplit sep n cur s'
      | O =>
          if HasPrefix s sep
          then cur :: genSplit sep (String.length sep - 1) "" s'
          else genSplit sep 0 (cur +:+ String ch "") s'
      end
  end.

(** [explode]: with an empty separator the string is cut after each
    character, and the empty string gives the empty slice. *)
Fixpoint explode (s : string) : list string :=
  match s with
  | EmptyString => []
  | String ch s' => String ch "" :: explode s'
  end.

(** [strings.Split]. *)
Definition Split (s sep : string) : list string :=
  if decide (sep = "") then explode s else genSplit sep 0 "" s.

(** ** Deep equality *)

(** [reflect.DeepEqual] on immutable data.  Floating-point numbers are
    compared with [==], under which NaN differs from itself. *)
Fixpoint tree_eqb (a b : tree) {struct a} : bool :=
  match a, b with
  | TNil, TNil => true
  | TBool x, TBool y => bool_decide (x = y)
  | TInt x, TInt y => bool_decide (x = y)
  | TFloat x, TFloat y => PrimFloat.eqb x y
  | TStr x, TStr y => bool_decide (x = y)
  | TList l1, TList l2 =>
      (fix go l1 l2 :=
         match l1, l2 with
         | [], [] => true
         | x :: l1, y :: l2 => tree_eqb x y && go l1 l2
         | _, _ => false
         end) l1 l2
  | TMap m1, TMap m2 =>
      bool_decide (dom m1 = dom m2) &&
      map_fold (λ k v acc,
                  acc && match m2 !! k with
                         | Some w => tree_eqb v w
                         | None => false
                         end) true m1
  | _, _ => false
  end.

(** Data that is no NaN and holds none: on such data [reflect.DeepEqual]
    is reflexive. *)
Fixpoint nan_free (t : tree) : bool :=
  match t with
  | TFloat f => negb (PrimFloat.is_nan f)
  | TList l => forallb nan_free l
  | TMap m => map_fold (λ _ t' acc, nan_free t' && acc) true m
  | _ => true
  end.

(** The data a value stands for, following map references through the heap.
    [None]: a dangling reference, or nesting deeper than [fuel] (a cycle). *)
Fixpoint readback (fuel : nat) (h : heap) (v : value) : option tree :=
  match v with
  | VNil => Some TNil
  | VBool b => Some (TBool b)
  | VInt z => Some (TInt z)
  | VFloat f => Some (TFloat f)
  | VStr s => Some (TStr s)
  | VList l => Some (TList l)
  | VMap l =>
      match fuel with
      | O => None
      | S fuel' =>
          obj ← h !! l;
          let r := readback fuel' h <$> obj in
          if bool_decide (map_Forall (λ _ o, is_Some o) r)
          then Some (TMap (omap id r)) else None
      end
  end.

(** [reflect.DeepEqual] on two interface values.  Two references to the same
    map object are equal; two different map objects are compared entry by
    entry. *)
Definition DeepEqual (fuel : nat) (h : heap) (x y : value) : bool :=
  match x, y with
  | VMap l1, VMap l2 =>
      if decide (l1 = l2) then true
      else match readback fuel h x, readback fuel h y with
           | Some a, Some b => tree_eqb a b
           | _, _ => false
           end
  | VMap _, _ | _, VMap _ => false
  | _, _ =>
      match readback 0 h x, readback 0 h y with
      | Some a, Some b => tree_eqb a b
      | _, _ => false
      end
  end.

(** The same for a value; a reference to a map object is equal to itself.
    A heap is free of NaN when every entry of every map object is. *)
Definition value_nan_free (v : value) : bool :=
  match v with
  | VFloat f => negb (PrimFloat.is_nan f)
  | VList l => forallb nan_free l
  | _ => true
  end.

Definition heap_nan_free (h : heap) : Prop :=
  ∀ (l : loc) (obj : gmap string value) (k : string) (v : value),
    h !! l = Some obj → obj !! k = Some v → value_nan_free v = true.

(** ** Folding a step that can fail *)

(** A [range] over a Go map visits the entries in an order that the
    language leaves open.  Every loop of the model visits them in the order
    of [map_to_list], the same at every visit of a map with the same keys. *)

Fixpoint fold_opt {A B} (f : B → A → option B) (l : list A) (b : B)
    : option B :=
  match l with
  | [] => Some b
  | x :: l' => match f b x with Some b' => fold_opt f l' b' | None => None end
  end.

(** ** Allocation of decoded data *)

(** A decoder fills a fresh [map[string]interface{}]: every mapping of the
    decoded data becomes a new map object, children first. *)
Fixpoint alloc (t : tree) (h : heap) : value * heap :=
  match t with
  | TNil => (VNil, h)
  | TBool b => (VBool b, h)
  | TInt z => (VInt z, h)
  | TFloat f => (VFloat f, h)
  | TStr s => (VStr s, h)
  | TList l => (VList l, h)
  | TMap m =>
      let r := map_fold (λ k t' (acc : gmap string value * heap),
                           let r' := alloc t' acc.2 in
                           (<[k := r'.1]> acc.1, r'.2)) (∅, h) m in
      (VMap (length r.2), r.2 ++ [r.1])
  end.

(** The map object itself, for a decoded top-level mapping. *)
Definition alloc_map (m : gmap string tree) (h : heap) : loc * heap :=
  let r := alloc (TMap m) h in
  (match r.1 with VMap l => l | _ => 0 end, r.2).

(** ** github.com/spf13/cast *)

Module cast.

(** [cast.ToStringMapE]: a [map[string]interface{}] is returned as it is,
    the same object; every other value of this model is an error.  (cast
    also decodes a string that holds a JSON object, and converts a
    [map[interface{}]interface{}]; a [VStr] stands for a string that is not
    such a text, and the latter map type is not part of [value].) *)
Definition ToStringMapE (v : value) : option loc :=
  match v with
  | VMap l => Some l
  | _ => None
  end.

(** [cast.ToStringMap] drops the error: on failure the result is the empty
    map that [ToStringMapE] made for the purpose. *)
Definition ToStringMap (h : heap) (v : value) : loc * heap :=
  match ToStringMapE v with
  | Some l => (l, h)
  | None => (length h, h ++ [∅])
  end.

(** The conversion [int(f)] of a float64 drops the fraction.  For NaN, the
    infinities and numbers beyond the range of [int] Go leaves the result
    to the platform; they give 0 here. *)
Definition trunc (f : PrimFloat.float) : Z :=
  match FloatOps.Prim2SF f with
  | SpecFloat.S754_finite s m e =>
      let z := if (0 <=? e)%Z then (Z.pos m * 2 ^ e)%Z
               else (Z.pos m `div` 2 ^ (- e))%Z in
      if s then (if bool_decide (z ≤ 2 ^ 63)%Z then - z else 0)%Z
      else (if bool_decide (z < 2 ^ 63)%Z then z else 0)%Z
  | _ => 0%Z
  end.

(** [cast.ToInt]: nil is 0, an integer is itself, a floating-point number
    is cut to its integer part, a boolean is 1 or 0, a string is parsed by
    [strconv.ParseInt] (passed in), and whatever does not convert is 0. *)
Definition ToInt (ParseInt : string → option Z) (v : value) : Z :=
  match v with
  | VNil => 0
  | VInt z => z
  | VFloat f => trunc f
  | VBool b => if b then 1 else 0
  | VStr s => default 0%Z (ParseInt s)
  | VList _ | VMap _ => 0
  end.

End cast.

(** ** core/util/xmap *)

Module xmap.

(** Modelled from the spec: [xmap.MergeStringMap] is not part of the
    sources at hand.  Tree Merge (4.1): for every key present in the new
    mapping, if both sides hold a nested mapping the merge recurses;
    otherwise the new value replaces the old one.  [apply] calls it for its
    effect on [dest], so it works in place.  The keys of [src] are taken
    when the loop starts and each value is read when its key is reached;
    [merge_entry] is the body of the loop, [rec] the recursive call. *)
Definition merge_entry (rec : heap → loc → loc → option heap)
    (dest src : loc) (h : heap) (sk : string) : option heap :=
  match h !! src ≫= (.!! sk) with
  | None => Some h
  | Some sv =>
      dobj ← h !! dest;
      match dobj !! sk, sv with
      | Some (VMap tl), VMap sl => rec h tl sl
      | _, _ => Some (<[dest := <[sk := sv]> dobj]> h)
      end
  end.

Fixpoint MergeStringMap (fuel : nat) (h : heap) (dest src : loc)
    : option heap :=
  match fuel with
  | O => None
  | S fuel' =>
      sobj ← h !! src;
      fold_opt (merge_entry (MergeStringMap fuel') dest src)
               (map_to_list sobj).*1 h
  end.

(** Modelled from the spec: [xmap.DeepSearchInMap] is not part of the
    sources at hand.  Resolved-Key Cache (4.3): the tree is walked using
    the given segments; where a segment is absent or not a mapping the
    walk ends in an empty mapping, so that the leaf read from it is
    absent.  The walk reads only. *)
Fixpoint DeepSearchInMap (h : heap) (m : gmap string value)
    (paths : list string) : gmap string value :=
  match paths with
  | [] => m
  | k :: paths' =>
      match m !! k with
      | Some (VMap l) =>
          match h !! l with
          | Some m3 => DeepSearchInMap h m3 paths'
          | None => ∅
          end
      | _ => ∅
      end
  end.

End xmap.

(** ** core/econf *)

Module econf.

(** The mutex [mu] guards against concurrent callers and has no part in
    a sequential run; it is left out. *)
Record Configuration := mkConfiguration {
  override : loc;
  keyDelim : string;
  rawConfig : list byte;
  keyMap : gmap string value;
  onChanges : list handler;
  watchers : gmap string (list handler)
}.

Definition set_keyDelim (d : string) (c : Configuration) : Configuration :=
  mkConfiguration (override c) d (rawConfig c) (keyMap c) (onChanges c)
                  (watchers c).
Definition set_rawConfig (b : list byte) (c : Configuration) : Configuration :=
  mkConfiguration (override c) (keyDelim c) b (keyMap c) (onChanges c)
                  (watchers c).
Definition set_keyMap (km : gmap string value) (c : Configuration)
    : Configuration :=
  mkConfiguration (override c) (keyDelim c) (rawConfig c) km (onChanges c)
                  (watchers c).
Definition set_onChanges (l : list handler) (c : Configuration)
    : Configuration :=
  mkConfiguration (override c) (keyDelim c) (rawConfig c) (keyMap c) l
                  (watchers c).

(** What a call that goes through [apply] leaves behind: the heap, the
    Configuration, the local [changes] of [apply], the handlers started
    with [go handle(c)], and the returned error. *)
Record outcome := mkOutcome {
  out_heap : heap;
  out_conf : Configuration;
  out_changes : gmap string value;
  out_spawned : list handler;
  out_err : option error
}.

(** A decoder fills the fresh map it is given or fails. *)
Definition Unmarshaller := list byte → error + gmap string tree.

Definition defaultKeyDelim : string := ".".

Definition New (h : heap) : Configuration * heap :=
  (mkConfiguration (length h) defaultKeyDelim [] ∅ [] ∅, h ++ [∅]).

Definition SetKeyDelim (c : Configuration) (delim : string) : Configuration :=
  set_keyDelim delim c.

Definition OnChange (c : Configuration) (fn : handler) : Configuration :=
  set_onChanges (onChanges c ++ [fn]) c.

(** The body of the loop of [lookup]; [rec] is the recursive call.  Two
    leaves may flatten to one dotted key (a key that holds the delimiter
    beside a nested mapping); then the one visited last stays in [data]. *)
Definition lookup_entry
    (rec : string → loc → gmap string value → option (gmap string value))
    (prefix sep : string) (data : gmap string value) (kv : string * value)
    : option (gmap string value) :=
  let pp := if decide (prefix = "") then kv.1 else prefix +:+ sep +:+ kv.1 in
  match cast.ToStringMapE kv.2 with
  | Some dd => rec pp dd data
  | None => Some (<[pp := kv.2]> data)
  end.

Fixpoint lookup (fuel : nat) (h : heap) (prefix : string) (target : loc)
    (data : gmap string value) (sep : string) : option (gmap string value) :=
  match fuel with
  | O => None
  | S fuel' =>
      tobj ← h !! target;
      fold_opt
        (lookup_entry (λ pp dd data, lookup fuel' h pp dd data sep) prefix sep)
        (map_to_list tobj) data
  end.

Definition traverse (fuel : nat) (h : heap) (c : Configuration)
    (sep : string) : option (gmap string value) :=
  lookup fuel h "" (override c) ∅ sep.

(** First loop of [notifyChanges]: the watch prefixes that some changed
    key begins with. *)
Definition changedWatchPrefixMap (c : Configuration)
    (changes : gmap string value) : gset string :=
  map_fold
    (λ (watchPrefix : string) (_ : list handler) (acc : gset string),
       map_fold
         (λ (key : string) (_ : value) (acc : gset string),
            if HasPrefix key watchPrefix then {[watchPrefix]} ∪ acc else acc)
         acc changes)
    ∅ (watchers c).

(** Second loop: every handler of such a prefix is started. *)
Definition notifyChanges (c : Configuration) (changes : gmap string value)
    : list handler :=
  concat ((λ changedWatchPrefix,
             default [] (watchers c !! changedWatchPrefix))
            <$> elements (changedWatchPrefixMap c changes)).

(** The loop of [apply] over the flattened tree. *)
Definition diff (fuel : nat) (h : heap) (km : gmap string value)
    (data : gmap string value) : gmap string value * gmap string value :=
  map_fold
    (λ (k : string) (v : value) (acc : gmap string value * gmap string value),
       (match acc.2 !! k with
        | Some orig =>
            if DeepEqual fuel h orig v then acc.1 else <[k := v]> acc.1
        | None => acc.1
        end,
        <[k := v]> acc.2))
    (∅, km) data.

Definition apply (fuel : nat) (h : heap) (c : Configuration) (conf : loc)
    : option outcome :=
  h1 ← xmap.MergeStringMap fuel h (override c) conf;
  data ← traverse fuel h1 c (keyDelim c);
  let r := diff fuel h1 (keyMap c) data in
  Some (mkOutcome h1 (set_keyMap r.2 c) r.1
          (if bool_decide (0 < size r.1) then notifyChanges c r.1 else [])
          None).

Definition Load (fuel : nat) (h : heap) (c : Configuration)
    (content : list byte) (unmarshal : Unmarshaller) : option outcome :=
  let c1 := set_rawConfig content c in
  match unmarshal content with
  | inl err => Some (mkOutcome h c1 ∅ [] (Some err))
  | inr configuration =>
      let r := alloc_map configuration h in
      apply fuel r.2 c1 r.1
  end.

Fixpoint deepSearch (h : heap) (m : loc) (path : list string)
    : option (heap * loc) :=
  match path with
  | [] => Some (h, m)
  | k :: path' =>
      mobj ← h !! m;
      match mobj !! k with
      | Some (VMap m3) => deepSearch h m3 path'
      | _ =>
          let m3 := length h in
          deepSearch (<[m := <[k := VMap m3]> mobj]> (h ++ [∅])) m3 path'
      end
  end.

(** [Set]. Indexing the empty slice (an empty key with an empty
    delimiter) panics: [None]. *)
Definition Set_ (fuel : nat) (h : heap) (c : Configuration) (key : string)
    (val : value) : option outcome :=
  let paths := Split key (keyDelim c) in
  lastKey ← last paths;
  r ← deepSearch h (override c) (removelast paths);
  mobj ← r.1 !! r.2;
  apply fuel (<[r.2 := <[lastKey := val]> mobj]> r.1) c r.2.

Definition find (h : heap) (c : Configuration) (key : string)
    : option (value * Configuration) :=
  match keyMap c !! key with
  | Some dd => Some (dd, c)
  | None =>
      let paths := Split key (keyDelim c) in
      lastKey ← last paths;
      root ← h !! override c;
      let m := xmap.DeepSearchInMap h root (removelast paths) in
      let dd := default VNil (m !! lastKey) in
      Some (dd, set_keyMap (<[key := dd]> (keyMap c)) c)
  end.

Definition Get := find.

Definition GetInt (ParseInt : string → option Z) (h : heap)
    (c : Configuration) (key : string) : option (Z * Configuration) :=
  r ← Get h c key;
  Some (cast.ToInt ParseInt r.1, r.2).

Definition GetStringMap (h : heap) (c : Configuration) (key : string)
    : option (loc * heap * Configuration) :=
  r ← Get h c key;
  Some (cast.ToStringMap h r.1, r.2).

(** [Sub]: the child, the heap, and the parent (whose cache the lookup
    may have filled). *)
Definition Sub (h : heap) (c : Configuration) (key : string)
    : option (Configuration * heap * Configuration) :=
  r ← GetStringMap h c key;
  Some (mkConfiguration r.1.1 (keyDelim c) [] ∅ [] ∅, r.1.2, r.2).

Definition raw (c : Configuration) : list byte := rawConfig c.

Section UnmarshalKey.
(** mapstructure and the decode options of this package are taken as
    they come: [options] with its default, the check [NewDecoder] makes
    of the target, and the decoding of a value into a target. *)
Context {options target : Type}.
Variable defaultContainer : options.
Variable NewDecoder : options → target → option error.
Variable Decode : options → heap → value → target → target * option error.

Definition UnmarshalKey (h : heap) (c : Configuration) (key : string)
    (rawVal : target) (opts : list (options → options))
    : option (target * option error * Configuration) :=
  let options := foldl (λ o opt, opt o) defaultContainer opts in
  match NewDecoder options rawVal with
  | Some err => Some (rawVal, Some err, c)
  | None =>
      if decide (key = "") then
        Some (Decode options h (VMap (override c)) rawVal, c)
      else
        r ← Get h c key;
        match r.1 with
        | VNil =>
            Some (rawVal,
                  Some (Errorf (key +:+ ",err: %w") ErrInvalidKey), r.2)
        | value => Some (Decode options h value rawVal, r.2)
        end
  end.
End UnmarshalKey.

Section UnmarshalWithExpect.
Context {options target : Type}.
Variable defaultContainer : options.
Variable NewDecoder : options → target → option error.
Variable Decode : options → heap → value → target → target * option error.

(** [UnmarshalWithExpect]: the error of [UnmarshalKey] is dropped and the
    target handed back on both branches. *)
Definition UnmarshalWithExpect (h : heap) (c : Configuration) (key : string)
    (expect : target) : option (target * Configuration) :=
  r ← UnmarshalKey defaultContainer NewDecoder Decode h c key expect [];
  match r.1.2 with
  | Some _ => Some (r.1.1, r.2)
  | None => Some (r.1.1, r.2)
  end.
End UnmarshalWithExpect.

(** What the goroutine of [LoadFromDataSource] has before it: the heap,
    the Configuration, the watch handlers started so far and the OnChange
    callbacks called so far, in order.  The callbacks are names here; they
    run under the read lock, where Set, Load and OnChange would block. *)
Record watching := mkWatching {
  w_heap : heap;
  w_conf : Configuration;
  w_spawned : list handler;
  w_called : list handler
}.

(** One turn of the loop [for range ds.IsConfigChanged()]; [ReadConfig] is
    what the data source gives at this signal. *)
Definition reload (fuel : nat) (unmarshaller : Unmarshaller) (w : watching)
    (ReadConfig : error + list byte) : option watching :=
  match ReadConfig with
  | inl _ => Some w
  | inr content =>
      out ← Load fuel (w_heap w) (w_conf w) content unmarshaller;
      Some (mkWatching (out_heap out) (out_conf out)
              (w_spawned w ++ out_spawned out)
              (w_called w ++ onChanges (out_conf out)))
  end.

Section LoadFromDataSource.
Context {options : Type}.

(** [LoadFromDataSource].  The data source is taken by what it gives:
    [ReadConfig] at the first read and [changed], the results of the reads
    that follow the signals the goroutine has handled.  The goroutine is
    run on its own, one signal after the other, with no other caller in
    between.  The result is the error returned, the package's default
    options, and the state then. *)
Definition LoadFromDataSource (fuel : nat) (h : heap) (c : Configuration)
    (defaultContainer : options) (ReadConfig : error + list byte)
    (changed : list (error + list byte))
    (unmarshaller : Unmarshaller) (opts : list (options → options))
    : option (option error * options * watching) :=
  let defaultContainer := foldl (λ o opt, opt o) defaultContainer opts in
  match ReadConfig with
  | inl err =>
      Some (Some (Errorf "LoadFromDataSource ReadConfig, err: %w" err),
            defaultContainer, mkWatching h c [] [])
  | inr content =>
      out ← Load fuel h c content unmarshaller;
      match out_err out with
      | Some err =>
          Some (Some (Errorf "LoadFromDataSource Load, err: %w" err),
                defaultContainer,
                mkWatching (out_heap out) (out_conf out) (out_spawned out) [])
      | None =>
          w ← fold_opt (reload fuel unmarshaller) changed
                (mkWatching (out_heap out) (out_conf out) (out_spawned out)
                   (onChanges (out_conf out)));
          Some (None, defaultContainer, w)
      end
  end.
End LoadFromDataSource.

End econf.

(** ** errors.Is through fmt.Errorf *)

Fixpoint percent_free (s : string) : bool :=
  match s with
  | EmptyString => true
  | String ch s' => negb (bool_decide (ch = "%"%char)) && percent_free s'
  end.

(** [fmt.Errorf] wraps the operand that its verb [%w] receives.  That is
    decided here for a format whose only directive is a final [%w]; another
    [%] in front of it may consume the operand first, and such formats are
    left open. *)
Inductive errors_Is : error → error → Prop :=
  | Is_same e : errors_Is e e
  | Is_wrapped pre operand target :
      percent_free pre = true →
      errors_Is operand target →
      errors_Is (Errorf (pre +:+ "%w") operand) target.

Import econf.

(** ** The spec's wording of Set *)

(** The nested single-key mapping of a path, as the spec words [Set]. *)
Fixpoint nest (paths : list string) (v : tree) : tree :=
  match paths with
  | [] => v
  | p :: paths' => TMap {[ p := nest paths' v ]}
  end.

(** Tree Merge on immutable data, as the spec words it: where both sides
    hold a mapping the merge recurses, otherwise the new value replaces the
    old one. *)
Fixpoint tmerge (d s : tree) {struct s} : tree :=
  match d, s with
  | TMap dm, TMap sm =>
      TMap (map_fold
              (λ (k : string) (sv : tree) (acc : gmap string tree),
                 <[k := match acc !! k with
                        | Some dv => tmerge dv sv
                        | None => sv
                        end]> acc)
              dm sm)
  | _, _ => s
  end.

(** [Set] as the spec words it: the tree after deep-merging the nested
    single-key mapping of the key into it. *)
Definition Set_spec (t : tree) (key delim : string) (v : tree) : tree :=
  tmerge t (nest (Split key delim) v).

(** ** Well-formed trees *)

(** The value that holds immutable data which is not a mapping. *)
Definition leaf (t : tree) : value :=
  match t with
  | TNil => VNil
  | TBool b => VBool b
  | TInt z => VInt z
  | TFloat f => VFloat f
  | TStr s => VStr s
  | TList l => VList l
  | TMap _ => VNil
  end.

(** [shaped n h v F]: below [v] there is no cycle and no map object that is
    reached along two paths, the nesting is at most [n] deep, and every map
    object lies in [F]; [Fk] gives each entry its own part of [F]. *)
Fixpoint shaped (n : nat) (h : heap) (v : value) (F : gset loc) {struct n} : Prop :=
  match v with
  | VMap l =>
      match n with
      | O => False
      | S n' =>
          ∃ (obj : gmap string value) (Fk : string → gset loc),
            h !! l = Some obj ∧ l ∈ F ∧
            (∀ k, (l ∉ Fk k) ∧ (Fk k ⊆ F)) ∧
            (∀ k1 k2, k1 ≠ k2 → Fk k1 ## Fk k2) ∧
            (∀ k v', obj !! k = Some v' → shaped n' h v' (Fk k))
      end
  | _ => True
  end.

(** [covers n h v t]: the value has every entry of the data [t], mappings
    as mappings and everything else as the same leaf; it may have more. *)
Fixpoint covers (n : nat) (h : heap) (v : value) (t : tree) {struct n} : Prop :=
  match t with
  | TMap tm =>
      match n with
      | O => False
      | S n' =>
          ∃ l (obj : gmap string value),
            v = VMap l ∧ h !! l = Some obj ∧
            ∀ k t', tm !! k = Some t' →
              ∃ v', obj !! k = Some v' ∧ covers n' h v' t'
      end
  | _ => v = leaf t
  end.

(** The addresses allocated between two heaps. *)
Definition fresh_locs (h h' : heap) : gset loc :=
  set_seq (length h) (length h' - length h).

(** The tree below [l] has no cycle and no map object reachable along two
    paths, is at most [n] mappings deep, and lies within the heap. *)
Definition tree_shaped (n : nat) (h : heap) (l : loc) : Prop :=
  ∃ F : gset loc, shaped n h (VMap l) F ∧ ∀ l', l' ∈ F → l' < length h.

(** Following existing mappings along a path. *)
Fixpoint walk (h : heap) (m : loc) (path : list string) : option loc :=
  match path with
  | [] => Some m
  | k :: path' =>
      mobj ← h !! m;
      match mobj !! k with
      | Some (VMap m3) => walk h m3 path'
      | _ => None
      end
  end.

(** A key is absent from the tree when the walk along all segments but the
    last ends in a mapping without the last segment. *)
Definition absent_in_tree (h : heap) (c : Configuration) (key : string) : Prop :=
  ∃ root ps lastKey,
    Split key (keyDelim c) = ps ++ [lastKey] ∧
    h !! override c = Some root ∧
    xmap.DeepSearchInMap h root ps !! lastKey = None.

(** ** Scenarios *)

Definition unmarshal_a1 : Unmarshaller := λ _, inr {[ "a" := TInt 1 ]}.

Definition unmarshal_ax1 : Unmarshaller :=
  λ _, inr {[ "a" := TMap {[ "x" := TInt 1 ]} ]}.

(** A new Configuration with [fn] registered through OnChange, after loading
    [{a: 1}]. *)
Definition loaded_a1 (fuel : nat) (fn : handler) : option outcome :=
  Load fuel (New []).2 (OnChange (New []).1 fn) [] unmarshal_a1.

(** What that load leaves: the tree [{a: 1}] at address 0 (the decoded
    mapping is left behind at address 1) and the cache [{a: 1}]. *)
Definition after_load_a1 (fn : handler) : outcome :=
  mkOutcome [ {[ "a" := VInt 1 ]}; {[ "a" := VInt 1 ]} ]
            (mkConfiguration 0 "." [] {[ "a" := VInt 1 ]} [fn] ∅)
            ∅ [] None.

(** What Set("a", 2) leaves then, and what a second Set("a", 2) leaves. *)
Definition after_set_a2 (fn : handler) : outcome :=
  mkOutcome [ {[ "a" := VInt 2 ]}; {[ "a" := VInt 1 ]} ]
            (mkConfiguration 0 "." [] {[ "a" := VInt 2 ]} [fn] ∅)
            {[ "a" := VInt 2 ]} [] None.

Definition after_set_a2_again (fn : handler) : outcome :=
  mkOutcome [ {[ "a" := VInt 2 ]}; {[ "a" := VInt 1 ]} ]
            (mkConfiguration 0 "." [] {[ "a" := VInt 2 ]} [fn] ∅)
            ∅ [] None.

(** A new Configuration after loading [{a: {x: 1}}]. *)
Definition loaded_ax1 (fuel : nat) : option outcome :=
  Load fuel (New []).2 (New []).1 [] unmarshal_ax1.

(** What that load leaves: the tree [{a: {x: 1}}] at address 0, the mapping
    under "a" at address 1, and the cache [{a.x: 1}]. *)
Definition heap_ax1 : heap :=
  [ {[ "a" := VMap 1 ]}; {[ "x" := VInt 1 ]}; {[ "a" := VMap 1 ]} ].

Definition parent_ax1 : Configuration :=
  mkConfiguration 0 "." [] {[ "a.x" := VInt 1 ]} [] ∅.

(** The child that Sub("a") returns, and the parent afterwards. *)
Definition child_a : Configuration := mkConfiguration 1 "." [] ∅ [] ∅.

(** The child once it has read x, which is 1. *)
Definition child_a_read_x : Configuration :=
  mkConfiguration 1 "." [] {[ "x" := VInt 1 ]} [] ∅.

Definition parent_ax1_after_Sub : Configuration :=
  mkConfiguration 0 "." [] {[ "a.x" := VInt 1; "a" := VMap 1 ]} [] ∅.

(** The heap after Set("a.x", z) on the parent. *)
Definition heap_ax1_set (z : Z) : heap :=
  [ {[ "a" := VMap 1; "x" := VInt z ]}; {[ "x" := VInt z ]};
    {[ "a" := VMap 1 ]} ].

(** The tree [{a: {x: 1}}] at address 0 together with a mapping [{y: 2}]
    that a caller holds at address 2. *)
Definition heap_ax1_y2 : heap :=
  [ {[ "a" := VMap 1 ]}; {[ "x" := VInt 1 ]}; {[ "y" := VInt 2 ]} ].

(** The data below the root of a Configuration. *)
Definition tree_of (fuel : nat) (out : outcome) : option tree :=
  readback fuel (out_heap out) (VMap (override (out_conf out))).

(** A tree holding [{a: 1}] below a Configuration with nothing cached. *)
Definition heap_a1 : heap := [ {[ "a" := VInt 1 ]} ].
Definition conf_root0 : Configuration := mkConfiguration 0 "." [] ∅ [] ∅.

(** A decoder of targets that are a pointer to an empty interface: it
    stores what the value stands for. *)
Definition Decode_any (_ : unit) (h : heap) (v : value) (_ : option tree)
    : option tree * option error :=
  (readback (length h) h v, None).

(** ** Keys, segments and further scenarios *)

(** [strings.Contains]. *)
Fixpoint occurs (sep s : string) : bool :=
  HasPrefix s sep ||
  match s with
  | EmptyString => false
  | String _ s' => occurs sep s'
  end.

(** The dotted key that [lookup] builds along a path of the tree. *)
Definition join_key (sep : string) (path : list string) : string :=
  foldl (λ prefix k, if decide (prefix = "") then k else prefix +:+ sep +:+ k)
        "" path.

(** A leaf of the tree below [l]: the entry [k], with a value that is not
    a mapping, of the mapping that the segments [ps] lead to. *)
Definition leaf_at (h : heap) (l : loc) (ps : list string) (k : string)
    (v : value) : Prop :=
  ∃ (m : loc) (mobj : gmap string value),
    walk h l ps = Some m ∧ h !! m = Some mobj ∧ mobj !! k = Some v ∧
    cast.ToStringMapE v = None.

(** No two leaves of the tree flatten to the same dotted key.  Then the
    flattened tree does not depend on the order in which [lookup] ranges
    over the maps, which Go leaves open. *)
Definition collision_free (h : heap) (l : loc) (sep : string) : Prop :=
  ∀ ps k v ps' k' v',
    leaf_at h l ps k v → leaf_at h l ps' k' v' →
    join_key sep (ps ++ [k]) = join_key sep (ps' ++ [k']) →
    ps = ps' ∧ k = k'.

(** An order in which to range over each map object; Go leaves it open,
    and [lookup] above takes the one of [map_to_list].  [lookup_in] is
    [lookup] ranging in the order given. *)
Definition order := loc → gmap string value → list (string * value).

Definition fair (ord : order) : Prop :=
  ∀ (l : loc) (obj : gmap string value), ord l obj ≡ₚ map_to_list obj.

Fixpoint lookup_in (ord : order) (fuel : nat) (h : heap) (prefix : string)
    (target : loc) (data : gmap string value) (sep : string)
    : option (gmap string value) :=
  match fuel with
  | O => None
  | S fuel' =>
      tobj ← h !! target;
      fold_opt
        (lookup_entry (λ pp dd data, lookup_in ord fuel' h pp dd data sep)
                      prefix sep)
        (ord target tobj) data
  end.

(** The mappings below [l] nest less than [n] deep. *)
Fixpoint within_depth (n : nat) (h : heap) (l : loc) : Prop :=
  match n with
  | O => False
  | S n' =>
      ∃ obj : gmap string value, h !! l = Some obj ∧
        ∀ k dd, obj !! k = Some (VMap dd) → within_depth n' h dd
  end.

(** [cast.ToStringMapE] also takes a string, which [encoding/json] must
    read as an object or as null; such a text begins, after white space,
    with a brace or with the letter n.  [plain v]: the value is no mapping
    and no such string, so that the conversion fails on it in cast as it
    does in the model. *)
Fixpoint skip_space (s : string) : string :=
  match s with
  | String ch s' =>
      if decide (ch ∈ [" "%char; "009"%char; "010"%char; "013"%char])
      then skip_space s' else s
  | EmptyString => EmptyString
  end.

Definition may_convert (s : string) : bool :=
  match skip_space s with
  | String ch _ => bool_decide (ch = "{"%char) || bool_decide (ch = "n"%char)
  | EmptyString => false
  end.

Definition plain (v : value) : bool :=
  match v with
  | VMap _ => false
  | VStr s => negb (may_convert s)
  | _ => true
  end.

(** Decoded data whose leaves are what the model takes them for: no NaN
    anywhere, and no string as an entry of a mapping that cast would turn
    into a mapping.  The same for the map objects of a heap. *)
Fixpoint strings_plain (t : tree) : bool :=
  match t with
  | TStr s => negb (may_convert s)
  | TMap m => map_fold (λ _ t' acc, strings_plain t' && acc) true m
  | _ => true
  end.

Definition regular (t : tree) : bool := nan_free t && strings_plain t.

Definition heap_regular (h : heap) : Prop :=
  heap_nan_free h ∧
  ∀ (l : loc) (obj : gmap string value) (k : string) (v : value),
    h !! l = Some obj → obj !! k = Some v →
    cast.ToStringMapE v = None → plain v = true.

(** Two mappings [{a: 1}] and [{a: 2}], and what merging the second into
    the first leaves. *)
Definition heap_a1_a2 : heap := [ {[ "a" := VInt 1 ]}; {[ "a" := VInt 2 ]} ].

Definition merged_a2 : outcome :=
  mkOutcome [ {[ "a" := VInt 2 ]}; {[ "a" := VInt 2 ]} ]
            (mkConfiguration 0 "." [] {[ "a" := VInt 2 ]} [] ∅) ∅ [] None.

(** The tree [{a: {x: 1}}] at address 0 below a Configuration that has
    cached nil for b, and the mapping [{}] at address 2. *)
Definition heap_ax1_empty : heap :=
  [ {[ "a" := VMap 1 ]}; {[ "x" := VInt 1 ]}; ∅ ].

Definition conf_b_nil : Configuration :=
  mkConfiguration 0 "." [] {[ "b" := VNil ]} [] ∅.

Definition merged_b_nil : outcome :=
  mkOutcome heap_ax1_empty
            (mkConfiguration 0 "." [] {[ "a.x" := VInt 1; "b" := VNil ]} [] ∅)
            ∅ [] None.


(** A Configuration over the tree at address 0 that has cached a = 1. *)
Definition conf_a1_cached : Configuration :=
  mkConfiguration 0 "." [] {[ "a" := VInt 1 ]} [] ∅.

(** What the walk along a, b leaves of the tree [{a: 1}]: the scalar under
    a has given way to a fresh mapping. *)
Definition heap_a_b : heap :=
  [ {[ "a" := VMap 1 ]}; {[ "b" := VMap 2 ]}; ∅ ].

(** A Configuration with handlers 7 and 8 watching the empty prefix. *)
Definition conf_watch_all : Configuration :=
  mkConfiguration 0 "." [] ∅ [] {[ "" := [7; 8] ]}.


(** A payload decodes, if at all, to a mapping nested no deeper than
    [fuel]. *)
Definition decodes_within (fuel : nat) (unmarshaller : Unmarshaller)
    (content : list byte) : Prop :=
  match unmarshaller content with
  | inr m => tdepth (TMap m) ≤ fuel
  | inl _ => True
  end.

(** The reads that gave a payload. *)
Definition payloads (reads : list (error + list byte)) : list (list byte) :=
  omap (λ r, match r with inr content => Some content | inl _ => None end)
       reads.

Definition unmarshal_fails : Unmarshaller := λ _, inl (ErrExternal "yaml").

(** What Set("x", 2) on the child of Sub("a") leaves. *)
Definition child_a_set_x2 : outcome :=
  mkOutcome [ {[ "a" := VMap 1 ]}; {[ "x" := VInt 2 ]}; {[ "a" := VMap 1 ]} ]
            (mkConfiguration 1 "." [] {[ "x" := VInt 2 ]} [] ∅) ∅ [] None.


(** What follows the first segment in a joined key. *)
Definition after_first (sep : string) (segs : list string) : string :=
  foldr (λ k acc, sep +:+ k +:+ acc) "" segs.

(** A decoder that gives [{x: NaN}], the new Configuration after loading
    it, and after loading it again: the second load reports x. *)
Definition unmarshal_nan : Unmarshaller :=
  λ _, inr {[ "x" := TFloat PrimFloat.nan ]}.

Definition after_load_nan : outcome :=
  mkOutcome [ {[ "x" := VFloat PrimFloat.nan ]};
              {[ "x" := VFloat PrimFloat.nan ]} ]
            (mkConfiguration 0 "." [] {[ "x" := VFloat PrimFloat.nan ]} [] ∅)
            ∅ [] None.

Definition after_reload_nan : outcome :=
  mkOutcome [ {[ "x" := VFloat PrimFloat.nan ]};
              {[ "x" := VFloat PrimFloat.nan ]};
              {[ "x" := VFloat PrimFloat.nan ]} ]
            (mkConfiguration 0 "." [] {[ "x" := VFloat PrimFloat.nan ]} [] ∅)
            {[ "x" := VFloat PrimFloat.nan ]} [] None.

(** * Properties *)

(** ** Splitting a key *)

Lemma genSplit_snoc sep skip cur s :
  ∃ ps lastKey, genSplit sep skip cur s = ps ++ [lastKey].
Proof.
  revert skip cur. induction s as [|ch s IH]; intros skip cur; cbn [genSplit].
  - by exists [], cur.
  - destruct skip as [|n]; [|apply IH].
    destruct (HasPrefix (String ch s) sep).
    + destruct (IH (String.length sep - 1) "") as (ps & l & ->).
      by exists (cur :: ps), l.
    + apply IH.
Qed.

(** With a non-empty delimiter a key always has a last segment. *)
Lemma Split_snoc key sep :
  sep ≠ "" → ∃ ps lastKey, Split key sep = ps ++ [lastKey].
Proof.
  intros Hsep. unfold Split. rewrite decide_False by done.
  apply genSplit_snoc.
Qed.

Lemma last_removelast_snoc {A} (ps : list A) x :
  last (ps ++ [x]) = Some x ∧ removelast (ps ++ [x]) = ps.
Proof. split; [apply last_snoc | apply removelast_last]. Qed.

(** ** Load and a failing decoder *)

(** C8: when the decoder fails, Load returns the decoder's error, nothing is
    merged, no change is recorded or dispatched, and the heap, hence the
    tree below [override], is the one from before the call. *)
Theorem Load_decode_error_keeps_tree
    (fuel : nat) (h : heap) (c : Configuration) (content : list byte)
    (unmarshal : Unmarshaller) (err : error) :
  unmarshal content = inl err →
  ∃ out, Load fuel h c content unmarshal = Some out ∧
    out_err out = Some err ∧
    out_heap out = h ∧
    override (out_conf out) = override c ∧
    keyMap (out_conf out) = keyMap c ∧
    out_changes out = ∅ ∧
    out_spawned out = [] ∧
    ∀ n, readback n (out_heap out) (VMap (override (out_conf out)))
         = readback n h (VMap (override c)).
Proof.
  intros Hdec. unfold Load. rewrite Hdec.
  eexists. split; [reflexivity|]. simpl. by repeat split.
Qed.

(** C10: Load stores the new bytes before it decodes them: whenever Load
    returns, also with a decode error and the old tree kept, [raw] gives the
    bytes of this call. *)
Theorem Load_overwrites_raw_first
    (fuel : nat) (h : heap) (c : Configuration) (content : list byte)
    (unmarshal : Unmarshaller) :
  (∀ out, Load fuel h c content unmarshal = Some out →
          raw (out_conf out) = content) ∧
  (∀ err, unmarshal content = inl err →
     ∃ out, Load fuel h c content unmarshal = Some out ∧
       out_err out = Some err ∧ out_heap out = h ∧
       raw (out_conf out) = content).
Proof.
  split.
  - intros out. unfold Load.
    destruct (unmarshal content) as [err|configuration].
    + by intros [= <-].
    + unfold apply. intros Hout.
      destruct (xmap.MergeStringMap _ _ _ _) as [h1|]; [|done]. simpl in Hout.
      destruct (traverse _ _ _ _) as [data|]; [|done]. simpl in Hout.
      by injection Hout as <-.
  - intros err Hdec. unfold Load. rewrite Hdec. by eexists.
Qed.

(** ** The resolved-key cache *)

(** C5: on a cache hit [find] returns the entry, whatever the heap holds,
    and changes nothing; on a miss it splits the key, walks the tree with
    all segments but the last, reads the leaf (nil when absent), stores the
    result under the key and returns it; and a key once resolved to nil is
    answered nil from then on, whatever the tree has become. *)
Theorem find_cache_first (h : heap) (c : Configuration) (key : string) :
  (∀ dd, keyMap c !! key = Some dd →
     ∀ h', find h' c key = Some (dd, c)) ∧
  (keyMap c !! key = None →
     ∀ root ps lastKey,
       Split key (keyDelim c) = ps ++ [lastKey] →
       h !! override c = Some root →
       let dd := default VNil (xmap.DeepSearchInMap h root ps !! lastKey) in
       find h c key = Some (dd, set_keyMap (<[key := dd]> (keyMap c)) c)) ∧
  (∀ c', find h c key = Some (VNil, c') →
     ∀ h', find h' c' key = Some (VNil, c')).
Proof.
  split; [|split].
  - intros dd Hhit h'. unfold find. by rewrite Hhit.
  - intros Hmiss root ps lastKey Hsplit Hroot dd. unfold find.
    rewrite Hmiss, Hsplit.
    destruct (last_removelast_snoc ps lastKey) as [-> ->].
    simpl. by rewrite Hroot.
  - intros c' Hfind h'. unfold find in Hfind |- *.
    destruct (keyMap c !! key) as [dd|] eqn:Hkm.
    + injection Hfind as -> <-. by rewrite Hkm.
    + destruct (last _) as [lastKey|]; [|done]. simpl in Hfind.
      destruct (h !! override c) as [root|]; [|done]. simpl in Hfind.
      injection Hfind as Hdd <-. simpl.
      by rewrite lookup_insert_eq, Hdd.
Qed.

(** ** Missing keys *)

Lemma string_app_cons (ch : ascii) (a b : string) :
  String ch a +:+ b = String ch (a +:+ b).
Proof. reflexivity. Qed.

Lemma string_app_assoc (a b c : string) : (a +:+ b) +:+ c = a +:+ (b +:+ c).
Proof.
  induction a as [|ch a IH]; [done|]. rewrite !string_app_cons. by f_equal.
Qed.

Lemma percent_free_app (a b : string) :
  percent_free (a +:+ b) = percent_free a && percent_free b.
Proof.
  induction a as [|ch a IH]; [done|]. rewrite string_app_cons. simpl.
  by rewrite IH, andb_assoc.
Qed.

Lemma errors_Is_Errorf_key (key : string) :
  percent_free key = true →
  errors_Is (Errorf (key +:+ ",err: %w") ErrInvalidKey) ErrInvalidKey.
Proof.
  intros Hkey.
  assert (key +:+ ",err: %w" = (key +:+ ",err: ") +:+ "%w") as ->
    by (by rewrite string_app_assoc).
  constructor; [|constructor].
  rewrite percent_free_app, Hkey. done.
Qed.

Lemma find_absent (h : heap) (c : Configuration) (key : string) :
  keyMap c !! key = None →
  absent_in_tree h c key →
  find h c key = Some (VNil, set_keyMap (<[key := VNil]> (keyMap c)) c).
Proof.
  intros Hmiss (root & ps & lastKey & Hsplit & Hroot & Hleaf).
  unfold find. rewrite Hmiss, Hsplit.
  destruct (last_removelast_snoc ps lastKey) as [-> ->].
  simpl. rewrite Hroot. simpl. by rewrite Hleaf.
Qed.

Section MissingKey.
Context {options target : Type}.
Variable ParseInt : string → option Z.
Variable defaultContainer : options.
Variable NewDecoder : options → target → option error.
Variable Decode : options → heap → value → target → target * option error.

(** C9, for the keys that reach the lookup: for every key that is not the
    empty string (which UnmarshalKey takes to mean the whole tree) and is
    absent from the cache and the tree, GetInt returns 0, and UnmarshalKey
    on a target that NewDecoder accepts returns the target as it was
    together with an error; when the key holds no [%], which would be read
    as a verb of the error format, that error wraps ErrInvalidKey. *)
Theorem missing_key_GetInt_UnmarshalKey
    (h : heap) (c : Configuration) (key : string) :
  keyMap c !! key = None →
  absent_in_tree h c key →
  let c' := set_keyMap (<[key := VNil]> (keyMap c)) c in
  GetInt ParseInt h c key = Some (0%Z, c') ∧
  (key ≠ "" →
   ∀ (rawVal : target) (opts : list (options → options)),
     NewDecoder (foldl (λ o opt, opt o) defaultContainer opts) rawVal = None →
     ∃ e, UnmarshalKey defaultContainer NewDecoder Decode h c key rawVal opts
            = Some (rawVal, Some e, c') ∧
          (percent_free key = true → errors_Is e ErrInvalidKey)).
Proof.
  intros Hmiss Habs c'. pose proof (find_absent h c key Hmiss Habs) as Hfind.
  split.
  - unfold GetInt, Get. by rewrite Hfind.
  - intros Hkey rawVal opts Hnew. unfold UnmarshalKey, Get.
    rewrite Hnew, decide_False, Hfind by done. simpl.
    eexists. split; [reflexivity|]. apply errors_Is_Errorf_key.
Qed.
End MissingKey.

(** C9 as stated fails at the empty key: it is absent from the cache and from
    the tree [{a: 1}], yet UnmarshalKey returns no error and overwrites the
    target with the whole tree. *)
Lemma UnmarshalKey_empty_key_decodes_tree :
  keyMap conf_root0 !! "" = None ∧
  absent_in_tree heap_a1 conf_root0 "" ∧
  UnmarshalKey tt (λ _ _, None) Decode_any heap_a1 conf_root0 "" None []
    = Some (Some (TMap {[ "a" := TInt 1 ]}), None, conf_root0).
Proof.
  split; [done|]. split.
  - exists {[ "a" := VInt 1 ]}, [], "". by repeat split.
  - vm_compute. reflexivity.
Qed.

Lemma missing_key_GetInt_UnmarshalKey_witness :
  GetInt (λ _, None) heap_a1 conf_root0 "missing"
    = Some (0%Z, set_keyMap {[ "missing" := VNil ]} conf_root0) ∧
  ∃ e, UnmarshalKey tt (λ _ _, None) Decode_any heap_a1 conf_root0
         "missing" None []
         = Some (None, Some e, set_keyMap {[ "missing" := VNil ]} conf_root0) ∧
       (percent_free "missing" = true → errors_Is e ErrInvalidKey).
Proof.
  assert (Habs : absent_in_tree heap_a1 conf_root0 "missing").
  { exists {[ "a" := VInt 1 ]}, [], "missing". by repeat split. }
  destruct (missing_key_GetInt_UnmarshalKey (λ _, None) tt (λ _ _, None)
              Decode_any heap_a1 conf_root0 "missing" eq_refl Habs)
    as [Hint Hkey].
  split; [exact Hint|].
  exact (Hkey ltac:(discriminate) None [] eq_refl).
Defined.

(** ** Watch prefixes *)

Lemma changed_prefix_inner (changes : gmap string value) (watchPrefix p : string)
    (acc : gset string) :
  p ∈ map_fold
        (λ (key : string) (_ : value) (acc : gset string),
           if HasPrefix key watchPrefix then {[watchPrefix]} ∪ acc else acc)
        acc changes
  ↔ p ∈ acc ∨
    (p = watchPrefix ∧
     ∃ key, is_Some (changes !! key) ∧ HasPrefix key watchPrefix = true).
Proof.
  apply (map_fold_weak_ind (λ r (m : gmap string value),
    p ∈ r ↔ p ∈ acc ∨
      (p = watchPrefix ∧
       ∃ key, is_Some (m !! key) ∧ HasPrefix key watchPrefix = true))).
  - split; [by left|]. intros [?|(_ & key & Hkey & _)]; [done|].
    rewrite lookup_empty in Hkey. by destruct Hkey.
  - intros key x m r Hfresh IH.
    destruct (HasPrefix key watchPrefix) eqn:Hpre.
    + rewrite elem_of_union, elem_of_singleton, IH. split.
      * intros [->|[?|(-> & key' & Hkey' & ?)]]; [right|by left|right].
        -- split; [done|]. exists key. by rewrite lookup_insert_eq.
        -- split; [done|]. exists key'. split; [|done].
           rewrite lookup_insert_ne; [done|]. intros ->.
           rewrite Hfresh in Hkey'. by destruct Hkey'.
      * intros [?|(-> & _)]; [right; by left|by left].
    + rewrite IH. split.
      * intros [?|(-> & key' & Hkey' & ?)]; [by left|right].
        split; [done|]. exists key'. split; [|done].
        rewrite lookup_insert_ne; [done|]. intros ->.
        rewrite Hfresh in Hkey'. by destruct Hkey'.
      * intros [?|(-> & key' & Hkey' & Hpre')]; [by left|right].
        split; [done|]. exists key'. split; [|done].
        destruct (decide (key = key')) as [->|Hne]; [congruence|].
        by rewrite lookup_insert_ne in Hkey'.
Qed.

Lemma changedWatchPrefixMap_spec (c : Configuration)
    (changes : gmap string value) (p : string) :
  p ∈ changedWatchPrefixMap c changes ↔
  is_Some (watchers c !! p) ∧
  ∃ key, is_Some (changes !! key) ∧ HasPrefix key p = true.
Proof.
  unfold changedWatchPrefixMap.
  apply (map_fold_weak_ind (λ (r : gset string) (w : gmap string (list handler)),
    p ∈ r ↔ is_Some (w !! p) ∧
            ∃ key, is_Some (changes !! key) ∧ HasPrefix key p = true)).
  - rewrite lookup_empty. split; [set_solver|]. intros [[? ?] _]. done.
  - intros wp cbs w r Hfresh IH. rewrite changed_prefix_inner, IH.
    destruct (decide (wp = p)) as [->|Hne].
    + rewrite lookup_insert_eq, Hfresh. split.
      * intros [[[? ?] _]|[_ ?]]; [done|]. split; [by eexists|done].
      * intros [_ ?]. by right.
    + rewrite lookup_insert_ne by done. split.
      * intros [?|[-> _]]; done.
      * intros ?. by left.
Qed.

Lemma elem_of_submseteq_concat {A} (l : list A) (ls : list (list A)) :
  l ∈ ls → l ⊆+ concat ls.
Proof.
  induction 1 as [l ls|l l' ls _ IH]; simpl.
  - by apply submseteq_inserts_r.
  - by apply submseteq_inserts_l.
Qed.

Lemma elem_of_concat {A} (x : A) (ls : list (list A)) :
  x ∈ concat ls ↔ ∃ l, x ∈ l ∧ l ∈ ls.
Proof.
  induction ls as [|l' ls IH]; simpl.
  - rewrite elem_of_nil. split; [done|]. intros (l & _ & Hl).
    by apply elem_of_nil in Hl.
  - rewrite elem_of_app, IH. split.
    + intros [?|(l & ? & ?)]; [exists l'|exists l]; split; auto;
        [by left|by right].
    + intros (l & Hx & Hl). apply elem_of_cons in Hl as [->|?]; [by left|].
      right. by exists l.
Qed.

(** C4: a watch prefix is marked, and the handlers stored under it are all
    started, exactly when some changed key begins with the prefix as a plain
    string; the handlers started are those of the marked prefixes and no
    others.  So a watcher on "db" is notified by "db.host" and by
    "dbx.flag" alike. *)
Theorem notifyChanges_plain_prefix (c : Configuration)
    (changes : gmap string value) :
  (∀ p cbs, watchers c !! p = Some cbs →
     (p ∈ changedWatchPrefixMap c changes ↔
      ∃ key, is_Some (changes !! key) ∧ HasPrefix key p = true) ∧
     (p ∈ changedWatchPrefixMap c changes → cbs ⊆+ notifyChanges c changes)) ∧
  (∀ fn, fn ∈ notifyChanges c changes ↔
     ∃ p cbs key, watchers c !! p = Some cbs ∧ fn ∈ cbs ∧
       is_Some (changes !! key) ∧ HasPrefix key p = true) ∧
  HasPrefix "db.host" "db" = true ∧
  HasPrefix "dbx.flag" "db" = true.
Proof.
  split; [|split; [|done]].
  - intros p cbs Hp. split.
    + rewrite changedWatchPrefixMap_spec, Hp. split; [by intros [_ ?]|].
      intros ?. split; [by eexists|done].
    + intros Hin. apply elem_of_submseteq_concat.
      apply list_elem_of_fmap. exists p. rewrite Hp. split; [done|].
      by apply elem_of_elements.
  - intros fn. unfold notifyChanges. rewrite elem_of_concat. split.
    + intros (l & Hfn & Hl). apply list_elem_of_fmap in Hl as (p & -> & Hp).
      apply elem_of_elements, changedWatchPrefixMap_spec in Hp
        as [[cbs Hcbs] (key & Hkey & Hpre)].
      rewrite Hcbs in Hfn. by exists p, cbs, key.
    + intros (p & cbs & key & Hcbs & Hfn & Hkey & Hpre). exists cbs.
      split; [done|]. apply list_elem_of_fmap. exists p. rewrite Hcbs.
      split; [done|]. apply elem_of_elements, changedWatchPrefixMap_spec.
      split; [by eexists|by exists key].
Qed.

Lemma notifyChanges_plain_prefix_witness :
  ("db" ∈ changedWatchPrefixMap
            (mkConfiguration 0 "." [] ∅ [] {[ "db" := [3] ]})
            {[ "dbx.flag" := VBool true ]} ↔
   ∃ key, is_Some (({[ "dbx.flag" := VBool true ]} : gmap string value) !! key) ∧
          HasPrefix key "db" = true) ∧
  notifyChanges (mkConfiguration 0 "." [] ∅ [] {[ "db" := [3] ]})
                {[ "dbx.flag" := VBool true ]} = [3].
Proof.
  split; [|by vm_compute].
  exact (proj1 (proj1 (notifyChanges_plain_prefix
                  (mkConfiguration 0 "." [] ∅ [] {[ "db" := [3] ]})
                  {[ "dbx.flag" := VBool true ]}) "db" [3] eq_refl)).
Defined.

(** ** Change detection *)

(** What the loop of [apply] computes: the cache takes every flattened pair,
    and a key is recorded when the cache held an entry before the loop that
    is not deeply equal to the new value. *)
Lemma diff_spec (fuel : nat) (h : heap) (km data : gmap string value) :
  (∀ k, (diff fuel h km data).2 !! k
        = match data !! k with Some v => Some v | None => km !! k end) ∧
  (∀ k, (diff fuel h km data).1 !! k
        = match data !! k, km !! k with
          | Some v, Some orig =>
              if DeepEqual fuel h orig v then None else Some v
          | _, _ => None
          end).
Proof.
  unfold diff.
  apply (map_fold_weak_ind
    (λ (r : gmap string value * gmap string value) (m : gmap string value),
       (∀ k, r.2 !! k = match m !! k with Some v => Some v | None => km !! k end) ∧
       (∀ k, r.1 !! k
             = match m !! k, km !! k with
               | Some v, Some orig =>
                   if DeepEqual fuel h orig v then None else Some v
               | _, _ => None
               end))).
  - split; intros k; by rewrite lookup_empty.
  - intros i v m r Hfresh [IHkm IHch]. simpl. split; intros k.
    + destruct (decide (i = k)) as [->|Hne].
      * by rewrite !lookup_insert_eq.
      * by rewrite !lookup_insert_ne.
    + rewrite (IHkm i), Hfresh.
      destruct (decide (i = k)) as [->|Hne].
      * rewrite lookup_insert_eq. specialize (IHch k). rewrite Hfresh in IHch.
        destruct (km !! k) as [orig|]; [|done].
        destruct (DeepEqual fuel h orig v); [done|]. by rewrite lookup_insert_eq.
      * rewrite (lookup_insert_ne m) by done. rewrite <- IHch.
        destruct (km !! i) as [orig|]; [|done].
        destruct (DeepEqual fuel h orig v); [done|]. by rewrite lookup_insert_ne.
Qed.

Lemma diff_empty_cache (fuel : nat) (h : heap) (data : gmap string value) :
  (diff fuel h ∅ data).1 = ∅.
Proof.
  apply map_eq. intros k. rewrite (proj2 (diff_spec fuel h ∅ data) k).
  rewrite !lookup_empty. by destruct (data !! k).
Qed.

(** C6: after a merge that succeeded, for every pair (k, v) of the flattened
    merged tree, k is in the ChangeSet exactly when the cache held an entry
    for k before that is not deeply equal to v, and the cache holds v for k
    afterwards; with an empty cache the ChangeSet is empty and no handler is
    started. *)
Theorem apply_change_detection
    (fuel : nat) (h : heap) (c : Configuration) (conf : loc)
    (h1 : heap) (data : gmap string value) :
  xmap.MergeStringMap fuel h (override c) conf = Some h1 →
  traverse fuel h1 c (keyDelim c) = Some data →
  ∃ out, apply fuel h c conf = Some out ∧
    out_heap out = h1 ∧
    (∀ k v, data !! k = Some v →
       (is_Some (out_changes out !! k) ↔
        ∃ orig, keyMap c !! k = Some orig ∧ DeepEqual fuel h1 orig v = false) ∧
       (is_Some (out_changes out !! k) → out_changes out !! k = Some v) ∧
       keyMap (out_conf out) !! k = Some v) ∧
    (keyMap c = ∅ → out_changes out = ∅ ∧ out_spawned out = []).
Proof.
  intros Hmerge Hdata. unfold apply. rewrite Hmerge. simpl. rewrite Hdata.
  simpl. eexists. split; [reflexivity|]. simpl. split; [done|].
  destruct (diff_spec fuel h1 (keyMap c) data) as [Hkm Hch]. split.
  - intros k v Hk. rewrite Hch, Hkm, Hk. split; [|split; [|done]].
    + destruct (keyMap c !! k) as [orig|].
      * destruct (DeepEqual fuel h1 orig v) eqn:Heq.
        -- split; [by intros [? ?]|]. intros (? & [= <-] & ?). congruence.
        -- split; [by exists orig|by eexists].
      * split; [by intros [? ?]|]. by intros (? & ? & _).
    + destruct (keyMap c !! k) as [orig|]; [|by intros [? ?]].
      destruct (DeepEqual fuel h1 orig v); [by intros [? ?]|done].
  - intros ->. rewrite diff_empty_cache. done.
Qed.

(** ** Trees in the heap *)

Lemma shaped_mono (n n' : nat) (h : heap) (v : value) (F F' : gset loc) :
  n ≤ n' → F ⊆ F' → shaped n h v F → shaped n' h v F'.
Proof.
  revert n' v F F'. induction n as [|n IH]; intros n' v F F' Hn HF Hs.
  - destruct v; by destruct n'.
  - destruct v; try (by destruct n').
    destruct n' as [|n']; [lia|]. simpl in *.
    destruct Hs as (obj & Fk & Hl & HlF & HFk & Hdisj & Hch).
    exists obj, Fk. split; [done|]. split; [set_solver|].
    split; [intros k; assert (Hk' := HFk k); destruct Hk'; split; [done|set_solver]|].
    split; [done|]. intros k v' Hk. eapply IH; [lia|reflexivity|by eauto].
Qed.

Lemma shaped_frame (n : nat) (h h' : heap) (v : value) (F : gset loc) :
  (∀ l, l ∈ F → h' !! l = h !! l) → shaped n h v F → shaped n h' v F.
Proof.
  revert v F. induction n as [|n IH]; intros v F Hfr Hs; destruct v; try done.
  simpl in *. destruct Hs as (obj & Fk & Hl & HlF & HFk & Hdisj & Hch).
  exists obj, Fk. split; [by rewrite Hfr|]. split; [done|]. split; [done|].
  split; [done|]. intros k v' Hk. apply IH; [|by eauto].
  intros l' Hl'. apply Hfr. assert (Hk' := HFk k). destruct Hk'. set_solver.
Qed.

Lemma shaped_ext (n : nat) (h ext : heap) (v : value) (F : gset loc) :
  shaped n h v F → shaped n (h ++ ext) v F.
Proof.
  revert v F. induction n as [|n IH]; intros v F Hs; destruct v; try done.
  simpl in *. destruct Hs as (obj & Fk & Hl & HlF & HFk & Hdisj & Hch).
  exists obj, Fk. split; [by apply lookup_app_l_Some|]. eauto 10.
Qed.

Lemma covers_frame (n : nat) (h h' : heap) (v : value) (t : tree) (F : gset loc) :
  (∀ l, l ∈ F → h' !! l = h !! l) → shaped n h v F →
  covers n h v t → covers n h' v t.
Proof.
  revert v t F. induction n as [|n IH]; intros v t F Hfr Hs Hc; destruct t; try done.
  simpl in *. destruct Hc as (l & obj & -> & Hl & Hch).
  simpl in Hs. destruct Hs as (obj' & Fk & Hl' & HlF & HFk & Hdisj & Hsh).
  rewrite Hl in Hl'. injection Hl' as <-.
  exists l, obj. split; [done|]. split; [by rewrite Hfr|].
  intros k t' Hk. destruct (Hch k t' Hk) as (v' & Hv' & Hc').
  exists v'. split; [done|]. eapply (IH _ _ (Fk k)); [|by eauto|done].
  intros l' Hl'. apply Hfr. assert (Hk' := HFk k). destruct Hk'. set_solver.
Qed.

Lemma readback_leaf (n : nat) (h : heap) (v : value) :
  cast.ToStringMapE v = None → ∃ t, readback n h v = Some t ∧ v = leaf t ∧ tdepth t = 0.
Proof. destruct v, n; intros Hv; try done; eexists; by repeat split. Qed.

Lemma readback_map_inv (n : nat) (h : heap) (l : loc) (t : tree) :
  readback (S n) h (VMap l) = Some t →
  ∃ (obj : gmap string value) (tm : gmap string tree),
    t = TMap tm ∧ h !! l = Some obj ∧
    (∀ k, tm !! k = obj !! k ≫= readback n h) ∧
    (∀ k v, obj !! k = Some v → is_Some (readback n h v)).
Proof.
  simpl. destruct (h !! l) as [obj|]; [|done]. simpl.
  case_bool_decide as Hall; [|done]. intros [= <-].
  exists obj, (omap id (readback n h <$> obj)). split; [done|]. split; [done|].
  split.
  - intros k. rewrite lookup_omap, lookup_fmap. by destruct (obj !! k).
  - intros k v Hk. apply (Hall k). by rewrite lookup_fmap, Hk.
Qed.

Lemma readback_map_intro (n : nat) (h : heap) (l : loc)
    (obj : gmap string value) (tm : gmap string tree) :
  h !! l = Some obj →
  (∀ k, match obj !! k with
        | Some v => readback n h v = tm !! k ∧ is_Some (tm !! k)
        | None => tm !! k = None
        end) →
  readback (S n) h (VMap l) = Some (TMap tm).
Proof.
  intros Hl Hk. simpl. rewrite Hl. simpl. rewrite bool_decide_true.
  - do 2 f_equal. apply map_eq. intros k. rewrite lookup_omap, lookup_fmap.
    specialize (Hk k). destruct (obj !! k) as [v|]; simpl; [|done].
    destruct Hk as [-> _]. by destruct (tm !! k).
  - intros k o. rewrite lookup_fmap. specialize (Hk k).
    destruct (obj !! k) as [v|]; [|done]. simpl. intros [= <-].
    destruct Hk as [-> ?]. done.
Qed.

Lemma readback_is_map (n : nat) (h : heap) (v : value) (tm : gmap string tree) :
  readback n h v = Some (TMap tm) → ∃ l, v = VMap l.
Proof.
  destruct v, n; try done; eauto.
Qed.

Lemma readback_not_map (n : nat) (h : heap) (v : value) (t : tree) :
  readback n h v = Some t → (∀ tm, t ≠ TMap tm) → v = leaf t ∧ cast.ToStringMapE v = None.
Proof.
  intros Hr Ht. destruct v; try (destruct n; simpl in Hr; injection Hr as <-; done).
  destruct n; [done|]. apply readback_map_inv in Hr as (? & tm & -> & _).
  by destruct (Ht tm).
Qed.

Lemma readback_frame (n : nat) (h h' : heap) (v : value) (F : gset loc) :
  (∀ l, l ∈ F → h' !! l = h !! l) → shaped n h v F →
  readback n h' v = readback n h v.
Proof.
  revert v F. induction n as [|n IH]; intros v F Hfr Hs; destruct v; try done.
  simpl in Hs. destruct Hs as (obj & Fk & Hl & HlF & HFk & Hdisj & Hsh).
  simpl. rewrite (Hfr _ HlF), Hl. simpl.
  assert (readback n h' <$> obj = readback n h <$> obj) as ->; [|done].
  apply map_eq. intros k. rewrite !lookup_fmap.
  destruct (obj !! k) as [v'|] eqn:Hk; [|done]. simpl. f_equal.
  apply (IH _ (Fk k)); [|by eauto]. intros l' Hl'. apply Hfr.
  assert (Hk' := HFk k). destruct Hk'. set_solver.
Qed.

Lemma readback_covers (n : nat) (h : heap) (v : value) (t : tree) :
  readback n h v = Some t → covers n h v t.
Proof.
  revert v t. induction n as [|n IH]; intros v t Hr.
  - destruct v; simpl in Hr; try done; by injection Hr as <-.
  - destruct v; simpl in Hr; try (injection Hr as <-; by destruct n).
    all: try (injection Hr as <-; done).
    apply readback_map_inv in Hr as (obj & tm & -> & Hl & Htm & Hall).
    simpl. exists l, obj. split; [done|]. split; [done|].
    intros k t' Hk. rewrite Htm in Hk.
    destruct (obj !! k) as [v'|]; [|done]. simpl in Hk. eauto.
Qed.

Lemma fold_opt_ind {A B} (f : B → A → option B) (Inv : list A → B → Prop)
    (l : list A) :
  ∀ (pre : list A) (b : B),
    Inv pre b →
    (∀ done x rest b, done ++ x :: rest = pre ++ l → Inv done b →
       ∃ b', f b x = Some b' ∧ Inv (done ++ [x]) b') →
    ∃ b', fold_opt f l b = Some b' ∧ Inv (pre ++ l) b'.
Proof.
  induction l as [|x l IH]; intros pre b Hinv Hstep; simpl.
  - exists b. by rewrite app_nil_r.
  - destruct (Hstep pre x l b eq_refl Hinv) as (b' & -> & Hinv').
    destruct (IH (pre ++ [x]) b' Hinv') as (b'' & Hfold & Hinv'').
    + intros done y rest b0 Heq. apply (Hstep done y rest). by rewrite Heq, <- app_assoc.
    + exists b''. split; [done|]. by rewrite <- app_assoc in Hinv''.
Qed.

Lemma fold_opt_const {A B} (f : B → A → option B) (l : list A) (b : B) :
  (∀ x, x ∈ l → f b x = Some b) → fold_opt f l b = Some b.
Proof.
  induction l as [|x l IH]; intros Hf; simpl; [done|].
  rewrite Hf by left. apply IH. intros y Hy. apply Hf. by right.
Qed.

Lemma fold_opt_preserve {A B} (P : B → Prop) (f : B → A → option B)
    (l : list A) (b r : B) :
  (∀ b x b', x ∈ l → f b x = Some b' → P b → P b') →
  P b → fold_opt f l b = Some r → P r.
Proof.
  revert b. induction l as [|x l IH]; intros b Hf Hb; simpl.
  - by intros [= <-].
  - destruct (f b x) as [b'|] eqn:Hfx; [|done]. apply IH.
    + intros b0 y b0' Hy. apply Hf. by right.
    + eapply Hf; [by left|done|done].
Qed.

Lemma fold_opt_elem {A B} (Q : B → Prop) (f : B → A → option B)
    (l : list A) (x : A) :
  x ∈ l →
  (∀ b b', f b x = Some b' → Q b') →
  (∀ b y b', y ∈ l → f b y = Some b' → Q b → Q b') →
  ∀ b r, fold_opt f l b = Some r → Q r.
Proof.
  induction l as [|y l IH]; intros Hx Hat Hkeep b r; [by apply elem_of_nil in Hx|].
  simpl. destruct (f b y) as [b1|] eqn:Hfy; [|done]. intros Hfold.
  apply elem_of_cons in Hx as [<-|Hx].
  - revert Hfold. apply (fold_opt_preserve Q).
    + intros b0 z b0' Hz. apply Hkeep. by right.
    + by eapply Hat.
  - eapply IH; [done|done| |exact Hfold].
    intros b0 z b0' Hz. apply Hkeep. by right.
Qed.

Lemma merge_entry_cases (rec : heap → loc → loc → option heap)
    (d s : loc) (h : heap) (sk : string) (sobj dobj : gmap string value)
    (sv : value) :
  h !! s = Some sobj → sobj !! sk = Some sv → h !! d = Some dobj →
  (∃ tl sl, dobj !! sk = Some (VMap tl) ∧ sv = VMap sl ∧
            xmap.merge_entry rec d s h sk = rec h tl sl) ∨
  ((∀ tl sl, dobj !! sk = Some (VMap tl) → sv ≠ VMap sl) ∧
   xmap.merge_entry rec d s h sk = Some (<[d := <[sk := sv]> dobj]> h)).
Proof.
  intros Hs Hsk Hd. unfold xmap.merge_entry. rewrite Hs. simpl.
  rewrite Hsk, Hd. simpl.
  destruct (dobj !! sk) as [[]|] eqn:Hdk; destruct sv;
    first [ by (left; eexists _, _)
          | right; split; [intros ? ? ?; congruence|done] ].
Qed.

Lemma keys_of_map (obj : gmap string value) (k : string) :
  k ∈ (map_to_list obj).*1 ↔ is_Some (obj !! k).
Proof.
  rewrite list_elem_of_fmap. split.
  - intros ([k' v] & -> & Hkv). apply elem_of_map_to_list in Hkv. by eexists.
  - intros [v Hv]. exists (k, v). split; [done|]. by apply elem_of_map_to_list.
Qed.

Lemma merge_first (n : nat) :
  ∀ (h : heap) (d s : loc) (Fd Fs : gset loc) (tm : gmap string tree),
    shaped n h (VMap d) Fd → shaped n h (VMap s) Fs → Fd ## Fs →
    readback n h (VMap s) = Some (TMap tm) →
    ∃ h', xmap.MergeStringMap n h d s = Some h' ∧
      length h' = length h ∧
      (∀ l, l ∉ Fd → h' !! l = h !! l) ∧
      covers n h' (VMap d) (TMap tm) ∧
      shaped n h' (VMap d) (Fd ∪ Fs).
Proof.
  induction n as [|n IH]; intros h d s Fd Fs tm Hd Hs Hdisj Hrb; [done|].
  destruct Hd as (dobj & FdK & Hhd & HdF & HFdK & HdisjD & HshD).
  destruct Hs as (sobj & FsK & Hhs & HsF & HFsK & HdisjS & HshS).
  apply readback_map_inv in Hrb as (sobj' & tm' & [= <-] & Hhs' & Htm & Hall).
  rewrite Hhs in Hhs'. injection Hhs' as <-.
  assert (HdK : ∀ k, d ∉ FdK k) by (intros k; apply HFdK).
  assert (HsubD : ∀ k, FdK k ⊆ Fd) by (intros k; apply HFdK).
  assert (HsK : ∀ k, s ∉ FsK k) by (intros k; apply HFsK).
  assert (HsubS : ∀ k, FsK k ⊆ Fs) by (intros k; apply HFsK).
  clear HFdK HFsK.
  set (Inv := λ (done : list string) (hc : heap),
    length hc = length h ∧
    (∀ l, l ∉ Fd → hc !! l = h !! l) ∧
    ∃ dobj_c : gmap string value, hc !! d = Some dobj_c ∧
      (∀ k v, dobj_c !! k = Some v →
         shaped n hc v (if decide (k ∈ done) then FdK k ∪ FsK k else FdK k)) ∧
      (∀ k t', k ∈ done → tm !! k = Some t' →
         ∃ v', dobj_c !! k = Some v' ∧ covers n hc v' t')).
  assert (Hloop : ∃ h', fold_opt (xmap.merge_entry (xmap.MergeStringMap n) d s)
                          (map_to_list sobj).*1 h = Some h' ∧
                        Inv ([] ++ (map_to_list sobj).*1) h').
  { apply fold_opt_ind.
    - split; [done|]. split; [done|]. exists dobj. split; [done|]. split.
      + intros k v Hk. rewrite decide_False by apply not_elem_of_nil. eauto.
      + intros k t' Hk. by apply elem_of_nil in Hk.
    - intros done x rest hc Hkeys (Hlen & Hfr & dobj_c & Hhcd & HshC & HcovC).
      simpl in Hkeys.
      assert (Hnd : NoDup (done ++ x :: rest)).
      { rewrite Hkeys. apply NoDup_fst_map_to_list. }
      assert (Hx : x ∉ done).
      { apply NoDup_app in Hnd as (_ & Hnd & _). intros Hin.
        apply (Hnd x Hin). by left. }
      assert (Hxin : is_Some (sobj !! x)).
      { apply keys_of_map. rewrite <- Hkeys. apply elem_of_app. right. by left. }
      destruct Hxin as [sv Hsv].
      assert (Hhcs : hc !! s = Some sobj).
      { rewrite Hfr; [done|]. set_solver. }
      assert (Hframe_s : ∀ k l, l ∈ FsK k → hc !! l = h !! l).
      { intros k l Hl. apply Hfr. specialize (HsubS k). set_solver. }
      assert (Htmx : tm !! x = readback n h sv) by (by rewrite Htm, Hsv).
      destruct (Hall x sv Hsv) as [tx Htx].
      destruct (merge_entry_cases (xmap.MergeStringMap n) d s hc x sobj dobj_c sv
                  Hhcs Hsv Hhcd)
        as [(tl & sl & Hdx & -> & ->)|[Hnot ->]].
      + (* both sides hold a mapping: recurse *)
        assert (∃ tmx, tx = TMap tmx) as [tmx ->].
        { destruct n; [done|].
          apply readback_map_inv in Htx as (? & tmx & -> & _). by eexists. }
        pose proof (HshC x _ Hdx) as HshTl. rewrite decide_False in HshTl by done.
        pose proof (HshS x _ Hsv) as HshSl.
        destruct (IH hc tl sl (FdK x) (FsK x) tmx) as (hc' & -> & Hlen' & Hfr' & Hcov' & Hsh').
        { done. }
        { eapply shaped_frame; [|done]. intros l Hl. by eapply Hframe_s. }
        { specialize (HsubD x). specialize (HsubS x). set_solver. }
        { rewrite <- Htx. eapply readback_frame; [|done].
          intros l Hl. by eapply Hframe_s. }
        exists hc'. split; [done|]. split; [congruence|]. split.
        { intros l Hl. rewrite Hfr', Hfr; [done|done|].
          specialize (HsubD x). set_solver. }
        assert (Hother : ∀ k, k ≠ x → ∀ l,
                  l ∈ FdK k ∪ FsK k → hc' !! l = hc !! l).
        { intros k Hk l Hl. apply Hfr'.
          specialize (HdisjD k x Hk). specialize (HsubD x). specialize (HsubS k).
          set_solver. }
        exists dobj_c. split; [rewrite Hfr'; [done|apply HdK]|]. split.
        * intros k v Hkv. destruct (decide (k = x)) as [->|Hne].
          -- rewrite Hdx in Hkv. injection Hkv as <-.
             rewrite decide_True by (apply elem_of_app; right; by left). done.
          -- specialize (HshC k v Hkv).
             assert (Hdec : (if decide (k ∈ done ++ [x]) then FdK k ∪ FsK k else FdK k)
                     = (if decide (k ∈ done) then FdK k ∪ FsK k else FdK k)).
             { destruct (decide (k ∈ done)) as [Hin|Hnin].
               - rewrite decide_True; [done|]. apply elem_of_app. by left.
               - rewrite decide_False; [done|]. rewrite elem_of_app, list_elem_of_singleton.
                 by intros [?|?]. }
             rewrite Hdec. eapply shaped_frame; [|done].
             intros l Hl. apply (Hother k Hne). destruct (decide (k ∈ done)); set_solver.
        * intros k t' Hk Hkt. destruct (decide (k = x)) as [->|Hne].
          -- exists (VMap tl). split; [done|].
             rewrite Htmx, Htx in Hkt. by injection Hkt as <-.
          -- apply elem_of_app in Hk as [Hk|Hk%list_elem_of_singleton]; [|done].
             destruct (HcovC k t' Hk Hkt) as (v' & Hv' & Hc').
             exists v'. split; [done|].
             specialize (HshC k v' Hv'). rewrite decide_True in HshC by done.
             eapply covers_frame; [|done|done]. by apply Hother.
      + (* the new value replaces the old one *)
        assert (Hdlt : d < length hc) by (by eapply lookup_lt_Some).
        eexists. split; [done|]. split; [by rewrite length_insert|]. split.
        { intros l Hl. rewrite list_lookup_insert_ne; [by apply Hfr|].
          intros ->. done. }
        assert (Hother : ∀ k l, l ∈ FdK k ∪ FsK k →
                  <[d := <[x := sv]> dobj_c]> hc !! l = hc !! l).
        { intros k l Hl. apply list_lookup_insert_ne. intros ->.
          specialize (HdK k). specialize (HsubS k). set_solver. }
        exists (<[x := sv]> dobj_c). split; [by rewrite list_lookup_insert_eq|]. split.
        * intros k v Hkv. destruct (decide (k = x)) as [->|Hne].
          -- rewrite lookup_insert_eq in Hkv. injection Hkv as <-.
             rewrite decide_True by (apply elem_of_app; right; by left).
             eapply (shaped_mono n n _ _ (FsK x)); [done|set_solver|].
             eapply shaped_frame; [|eapply shaped_frame; [|by eapply HshS]].
             ++ intros l Hl. apply (Hother x). set_solver.
             ++ intros l Hl. by eapply Hframe_s.
          -- rewrite lookup_insert_ne in Hkv by done.
             specialize (HshC k v Hkv).
             assert (Hdec : (if decide (k ∈ done ++ [x]) then FdK k ∪ FsK k else FdK k)
                     = (if decide (k ∈ done) then FdK k ∪ FsK k else FdK k)).
             { destruct (decide (k ∈ done)) as [Hin|Hnin].
               - rewrite decide_True; [done|]. apply elem_of_app. by left.
               - rewrite decide_False; [done|]. rewrite elem_of_app, list_elem_of_singleton.
                 by intros [?|?]. }
             rewrite Hdec. eapply shaped_frame; [|done].
             intros l Hl. apply (Hother k). destruct (decide (k ∈ done)); set_solver.
        * intros k t' Hk Hkt. destruct (decide (k = x)) as [->|Hne].
          -- exists sv. split; [by rewrite lookup_insert_eq|].
             rewrite Htmx, Htx in Hkt. injection Hkt as <-.
             eapply covers_frame; [|eapply shaped_frame; [|by eapply HshS]|].
             ++ intros l Hl. apply (Hother x). set_solver.
             ++ intros l Hl. by eapply Hframe_s.
             ++ eapply covers_frame; [|by eapply HshS|by apply readback_covers].
                intros l Hl. by eapply Hframe_s.
          -- apply elem_of_app in Hk as [Hk|Hk%list_elem_of_singleton]; [|done].
             destruct (HcovC k t' Hk Hkt) as (v' & Hv' & Hc').
             exists v'. split; [by rewrite lookup_insert_ne|].
             specialize (HshC k v' Hv'). rewrite decide_True in HshC by done.
             eapply covers_frame; [|done|done]. by apply Hother. }
  destruct Hloop as (h' & Hfold & Hlen & Hfr & dobj_c & Hhd' & HshC & HcovC).
  exists h'. split; [by simpl; rewrite Hhs|]. split; [done|]. split; [done|].
  split.
  - simpl. exists d, dobj_c. split; [done|]. split; [done|].
    intros k t' Hkt. apply HcovC; [|done]. simpl. apply keys_of_map.
    rewrite Htm in Hkt. destruct (sobj !! k); [by eexists|done].
  - simpl. exists dobj_c, (λ k, FdK k ∪ FsK k). split; [done|].
    split; [set_solver|]. split.
    { intros k. specialize (HdK k). specialize (HsubD k). specialize (HsubS k).
      split; [|set_solver]. intros [?|?]%elem_of_union; [done|]. set_solver. }
    split.
    { intros k1 k2 Hne. specialize (HdisjD k1 k2 Hne). specialize (HdisjS k1 k2 Hne).
      pose proof (HsubD k1). pose proof (HsubD k2). pose proof (HsubS k1).
      pose proof (HsubS k2). set_solver. }
    intros k v Hkv. eapply shaped_mono; [done| |by eapply HshC].
    destruct (decide _); set_solver.
Qed.

Lemma covers_map_value (n : nat) (h : heap) (v : value) (tm : gmap string tree) :
  covers n h v (TMap tm) → ∃ l, v = VMap l.
Proof. destruct n; [done|]. intros (l & ? & -> & _). by eexists. Qed.

Lemma covers_leaf_value (n : nat) (h : heap) (v : value) (t : tree) :
  covers n h v t → (∀ tm, t ≠ TMap tm) → v = leaf t.
Proof. intros Hc Ht. destruct n, t; try done; by destruct (Ht m). Qed.

(** Merging a mapping that the tree already covers changes nothing. *)
Lemma merge_noop (n : nat) :
  ∀ (h : heap) (d s : loc) (tm : gmap string tree),
    covers n h (VMap d) (TMap tm) →
    readback n h (VMap s) = Some (TMap tm) →
    xmap.MergeStringMap n h d s = Some h.
Proof.
  induction n as [|n IH]; intros h d s tm Hc Hrb; [done|].
  destruct Hc as (d' & dobj & [= <-] & Hhd & Hcov).
  apply readback_map_inv in Hrb as (sobj & tm' & [= <-] & Hhs & Htm & Hall).
  simpl. rewrite Hhs. simpl. apply fold_opt_const. intros x Hx.
  apply keys_of_map in Hx as [sv Hsv].
  destruct (Hall x sv Hsv) as [tx Htx].
  assert (Htmx : tm !! x = Some tx) by (by rewrite Htm, Hsv).
  destruct (Hcov x tx Htmx) as (v' & Hv' & Hc').
  destruct (merge_entry_cases (xmap.MergeStringMap n) d s h x sobj dobj sv
              Hhs Hsv Hhd) as [(tl & sl & Hdx & -> & ->)|[Hnot ->]].
  - assert (∃ tmx, tx = TMap tmx) as [tmx ->].
    { destruct n; [done|].
      apply readback_map_inv in Htx as (? & tmx & -> & _). by eexists. }
    rewrite Hdx in Hv'. injection Hv' as <-. by apply (IH h tl sl tmx).
  - assert (v' = sv) as ->.
    { assert (Hcase : (∃ tmx, tx = TMap tmx) ∨ (∀ tmx, tx ≠ TMap tmx))
        by (destruct tx; eauto).
      destruct Hcase as [[tmx ->]|Hl].
      - destruct (covers_map_value _ _ _ _ Hc') as [tl ->].
        destruct (readback_is_map _ _ _ _ Htx) as [sl ->].
        by destruct (Hnot tl sl).
      - rewrite (covers_leaf_value _ _ _ _ Hc' Hl).
        by destruct (readback_not_map _ _ _ _ Htx Hl) as [-> _]. }
    f_equal. rewrite (insert_id dobj) by done. by apply list_insert_id.
Qed.

(** Merging a mapping into itself changes nothing. *)
Lemma merge_self (n : nat) :
  ∀ (h : heap) (l : loc) (F : gset loc),
    shaped n h (VMap l) F → xmap.MergeStringMap n h l l = Some h.
Proof.
  induction n as [|n IH]; intros h l F Hs; [done|].
  destruct Hs as (obj & Fk & Hl & _ & _ & _ & Hsh).
  simpl. rewrite Hl. simpl. apply fold_opt_const. intros x Hx.
  apply keys_of_map in Hx as [sv Hsv].
  destruct (merge_entry_cases (xmap.MergeStringMap n) l l h x obj obj sv
              Hl Hsv Hl) as [(tl & sl & Hdx & -> & ->)|[Hnot ->]].
  - rewrite Hsv in Hdx. injection Hdx as <-. apply (IH h sl (Fk x)). eauto.
  - f_equal. rewrite (insert_id obj) by done. by apply list_insert_id.
Qed.

Lemma fold_opt_total {A B} (f : B → A → option B) (l : list A) (b : B) :
  (∀ b x, x ∈ l → is_Some (f b x)) → is_Some (fold_opt f l b).
Proof.
  revert b. induction l as [|x l IH]; intros b Hf; simpl; [by eexists|].
  destruct (Hf b x) as [b' ->]; [by left|]. apply IH.
  intros b0 y Hy. apply Hf. by right.
Qed.

Lemma fold_opt_transfer {A B} (f g : B → A → option B) (l : list A) (b r : B) :
  (∀ b x b', x ∈ l → f b x = Some b' → g b x = Some b') →
  fold_opt f l b = Some r → fold_opt g l b = Some r.
Proof.
  revert b. induction l as [|x l IH]; intros b Hfg; simpl; [done|].
  destruct (f b x) as [b'|] eqn:Hf; [|done].
  rewrite (Hfg b x b' ltac:(by left) Hf). apply IH.
  intros b0 y b0' Hy. apply Hfg. by right.
Qed.

(** Flattening a tree without cycles terminates within its depth. *)
Lemma lookup_terminates (n : nat) :
  ∀ (h : heap) (F : gset loc) (l : loc) (prefix sep : string)
    (data : gmap string value),
    shaped n h (VMap l) F → is_Some (lookup n h prefix l data sep).
Proof.
  induction n as [|n IH]; intros h F l prefix sep data Hs; [done|].
  destruct Hs as (obj & Fk & Hl & _ & _ & _ & Hsh).
  simpl. rewrite Hl. simpl. apply fold_opt_total.
  intros data' [k v] Hkv. apply elem_of_map_to_list in Hkv.
  unfold lookup_entry. simpl. destruct v; simpl; try by eexists.
  apply (IH h (Fk k)). eauto.
Qed.

Lemma lookup_ext (n : nat) :
  ∀ (h ext : heap) (l : loc) (prefix sep : string) (data r : gmap string value),
    lookup n h prefix l data sep = Some r →
    lookup n (h ++ ext) prefix l data sep = Some r.
Proof.
  induction n as [|n IH]; intros h ext l prefix sep data r; [done|].
  simpl. destruct (h !! l) as [obj|] eqn:Hl; [|done].
  rewrite (lookup_app_l_Some _ _ _ _ Hl). simpl.
  apply fold_opt_transfer. intros data' [k v] r' _. unfold lookup_entry. simpl.
  destruct (cast.ToStringMapE v); [apply IH|done].
Qed.

Lemma covers_ext (n : nat) (h ext : heap) (v : value) (t : tree) :
  covers n h v t → covers n (h ++ ext) v t.
Proof.
  revert v t. induction n as [|n IH]; intros v t Hc; destruct t; try done.
  destruct Hc as (l & obj & -> & Hl & Hch). exists l, obj.
  split; [done|]. split; [by apply lookup_app_l_Some|].
  intros k t' Hk. destruct (Hch k t' Hk) as (v' & ? & ?). eauto.
Qed.

Lemma covers_mono (n n' : nat) (h : heap) (v : value) (t : tree) :
  n ≤ n' → covers n h v t → covers n' h v t.
Proof.
  revert n' v t. induction n as [|n IH]; intros n' v t Hn Hc.
  - destruct t; try done; by destruct n'.
  - destruct t; try (by destruct n').
    destruct n' as [|n']; [lia|].
    destruct Hc as (l & obj & -> & Hl & Hch). exists l, obj.
    split; [done|]. split; [done|].
    intros k t' Hk. destruct (Hch k t' Hk) as (v' & ? & ?).
    exists v'. split; [done|]. apply (IH n'); [lia|done].
Qed.

Lemma readback_mono_ext (n n' : nat) (h ext : heap) (v : value) (t : tree) :
  n ≤ n' → readback n h v = Some t → readback n' (h ++ ext) v = Some t.
Proof.
  revert n' v t. induction n as [|n IH]; intros n' v t Hn Hr.
  - destruct v; try done; by destruct n'.
  - destruct v; try (by destruct n').
    destruct n' as [|n']; [lia|].
    apply readback_map_inv in Hr as (obj & tm & -> & Hl & Htm & Hall).
    apply (readback_map_intro _ _ _ obj); [by apply lookup_app_l_Some|].
    intros k. rewrite Htm. destruct (obj !! k) as [v'|] eqn:Hk; [|done].
    simpl. destruct (Hall k v' Hk) as [t' Ht']. rewrite Ht'.
    split; [|by eexists]. apply IH; [lia|done].
Qed.

Lemma tsize_map_lookup (m : gmap string tree) (k : string) (t : tree) :
  m !! k = Some t → tsize t < tsize (TMap m).
Proof.
  simpl. revert k t.
  induction m as [|i x m Hi Hfirst IH] using map_first_key_ind; intros k t Hk.
  - by rewrite lookup_empty in Hk.
  - rewrite map_fold_insert_first_key by done.
    destruct (decide (i = k)) as [->|Hne].
    + rewrite lookup_insert_eq in Hk. injection Hk as ->. lia.
    + rewrite lookup_insert_ne in Hk by done. specialize (IH _ _ Hk). lia.
Qed.

Lemma tsize_list_elem (l : list tree) (t : tree) :
  t ∈ l → tsize t < tsize (TList l).
Proof. simpl. induction 1; simpl; lia. Qed.

Lemma tdepth_map_lookup (m : gmap string tree) (k : string) (t : tree) :
  m !! k = Some t → S (tdepth t) ≤ tdepth (TMap m).
Proof.
  simpl. revert k t.
  induction m as [|i x m Hi Hfirst IH] using map_first_key_ind; intros k t Hk.
  - by rewrite lookup_empty in Hk.
  - rewrite map_fold_insert_first_key by done.
    destruct (decide (i = k)) as [->|Hne].
    + rewrite lookup_insert_eq in Hk. injection Hk as ->. lia.
    + rewrite lookup_insert_ne in Hk by done. specialize (IH _ _ Hk). lia.
Qed.

Lemma tree_ind' (P : tree → Prop) :
  P TNil → (∀ b, P (TBool b)) → (∀ z, P (TInt z)) → (∀ f, P (TFloat f)) →
  (∀ s, P (TStr s)) →
  (∀ l, Forall P l → P (TList l)) →
  (∀ m, map_Forall (λ _, P) m → P (TMap m)) →
  ∀ t, P t.
Proof.
  intros Hn Hb Hi Hf Hs Hl Hm t.
  remember (tsize t) as n eqn:Hsize. revert t Hsize.
  induction n as [n IH] using lt_wf_ind. intros t ->.
  destruct t; auto.
  - apply Hl, Forall_forall. intros x Hx.
    eapply IH; [|done]. by apply tsize_list_elem.
  - apply Hm. intros k x Hx. eapply IH; [|done]. by eapply tsize_map_lookup.
Qed.

Lemma list_eqb_refl (l : list tree) (eqb : tree → tree → bool) :
  Forall (λ t, eqb t t = true) l →
  (fix go (l1 l2 : list tree) : bool :=
     match l1, l2 with
     | [], [] => true
     | x :: l1, y :: l2 => eqb x y && go l1 l2
     | _, _ => false
     end) l l = true.
Proof. induction 1 as [|x l Hx _ IH]; [done|]. by rewrite Hx, IH. Qed.

Lemma map_fold_andb_true (g : tree → tree → bool) (m2 m : gmap string tree) :
  (∀ k v, m !! k = Some v → ∃ w, m2 !! k = Some w ∧ g v w = true) →
  map_fold (λ (k : string) (v : tree) (acc : bool),
              acc && match m2 !! k with
                     | Some w => g v w
                     | None => false
                     end) true m = true.
Proof.
  apply (map_fold_weak_ind (λ (r : bool) (m : gmap string tree),
    (∀ k v, m !! k = Some v → ∃ w, m2 !! k = Some w ∧ g v w = true) →
    r = true)).
  - done.
  - intros k v m' r Hfresh IHr Hall. rewrite IHr.
    + destruct (Hall k v) as (w & -> & ->); [by rewrite lookup_insert_eq|done].
    + intros k' v' Hk'. apply Hall. rewrite lookup_insert_ne; [done|].
      intros ->. congruence.
Qed.

Lemma nan_free_map_lookup (m : gmap string tree) (k : string) (t : tree) :
  nan_free (TMap m) = true → m !! k = Some t → nan_free t = true.
Proof.
  simpl. revert k t.
  induction m as [|i x m Hi Hfirst IH] using map_first_key_ind; intros k t.
  - by rewrite lookup_empty.
  - rewrite map_fold_insert_first_key by done.
    intros [Hx Hm]%andb_true_iff. destruct (decide (i = k)) as [->|Hne].
    + rewrite lookup_insert_eq. by intros [= <-].
    + rewrite lookup_insert_ne by done. by apply IH.
Qed.

(** Deep equality is reflexive on data that holds no NaN. *)
Lemma tree_eqb_refl (t : tree) : nan_free t = true → tree_eqb t t = true.
Proof.
  induction t as [|b|z|f|s|l IH|m IH] using tree_ind'; simpl;
    try (by intros _; apply bool_decide_eq_true).
  - done.
  - unfold PrimFloat.is_nan. by rewrite negb_involutive.
  - intros Hl. apply list_eqb_refl.
    apply Forall_forall. intros x Hx.
    rewrite Forall_forall in IH. apply (IH x Hx).
    rewrite forallb_forall in Hl. by apply Hl, list_elem_of_In.
  - intros Hm. rewrite bool_decide_true by done. simpl.
    apply (map_fold_andb_true tree_eqb). intros k v Hk. exists v.
    split; [done|]. apply (IH k v Hk). by eapply nan_free_map_lookup.
Qed.

Lemma DeepEqual_refl (fuel : nat) (h : heap) (v : value) :
  value_nan_free v = true → DeepEqual fuel h v v = true.
Proof.
  destruct v; unfold DeepEqual; intros Hv.
  - exact (tree_eqb_refl TNil Hv).
  - exact (tree_eqb_refl (TBool b) Hv).
  - exact (tree_eqb_refl (TInt z) Hv).
  - exact (tree_eqb_refl (TFloat f) Hv).
  - exact (tree_eqb_refl (TStr s) Hv).
  - exact (tree_eqb_refl (TList l) Hv).
  - by rewrite decide_True.
Qed.

Lemma elem_of_fresh_locs (h h' : heap) (l : loc) :
  l ∈ fresh_locs h h' ↔ length h ≤ l < length h' .
Proof. unfold fresh_locs. rewrite elem_of_set_seq. lia. Qed.

Lemma alloc_TMap (m : gmap string tree) (h : heap) :
  alloc (TMap m) h =
  let r := map_fold (λ k t' (acc : gmap string value * heap),
                       let r' := alloc t' acc.2 in
                       (<[k := r'.1]> acc.1, r'.2)) (∅, h) m in
  (VMap (length r.2), r.2 ++ [r.1]).
Proof. reflexivity. Qed.

Lemma alloc_spec (t : tree) :
  ∀ h : heap,
    ∃ ext, (alloc t h).2 = h ++ ext ∧
      readback (tdepth t) (alloc t h).2 (alloc t h).1 = Some t ∧
      shaped (tdepth t) (alloc t h).2 (alloc t h).1 (fresh_locs h (alloc t h).2).
Proof.
  induction t as [|b|z|f|s|l _|m IH] using tree_ind'; intros h;
    try (exists []; simpl; by rewrite app_nil_r).
  rewrite alloc_TMap. cbv zeta.
  set (step := λ (k : string) (t' : tree) (acc : gmap string value * heap),
                 let r' := alloc t' acc.2 in (<[k := r'.1]> acc.1, r'.2)).
  set (Good := λ (r : gmap string value * heap) (m' : gmap string tree),
    ∃ ext, r.2 = h ++ ext ∧
      (∀ k, m' !! k = None → r.1 !! k = None) ∧
      ∃ Fk : string → gset loc,
        (∀ k l, l ∈ Fk k → length h ≤ l < length r.2) ∧
        (∀ k1 k2, k1 ≠ k2 → Fk k1 ## Fk k2) ∧
        (∀ k t, m' !! k = Some t →
           ∃ v, r.1 !! k = Some v ∧
             readback (tdepth t) r.2 v = Some t ∧
             shaped (tdepth t) r.2 v (Fk k))).
  assert (Hfold : Good (map_fold step (∅, h) m) m).
  { revert IH.
    apply (map_fold_weak_ind (λ r m',
      map_Forall (λ _ t, ∀ h : heap,
        ∃ ext, (alloc t h).2 = h ++ ext ∧
          readback (tdepth t) (alloc t h).2 (alloc t h).1 = Some t ∧
          shaped (tdepth t) (alloc t h).2 (alloc t h).1
                 (fresh_locs h (alloc t h).2)) m' → Good r m')).
    - intros _. exists []. simpl. split; [by rewrite app_nil_r|].
      split; [done|]. exists (λ _, ∅). split; [set_solver|].
      split; [set_solver|]. intros k t Hk. by rewrite lookup_empty in Hk.
    - intros i x m' r Hfresh IHr Hall.
      destruct IHr as (ext & Hext & Hnone & Fk & Hbound & Hdisj & Hch).
      { intros k t' Hk. apply (Hall k). rewrite lookup_insert_ne; [done|].
        intros ->. congruence. }
      destruct (Hall i x (lookup_insert_eq _ _ _) r.2) as (ext2 & Hext2 & Hrb & Hsh).
      unfold Good, step. cbv zeta. simpl.
      exists (ext ++ ext2). split; [by rewrite Hext2, Hext, app_assoc|].
      split.
      { intros k Hk. apply lookup_insert_None in Hk as [Hk Hne].
        rewrite lookup_insert_ne by done. by apply Hnone. }
      assert (Hlen : length (alloc x r.2).2 = length r.2 + length ext2).
      { by rewrite Hext2, length_app. }
      assert (Hlenr : length h ≤ length r.2).
      { rewrite Hext, length_app. lia. }
      exists (λ k, if decide (k = i) then fresh_locs r.2 (alloc x r.2).2 else Fk k).
      split.
      { intros k l. case_decide.
        - rewrite elem_of_fresh_locs. lia.
        - intros Hl. specialize (Hbound k l Hl). lia. }
      split.
      { intros k1 k2 Hne. repeat case_decide; subst; try done.
        - intros l Hl1 Hl2. apply elem_of_fresh_locs in Hl1.
          specialize (Hbound k2 l Hl2). lia.
        - intros l Hl1 Hl2. apply elem_of_fresh_locs in Hl2.
          specialize (Hbound k1 l Hl1). lia.
        - by apply Hdisj. }
      intros k t Hk. destruct (decide (k = i)) as [->|Hne].
      + rewrite lookup_insert_eq in Hk. injection Hk as <-.
        exists (alloc x r.2).1. by rewrite lookup_insert_eq.
      + rewrite lookup_insert_ne in Hk by done.
        destruct (Hch k t Hk) as (v & Hv & Hrbv & Hshv).
        exists v. rewrite lookup_insert_ne by done. split; [done|].
        rewrite Hext2. split.
        * by apply (readback_mono_ext (tdepth t)).
        * by apply shaped_ext. }
  destruct Hfold as (ext & Hext & Hnone & Fk & Hbound & Hdisj & Hch).
  set (r := map_fold step (∅, h) m) in *.
  exists (ext ++ [r.1]). simpl. split; [by rewrite Hext, app_assoc|].
  assert (Hobj : (r.2 ++ [r.1]) !! length r.2 = Some r.1) by apply list_lookup_middle, eq_refl.
  assert (Hlenr : length h ≤ length r.2) by (rewrite Hext, length_app; lia).
  assert (Hdep : ∀ k t, m !! k = Some t →
            tdepth t ≤ map_fold (λ _ t' n, tdepth t' `max` n) 0 m).
  { intros k t Hk. apply tdepth_map_lookup in Hk. simpl in Hk. lia. }
  split.
  - apply (readback_map_intro _ _ _ r.1); [done|]. intros k.
    destruct (m !! k) as [t|] eqn:Hk.
    + destruct (Hch k t Hk) as (v & -> & Hrbv & _). split; [|by eexists].
      apply (readback_mono_ext (tdepth t)); [by eapply Hdep|done].
    + by rewrite (Hnone k Hk).
  - exists r.1, Fk. split; [done|]. split.
    { apply elem_of_fresh_locs. rewrite length_app. simpl. lia. }
    split.
    { intros k. split.
      - intros Hl. specialize (Hbound k _ Hl). lia.
      - intros l Hl. specialize (Hbound k l Hl). apply elem_of_fresh_locs.
        rewrite length_app. simpl. lia. }
    split; [done|]. intros k v Hv.
    destruct (m !! k) as [t|] eqn:Hk.
    + destruct (Hch k t Hk) as (v' & Hv' & _ & Hshv). rewrite Hv in Hv'.
      injection Hv' as <-. apply shaped_ext.
      eapply shaped_mono; [by eapply Hdep|reflexivity|done].
    + rewrite (Hnone k Hk) in Hv. done.
Qed.

Lemma alloc_map_alloc (m : gmap string tree) (h : heap) :
  alloc (TMap m) h = (VMap (alloc_map m h).1, (alloc_map m h).2).
Proof. reflexivity. Qed.

Lemma readback_mono (n n' : nat) (h : heap) (v : value) (t : tree) :
  n ≤ n' → readback n h v = Some t → readback n' h v = Some t.
Proof.
  intros Hn Hr. rewrite <- (app_nil_r h). by apply (readback_mono_ext n).
Qed.

(** What [Load] does with a decoded mapping when the tree is well formed. *)
Lemma Load_decoded (fuel : nat) (h : heap) (c : Configuration)
    (content : list byte) (unmarshal : Unmarshaller) (m : gmap string tree) :
  tree_shaped fuel h (override c) →
  tdepth (TMap m) ≤ fuel →
  unmarshal content = inr m →
  ∃ h1 data,
    length (alloc_map m h).2 = length h1 ∧
    xmap.MergeStringMap fuel (alloc_map m h).2 (override c) (alloc_map m h).1
      = Some h1 ∧
    traverse fuel h1 c (keyDelim c) = Some data ∧
    tree_shaped fuel h1 (override c) ∧
    covers fuel h1 (VMap (override c)) (TMap m) ∧
    Load fuel h c content unmarshal
      = Some (mkOutcome h1
                (set_keyMap (diff fuel h1 (keyMap c) data).2
                            (set_rawConfig content c))
                (diff fuel h1 (keyMap c) data).1
                (if bool_decide (0 < size (diff fuel h1 (keyMap c) data).1)
                 then notifyChanges (set_rawConfig content c)
                        (diff fuel h1 (keyMap c) data).1
                 else [])
                None).
Proof.
  intros (F & Hsh & HF) Hdepth Hdec.
  destruct (alloc_spec (TMap m) h) as (ext & Hext & Hrb & Hshs).
  rewrite alloc_map_alloc in Hext, Hrb, Hshs. cbn [fst snd] in Hext, Hrb, Hshs.
  set (s := (alloc_map m h).1) in *. set (h0 := (alloc_map m h).2) in *.
  destruct (merge_first fuel h0 (override c) s F (fresh_locs h h0) m)
    as (h1 & Hmerge & Hlen & Hfr & Hcov & Hsh1).
  - rewrite Hext. by apply shaped_ext.
  - eapply shaped_mono; [exact Hdepth|reflexivity|exact Hshs].
  - intros l Hl1 Hl2. apply elem_of_fresh_locs in Hl2. specialize (HF l Hl1). lia.
  - by apply (readback_mono (tdepth (TMap m))).
  - destruct (lookup_terminates fuel h1 _ (override c) "" (keyDelim c) ∅ Hsh1)
      as [data Hdata].
    exists h1, data. split; [done|]. split; [done|]. split; [done|]. split.
    { exists (F ∪ fresh_locs h h0). split; [done|].
      intros l [Hl|Hl]%elem_of_union.
      - specialize (HF l Hl). rewrite Hlen, Hext, length_app. lia.
      - apply elem_of_fresh_locs in Hl. lia. }
    split; [done|].
    unfold Load. rewrite Hdec. unfold apply. fold s h0. simpl.
    rewrite Hmerge. simpl. unfold traverse in Hdata |- *. simpl.
    by rewrite Hdata.
Qed.

(** ** The order of the traversal *)

Lemma fair_elem_of (ord : order) (l : loc) (obj : gmap string value)
    (k : string) (v : value) :
  fair ord → ((k, v) ∈ ord l obj ↔ obj !! k = Some v).
Proof. intros Hf. by rewrite (Hf l obj), elem_of_map_to_list. Qed.

Lemma leaf_at_here (h : heap) (l : loc) (obj : gmap string value)
    (k : string) (v : value) :
  h !! l = Some obj → obj !! k = Some v → cast.ToStringMapE v = None →
  leaf_at h l [] k v.
Proof. intros Hl Hk Hv. by exists l, obj. Qed.

Lemma leaf_at_below (h : heap) (l dd : loc) (obj : gmap string value)
    (k0 : string) (ps : list string) (k : string) (v : value) :
  h !! l = Some obj → obj !! k0 = Some (VMap dd) →
  leaf_at h dd ps k v → leaf_at h l (k0 :: ps) k v.
Proof.
  intros Hl Hk0 (m & mobj & Hwalk & Hm & Hk & Hv). exists m, mobj.
  split; [|done]. simpl. rewrite Hl. simpl. by rewrite Hk0.
Qed.

(** A key that names no leaf below is left alone. *)
Lemma lookup_in_frame (ord : order) (sep key : string) (n : nat) :
  fair ord →
  ∀ (h : heap) (prefix : string) (l : loc) (data r : gmap string value),
    lookup_in ord n h prefix l data sep = Some r →
    (∀ ps k v, leaf_at h l ps k v →
       foldl (λ prefix k, if decide (prefix = "") then k
                          else prefix +:+ sep +:+ k) prefix (ps ++ [k])
       ≠ key) →
    r !! key = data !! key.
Proof.
  intros Hfair. induction n as [|n IH]; intros h prefix l data r; [done|].
  simpl. destruct (h !! l) as [obj|] eqn:Hl; [|done]. simpl.
  intros Hfold Hkey. revert Hfold.
  apply (fold_opt_preserve (λ d : gmap string value, d !! key = data !! key));
    [|done].
  intros d [k' v'] d' Hin. apply (fair_elem_of ord) in Hin; [|done].
  unfold lookup_entry. simpl.
  destruct (cast.ToStringMapE v') as [dd|] eqn:Hv'.
  - intros Hrec <-. eapply IH; [exact Hrec|].
    intros ps k v Hleaf. apply (Hkey (k' :: ps) k v).
    destruct v'; try done. injection Hv' as ->.
    by eapply leaf_at_below.
  - intros [= <-] <-. apply lookup_insert_ne.
    apply (Hkey [] k' v'). by eapply leaf_at_here.
Qed.

(** Whatever the flattening holds was there before or is a leaf, under
    its name. *)
Lemma lookup_in_sound (ord : order) (sep : string) (n : nat) :
  fair ord →
  ∀ (h : heap) (prefix : string) (l : loc) (data r : gmap string value),
    lookup_in ord n h prefix l data sep = Some r →
    ∀ key v, r !! key = Some v →
      data !! key = Some v ∨
      ∃ ps k, leaf_at h l ps k v ∧
        foldl (λ prefix k, if decide (prefix = "") then k
                           else prefix +:+ sep +:+ k) prefix (ps ++ [k])
        = key.
Proof.
  intros Hfair. induction n as [|n IH]; intros h prefix l data r; [done|].
  simpl. destruct (h !! l) as [obj|] eqn:Hl; [|done]. simpl.
  apply (fold_opt_preserve
    (λ d : gmap string value, ∀ key v, d !! key = Some v →
       data !! key = Some v ∨
       ∃ ps k, leaf_at h l ps k v ∧
         foldl (λ prefix k, if decide (prefix = "") then k
                            else prefix +:+ sep +:+ k) prefix (ps ++ [k])
         = key)); [|by left].
  intros d [k' v'] d' Hin. apply (fair_elem_of ord) in Hin; [|done].
  unfold lookup_entry. simpl.
  destruct (cast.ToStringMapE v') as [dd|] eqn:Hv'.
  - intros Hrec Hd key v Hkey.
    destruct (IH _ _ _ _ _ Hrec key v Hkey) as [Hdk|(ps & k & Hleaf & Hname)].
    + by apply Hd.
    + right. exists (k' :: ps), k. split; [|done].
      destruct v'; try done. injection Hv' as ->. by eapply leaf_at_below.
  - intros [= <-] Hd key v.
    destruct (decide
      ((if decide (prefix = "") then k' else prefix +:+ sep +:+ k') = key))
      as [<-|Hne].
    + rewrite lookup_insert_eq. intros [= <-]. right. exists [], k'.
      split; [by eapply leaf_at_here|done].
    + rewrite lookup_insert_ne by done. apply Hd.
Qed.

(** A leaf keeps its name to itself when no other leaf has the name: the
    flattening, in whatever order, holds the leaf's value under it. *)
Lemma lookup_in_leaf (ord : order) (sep : string) (k : string) (v : value)
    (ps : list string) :
  fair ord →
  ∀ (n : nat) (h : heap) (prefix : string) (l : loc)
    (data r : gmap string value),
    lookup_in ord n h prefix l data sep = Some r →
    (∀ ps1 k1 v1 ps2 k2 v2,
       leaf_at h l ps1 k1 v1 → leaf_at h l ps2 k2 v2 →
       foldl (λ prefix k, if decide (prefix = "") then k
                          else prefix +:+ sep +:+ k) prefix (ps1 ++ [k1])
       = foldl (λ prefix k, if decide (prefix = "") then k
                            else prefix +:+ sep +:+ k) prefix (ps2 ++ [k2]) →
       ps1 = ps2 ∧ k1 = k2) →
    leaf_at h l ps k v →
    r !! foldl (λ prefix k, if decide (prefix = "") then k
                            else prefix +:+ sep +:+ k) prefix (ps ++ [k])
    = Some v.
Proof.
  intros Hfair. induction ps as [|k0 ps IH];
    intros n h prefix l data r Hlookup Hcf Hleaf;
    (destruct n as [|n]; [done|]); simpl in Hlookup;
    destruct (h !! l) as [obj|] eqn:Hl; try done; simpl in Hlookup.
  - assert (Hk : obj !! k = Some v ∧ cast.ToStringMapE v = None).
    { destruct Hleaf as (m & mobj & [= <-] & Hm & Hk & Hv).
      rewrite Hl in Hm. by injection Hm as <-. }
    destruct Hk as [Hk Hv]. revert Hlookup. cbn [app foldl].
    apply (fold_opt_elem
             (λ d : gmap string value,
                d !! (if decide (prefix = "") then k
                      else prefix +:+ sep +:+ k) = Some v)
             _ _ (k, v)).
    + by apply (fair_elem_of ord).
    + intros b b'. unfold lookup_entry. simpl. rewrite Hv.
      intros [= <-]. by rewrite lookup_insert_eq.
    + intros b [k' v'] b' Hin Hstep Hb.
      apply (fair_elem_of ord) in Hin; [|done].
      destruct (decide (k' = k)) as [->|Hne].
      { assert (v' = v) as -> by congruence. revert Hstep.
        unfold lookup_entry. simpl. rewrite Hv.
        intros [= <-]. by rewrite lookup_insert_eq. }
      revert Hstep. unfold lookup_entry. simpl.
      destruct (cast.ToStringMapE v') as [dd|] eqn:Hv'.
      * intros Hrec. rewrite <- Hb.
        eapply (lookup_in_frame ord sep _ n Hfair); [exact Hrec|].
        intros ps2 k2 v2 Hleaf2 Heq.
        destruct v'; try done. injection Hv' as ->.
        destruct (Hcf (k' :: ps2) k2 v2 [] k v) as [? _]; try done.
        by eapply leaf_at_below.
      * intros [= <-]. rewrite lookup_insert_ne; [done|]. intros Heq.
        destruct (Hcf [] k' v' [] k v) as [_ ?]; try done.
        by eapply leaf_at_here.
  - assert (Hk0 : ∃ m3, obj !! k0 = Some (VMap m3) ∧ leaf_at h m3 ps k v).
    { destruct Hleaf as (m & mobj & Hwalk & Hm & Hk & Hv). simpl in Hwalk.
      rewrite Hl in Hwalk. simpl in Hwalk.
      destruct (obj !! k0) as [[| | | | | |m3]|]; try done.
      exists m3. split; [done|]. by exists m, mobj. }
    destruct Hk0 as (m3 & Hk0 & Hleaf3). revert Hlookup. cbn [app foldl].
    match goal with |- _ → _ !! ?key = _ =>
      apply (fold_opt_elem (λ d : gmap string value, d !! key = Some v)
               _ _ (k0, VMap m3)) end.
    + by apply (fair_elem_of ord).
    + intros b b'. unfold lookup_entry. simpl. intros Hrec.
      eapply (IH n h _ m3 b b' Hrec); [|done].
      intros ps1 k1 v1 ps2 k2 v2 H1 H2 Heq.
      destruct (Hcf (k0 :: ps1) k1 v1 (k0 :: ps2) k2 v2) as [[= ->] ->];
        try done; by eapply leaf_at_below.
    + intros b [k' v'] b' Hin Hstep Hb.
      apply (fair_elem_of ord) in Hin; [|done].
      destruct (decide (k' = k0)) as [->|Hne].
      { assert (v' = VMap m3) as -> by congruence. revert Hstep.
        unfold lookup_entry. simpl. intros Hrec.
        eapply (IH n h _ m3 b b' Hrec); [|done].
        intros ps1 k1 v1 ps2 k2 v2 H1 H2 Heq.
        destruct (Hcf (k0 :: ps1) k1 v1 (k0 :: ps2) k2 v2) as [[= ->] ->];
          try done; by eapply leaf_at_below. }
      revert Hstep. unfold lookup_entry. simpl.
      destruct (cast.ToStringMapE v') as [dd|] eqn:Hv'.
      * intros Hrec. rewrite <- Hb.
        eapply (lookup_in_frame ord sep _ n Hfair); [exact Hrec|].
        intros ps2 k2 v2 Hleaf2 Heq.
        destruct v'; try done. injection Hv' as ->.
        destruct (Hcf (k' :: ps2) k2 v2 (k0 :: ps) k v) as [[= ? ?] _];
          try done; by eapply leaf_at_below.
      * intros [= <-]. rewrite lookup_insert_ne; [done|]. intros Heq.
        destruct (Hcf [] k' v' (k0 :: ps) k v) as [? _]; try done;
          first [by eapply leaf_at_here|by eapply leaf_at_below].
Qed.

Lemma fold_opt_steps {A B} (f : B → A → option B) (l : list A) (x : A) :
  x ∈ l → ∀ b r, fold_opt f l b = Some r → ∃ b0 b1, f b0 x = Some b1.
Proof.
  induction l as [|y l IH]; intros Hx b r; [by apply elem_of_nil in Hx|].
  simpl. destruct (f b y) as [b1|] eqn:Hfy; [|done]. intros Hfold.
  apply elem_of_cons in Hx as [->|Hx]; [by eauto|by eapply IH].
Qed.

(** Whether the flattening returns depends on the depth of the tree alone,
    not on the order. *)
Lemma lookup_in_within_depth (ord : order) (sep : string) (n : nat) :
  fair ord →
  ∀ (h : heap) (prefix : string) (l : loc) (data r : gmap string value),
    lookup_in ord n h prefix l data sep = Some r → within_depth n h l.
Proof.
  intros Hfair. induction n as [|n IH]; intros h prefix l data r; [done|].
  simpl. destruct (h !! l) as [obj|] eqn:Hl; [|done]. simpl. intros Hfold.
  exists obj. split; [done|]. intros k dd Hk.
  destruct (fold_opt_steps _ _ (k, VMap dd)
              (proj2 (fair_elem_of ord l obj k (VMap dd) Hfair) Hk) _ _ Hfold)
    as (b0 & b1 & Hstep).
  unfold lookup_entry in Hstep. simpl in Hstep. by eapply IH.
Qed.

Lemma within_depth_lookup_in (ord : order) (sep : string) (n : nat) :
  fair ord →
  ∀ (h : heap) (prefix : string) (l : loc) (data : gmap string value),
    within_depth n h l → is_Some (lookup_in ord n h prefix l data sep).
Proof.
  intros Hfair. induction n as [|n IH]; intros h prefix l data; [done|].
  intros (obj & Hl & Hdeep). simpl. rewrite Hl. simpl.
  apply fold_opt_total. intros b [k v] Hin.
  apply (fair_elem_of ord) in Hin; [|done].
  unfold lookup_entry. simpl. destruct v; simpl; try done.
  apply IH. by eapply Hdeep.
Qed.

Lemma fold_opt_ext {A B} (f g : B → A → option B) (l : list A) (b : B) :
  (∀ b x, f b x = g b x) → fold_opt f l b = fold_opt g l b.
Proof.
  intros Hfg. revert b. induction l as [|x l IH]; intros b; simpl; [done|].
  rewrite Hfg. destruct (g b x); [apply IH|done].
Qed.

Lemma lookup_in_map_to_list (sep : string) (n : nat) :
  ∀ (h : heap) (prefix : string) (l : loc) (data : gmap string value),
    lookup_in (λ _ obj, map_to_list obj) n h prefix l data sep
    = lookup n h prefix l data sep.
Proof.
  induction n as [|n IH]; intros h prefix l data; [done|].
  simpl. destruct (h !! l) as [obj|]; [|done]. simpl.
  apply fold_opt_ext. intros b [k v]. unfold lookup_entry. simpl.
  destruct (cast.ToStringMapE v); [apply IH|done].
Qed.

(** When no two leaves flatten to the same dotted key, two traversals give
    the same flattening, whatever the orders in which they range over the
    maps. *)
Lemma lookup_in_order_irrelevant (ord ord' : order) (n n' : nat) (h : heap)
    (l : loc) (sep : string) (r r' : gmap string value) :
  fair ord → fair ord' →
  collision_free h l sep →
  lookup_in ord n h "" l ∅ sep = Some r →
  lookup_in ord' n' h "" l ∅ sep = Some r' →
  r = r'.
Proof.
  intros Hfair Hfair' Hcf Hr Hr'.
  assert (Hle : ∀ o m (x y : gmap string value),
            fair o → lookup_in o m h "" l ∅ sep = Some x →
            ∀ o' m', fair o' → lookup_in o' m' h "" l ∅ sep = Some y →
            ∀ key v, x !! key = Some v → y !! key = Some v).
  { intros o m x y Ho Hx o' m' Ho' Hy key v Hkey.
    destruct (lookup_in_sound o sep m Ho _ _ _ _ _ Hx key v Hkey)
      as [Hempty|(ps & k & Hleaf & <-)]; [by rewrite lookup_empty in Hempty|].
    by apply (lookup_in_leaf o' sep k v ps Ho' m' h "" l ∅ y Hy Hcf). }
  apply map_eq. intros key.
  destruct (r !! key) as [v|] eqn:Hk.
  - symmetry. by eapply (Hle ord n r r').
  - destruct (r' !! key) as [v'|] eqn:Hk'; [|done].
    rewrite (Hle ord' n' r' r Hfair' Hr' ord n Hfair Hr key v' Hk') in Hk.
    done.
Qed.

(** So the flattening that [traverse] gives is the one that every order
    gives. *)
Lemma traverse_any_order (ord : order) (fuel : nat) (h : heap)
    (c : Configuration) (sep : string) (data : gmap string value) :
  fair ord →
  collision_free h (override c) sep →
  traverse fuel h c sep = Some data →
  lookup_in ord fuel h "" (override c) ∅ sep = Some data.
Proof.
  intros Hfair Hcf Hdata. unfold traverse in Hdata.
  rewrite <- lookup_in_map_to_list in Hdata.
  assert (Hfair0 : fair (λ _ obj, map_to_list obj)) by (by intros ? ?).
  pose proof (lookup_in_within_depth _ sep fuel Hfair0 _ _ _ _ _ Hdata) as Hd.
  destruct (within_depth_lookup_in ord sep fuel Hfair h "" (override c) ∅ Hd)
    as [r Hr].
  rewrite Hr. f_equal.
  by eapply (lookup_in_order_irrelevant ord (λ _ obj, map_to_list obj)).
Qed.

(** Map objects allocated later do not change the tree. *)
Lemma walk_ext_shaped (ext : heap) (ps : list string) :
  ∀ (n : nat) (h : heap) (l : loc) (F : gset loc) (m : loc),
    shaped n h (VMap l) F → (∀ l', l' ∈ F → l' < length h) →
    walk (h ++ ext) l ps = Some m →
    walk h l ps = Some m ∧ m < length h.
Proof.
  induction ps as [|k0 ps IH]; intros n h l F m Hsh HF;
    (destruct n as [|n]; [done|]);
    destruct Hsh as (obj & Fk & Hl & HlF & HFk & _ & Hch); simpl.
  - intros [= <-]. split; [done|]. by apply HF.
  - rewrite (lookup_app_l_Some _ _ _ _ Hl), Hl. simpl.
    destruct (obj !! k0) as [[| | | | | |m3]|] eqn:Hk0; try done.
    apply (IH n h m3 (Fk k0)); [by eapply Hch|].
    intros l' Hl'. apply HF. by apply (HFk k0).
Qed.

Lemma collision_free_ext (n : nat) (h ext : heap) (l : loc) (sep : string) :
  tree_shaped n h l → collision_free h l sep → collision_free (h ++ ext) l sep.
Proof.
  intros (F & Hsh & HF) Hcf.
  assert (Hleaf : ∀ ps k v, leaf_at (h ++ ext) l ps k v → leaf_at h l ps k v).
  { intros ps k v (m & mobj & Hwalk & Hm & Hk & Hv).
    destruct (walk_ext_shaped ext ps n h l F m Hsh HF Hwalk) as [Hwalk' Hlt].
    exists m, mobj. split; [done|]. split; [|done].
    by rewrite lookup_app_l in Hm. }
  intros ps k v ps' k' v' H1 H2. apply (Hcf ps k v ps' k' v'); by apply Hleaf.
Qed.

(** ** NaN *)

Lemma alloc_nan_free (t : tree) :
  ∀ h : heap,
    nan_free t = true → heap_nan_free h →
    heap_nan_free (alloc t h).2 ∧ value_nan_free (alloc t h).1 = true.
Proof.
  induction t as [|b|z|f|s|l _|m IH] using tree_ind'; intros h Ht Hh;
    try by split.
  rewrite alloc_TMap. cbv zeta.
  set (step := λ (k : string) (t' : tree) (acc : gmap string value * heap),
                 let r' := alloc t' acc.2 in (<[k := r'.1]> acc.1, r'.2)).
  assert (Hfold : heap_nan_free (map_fold step (∅, h) m).2 ∧
            ∀ k v, (map_fold step (∅, h) m).1 !! k = Some v →
                   value_nan_free v = true).
  { assert (Hall : ∀ k t, m !! k = Some t → nan_free t = true)
      by (intros k t; by apply nan_free_map_lookup).
    revert IH Hall.
    apply (map_fold_weak_ind (λ (r : gmap string value * heap) m',
      map_Forall (λ _ t, ∀ h : heap, nan_free t = true → heap_nan_free h →
        heap_nan_free (alloc t h).2 ∧ value_nan_free (alloc t h).1 = true) m' →
      (∀ k t, m' !! k = Some t → nan_free t = true) →
      heap_nan_free r.2 ∧ ∀ k v, r.1 !! k = Some v → value_nan_free v = true)).
    - intros _ _. split; [done|]. intros k v. simpl. by rewrite lookup_empty.
    - intros i x m' r Hfresh IHr IH Hall.
      destruct IHr as [Hr2 Hr1].
      { intros k t' Hk. apply (IH k). rewrite lookup_insert_ne; [done|].
        intros ->. congruence. }
      { intros k t' Hk. apply (Hall k). rewrite lookup_insert_ne; [done|].
        intros ->. congruence. }
      destruct (IH i x (lookup_insert_eq _ _ _) r.2) as [Hx2 Hx1];
        [by apply (Hall i), lookup_insert_eq|done|].
      unfold step. cbv zeta. simpl. split; [done|].
      intros k v. destruct (decide (i = k)) as [->|Hne].
      + rewrite lookup_insert_eq. by intros [= <-].
      + rewrite lookup_insert_ne by done. apply Hr1. }
  destruct Hfold as [Hr2 Hr1]. simpl. split; [|done].
  intros l obj k v Hl Hk. apply lookup_app_Some in Hl as [Hl|[_ Hl]].
  - by eapply Hr2.
  - apply list_lookup_singleton_Some in Hl as [_ <-]. by eapply Hr1.
Qed.

Lemma merge_nan_free (n : nat) :
  ∀ (h : heap) (d s : loc) (h' : heap),
    xmap.MergeStringMap n h d s = Some h' →
    heap_nan_free h → heap_nan_free h'.
Proof.
  induction n as [|n IH]; intros h d s h'; [done|].
  simpl. destruct (h !! s) as [sobj|]; [|done]. simpl. intros Hfold Hh.
  revert Hh Hfold. apply (fold_opt_preserve heap_nan_free).
  intros hc sk hc' _. unfold xmap.merge_entry.
  destruct (hc !! s) as [sobj'|] eqn:Hs; simpl; [|by intros [= <-]].
  destruct (sobj' !! sk) as [sv|] eqn:Hsk; [|by intros [= <-]].
  destruct (hc !! d) as [dobj|] eqn:Hd; [|done]. simpl.
  intros Hstep Hhc.
  assert (Hins : heap_nan_free (<[d := <[sk := sv]> dobj]> hc)).
  { intros l obj k v Hl Hk. destruct (decide (l = d)) as [->|Hne].
    - rewrite list_lookup_insert_eq in Hl by (by eapply lookup_lt_Some).
      injection Hl as <-. destruct (decide (k = sk)) as [->|Hnek].
      + rewrite lookup_insert_eq in Hk. injection Hk as <-.
        by apply (Hhc s sobj' sk).
      + rewrite lookup_insert_ne in Hk by done. by apply (Hhc d dobj k).
    - rewrite list_lookup_insert_ne in Hl by done. by apply (Hhc l obj k). }
  destruct (dobj !! sk) as [[]|]; destruct sv;
    first [ by injection Hstep as <- | by eapply IH ].
Qed.

Lemma lookup_nan_free (n : nat) :
  ∀ (h : heap) (prefix : string) (l : loc) (sep : string)
    (data r : gmap string value),
    lookup n h prefix l data sep = Some r →
    heap_nan_free h →
    (∀ k v, data !! k = Some v → value_nan_free v = true) →
    ∀ k v, r !! k = Some v → value_nan_free v = true.
Proof.
  induction n as [|n IH]; intros h prefix l sep data r; [done|].
  simpl. destruct (h !! l) as [obj|] eqn:Hl; [|done]. simpl.
  intros Hfold Hh Hdata. revert Hdata Hfold.
  apply (fold_opt_preserve
           (λ d : gmap string value,
              ∀ k v, d !! k = Some v → value_nan_free v = true)).
  intros d [k' v'] d' Hin. apply elem_of_map_to_list in Hin.
  unfold lookup_entry. simpl.
  destruct (cast.ToStringMapE v') as [dd|].
  - intros Hrec Hd. by eapply IH.
  - intros [= <-] Hd k v. destruct (decide
      ((if decide (prefix = "") then k' else prefix +:+ sep +:+ k') = k))
      as [<-|Hne].
    + rewrite lookup_insert_eq. intros [= <-]. by apply (Hh l obj k').
    + rewrite lookup_insert_ne by done. apply Hd.
Qed.

(** C7, as far as it holds: loading a mapping and then loading the same
    mapping again leaves the second merge without any change, its ChangeSet
    empty and no handler started, when neither the tree nor the mapping
    holds a NaN, or a string that cast would turn into a mapping, and no
    two leaves of the merged tree flatten to the same dotted key.  Then the
    two traversals give one and the same flattening in whatever order each
    of them ranges over the maps.  The tree is any tree without shared map
    objects, the decoded mapping any mapping within the depth given. *)
Theorem Load_twice_no_change
    (fuel : nat) (h : heap) (c : Configuration)
    (content content' : list byte) (unmarshal unmarshal' : Unmarshaller)
    (m : gmap string tree) :
  tree_shaped fuel h (override c) →
  tdepth (TMap m) ≤ fuel →
  unmarshal content = inr m →
  unmarshal' content' = inr m →
  heap_regular h →
  regular (TMap m) = true →
  (∀ out1, Load fuel h c content unmarshal = Some out1 →
           collision_free (out_heap out1) (override c) (keyDelim c)) →
  ∃ out1 out2 data,
    Load fuel h c content unmarshal = Some out1 ∧
    Load fuel (out_heap out1) (out_conf out1) content' unmarshal' = Some out2 ∧
    out_changes out2 = ∅ ∧
    out_spawned out2 = [] ∧
    out_err out2 = None ∧
    ∀ ord, fair ord →
      lookup_in ord fuel (out_heap out1) "" (override c) ∅ (keyDelim c)
        = Some data ∧
      lookup_in ord fuel (out_heap out2) "" (override c) ∅ (keyDelim c)
        = Some data.
Proof.
  intros Hsh Hdepth Hdec Hdec' [Hnan _] [Hnanm _]%andb_true_iff Hcf.
  destruct (Load_decoded fuel h c content unmarshal m Hsh Hdepth Hdec)
    as (h1 & data & _ & Hmerge1 & Hdata & Hsh1 & Hcov & Hload).
  specialize (Hcf _ Hload). cbn [out_heap] in Hcf.
  assert (Hnan1 : heap_nan_free h1).
  { apply (merge_nan_free _ _ _ _ _ Hmerge1).
    destruct (alloc_nan_free (TMap m) h Hnanm Hnan) as [Ha _].
    by rewrite alloc_map_alloc in Ha. }
  assert (Hnand : ∀ k v, data !! k = Some v → value_nan_free v = true).
  { apply (lookup_nan_free _ _ _ _ _ _ _ Hdata Hnan1).
    intros k v. by rewrite lookup_empty. }
  set (c1 := set_keyMap (diff fuel h1 (keyMap c) data).2 (set_rawConfig content c))
    in *.
  destruct (Load_decoded fuel h1 c1 content' unmarshal' m Hsh1 Hdepth Hdec')
    as (h2 & data2 & _ & Hmerge2 & Hdata2 & _ & _ & Hload2).
  destruct (alloc_spec (TMap m) h1) as (ext & Hext & Hrb & _).
  rewrite alloc_map_alloc in Hext, Hrb. cbn [fst snd] in Hext, Hrb.
  assert (Hmerge : xmap.MergeStringMap fuel (alloc_map m h1).2 (override c1)
                     (alloc_map m h1).1 = Some (alloc_map m h1).2).
  { apply (merge_noop fuel _ _ _ m).
    - rewrite Hext. by apply covers_ext.
    - by apply (readback_mono (tdepth (TMap m))). }
  assert (Hh2 : h2 = (alloc_map m h1).2) by congruence. subst h2.
  assert (Hdata' : traverse fuel (alloc_map m h1).2 c1 (keyDelim c1) = Some data).
  { rewrite Hext. by apply lookup_ext. }
  assert (Hd2 : data2 = data) by congruence. subst data2.
  assert (Hnone : (diff fuel (alloc_map m h1).2 (keyMap c1) data).1 = ∅).
  { apply map_eq. intros k. rewrite lookup_empty.
    rewrite (proj2 (diff_spec _ _ _ _) k). unfold c1. cbn [keyMap set_keyMap].
    rewrite (proj1 (diff_spec _ _ _ _) k).
    destruct (data !! k) as [v|] eqn:Hk; [|done].
    by rewrite DeepEqual_refl by (by eapply Hnand). }
  eexists _, _, data. split; [exact Hload|]. cbn [out_heap out_conf].
  split; [exact Hload2|]. cbn [out_changes out_spawned out_err].
  rewrite Hnone. split_and!; try done.
  intros ord Hfair. split.
  - by apply (traverse_any_order ord fuel h1 c).
  - apply (traverse_any_order ord fuel (alloc_map m h1).2 c1 (keyDelim c1));
      [done| |done].
    rewrite Hext. by apply (collision_free_ext fuel).
Qed.

(** C7 as stated fails for a mapping with a NaN: NaN is not deeply equal to
    itself, so that the second load of [{x: NaN}] reports x as changed. *)
Lemma Load_twice_NaN_reports_change :
  Load 2 (New []).2 (New []).1 [] unmarshal_nan = Some after_load_nan ∧
  Load 2 (out_heap after_load_nan) (out_conf after_load_nan) [] unmarshal_nan
    = Some after_reload_nan ∧
  out_changes after_reload_nan = {[ "x" := VFloat PrimFloat.nan ]} ∧
  out_changes after_reload_nan ≠ ∅.
Proof.
  split; [by vm_compute|]. split; [by vm_compute|]. split; [done|].
  intros Heq.
  apply (f_equal (λ m : gmap string value, m !! "x")) in Heq.
  by vm_compute in Heq.
Qed.

(** [deepSearch] only ever writes an entry that did not hold a mapping, so
    the entries that do are still there when it returns, and the path leads
    to the mapping it returns. *)
Lemma deepSearch_walk (path : list string) :
  ∀ (h : heap) (m : loc) (h' : heap) (m' : loc),
    deepSearch h m path = Some (h', m') →
    walk h' m path = Some m' ∧
    ∀ (l : loc) (obj : gmap string value) (k : string) (l2 : loc),
      h !! l = Some obj → obj !! k = Some (VMap l2) →
      ∃ obj', h' !! l = Some obj' ∧ obj' !! k = Some (VMap l2).
Proof.
  induction path as [|k path IH]; intros h m h' m' Hds; simpl in Hds.
  - injection Hds as <- <-. split; [done|]. by eauto.
  - destruct (h !! m) as [mobj|] eqn:Hm; [|done]. simpl in Hds.
    assert (Hcase : (∃ m3, mobj !! k = Some (VMap m3) ∧
                           deepSearch h m3 path = Some (h', m')) ∨
                    ((∀ m3, mobj !! k ≠ Some (VMap m3)) ∧
                     deepSearch (<[m := <[k := VMap (length h)]> mobj]> (h ++ [∅]))
                                (length h) path = Some (h', m'))).
    { destruct (mobj !! k) as [[]|]; first [by (left; eexists)|by right]. }
    destruct Hcase as [(m3 & Hk & Hrec)|[Hk Hrec]].
    + destruct (IH _ _ _ _ Hrec) as [Hwalk Hkeep].
      destruct (Hkeep m mobj k m3 Hm Hk) as (obj' & Hm' & Hk').
      split; [|done]. simpl. rewrite Hm'. simpl. by rewrite Hk'.
    + destruct (IH _ _ _ _ Hrec) as [Hwalk Hkeep].
      assert (Hlt : m < length (h ++ [∅])).
      { rewrite length_app. apply lookup_lt_Some in Hm. lia. }
      destruct (Hkeep m (<[k := VMap (length h)]> mobj) k (length h))
        as (obj' & Hm' & Hk').
      { by rewrite list_lookup_insert_eq. }
      { by rewrite lookup_insert_eq. }
      split; [simpl; rewrite Hm'; simpl; by rewrite Hk'|].
      intros l obj k2 l2 Hl Hk2. destruct (decide (l = m)) as [->|Hne].
      * rewrite Hm in Hl. injection Hl as <-.
        apply (Hkeep m (<[k := VMap (length h)]> mobj)).
        -- by rewrite list_lookup_insert_eq.
        -- rewrite lookup_insert_ne; [done|]. intros ->. by destruct (Hk l2).
      * apply (Hkeep l obj); [|done].
        rewrite list_lookup_insert_ne by done. by apply lookup_app_l_Some.
Qed.

Lemma shaped_leaf (n : nat) (h : heap) (v : value) (F : gset loc) :
  cast.ToStringMapE v = None → shaped n h v F.
Proof. by destruct v, n. Qed.

(** Assigning a top-level entry of a well-formed tree, to fresh data. *)
Lemma Set_single_heap (fuel : nat) (h : heap) (c : Configuration)
    (key : string) (t : tree) (obj : gmap string value) :
  Split key (keyDelim c) = [key] →
  tree_shaped fuel h (override c) →
  h !! override c = Some obj →
  S (tdepth t) ≤ fuel →
  ∃ out, Set_ fuel (alloc t h).2 c key (alloc t h).1 = Some out ∧
    out_heap out = <[override c := <[key := (alloc t h).1]> obj]> (alloc t h).2 ∧
    out_err out = None.
Proof.
  intros Hsplit (F & Hsh & HF) Hobj Hdepth.
  destruct fuel as [|n]; [lia|].
  destruct Hsh as (obj' & Fk & Hobj' & HrF & HFk & Hdisj & Hch).
  rewrite Hobj in Hobj'. injection Hobj' as <-.
  destruct (alloc_spec t h) as (ext & Hext & Hrb & Hshv).
  set (v := (alloc t h).1) in *. set (h0 := (alloc t h).2) in *.
  set (h2 := <[override c := <[key := v]> obj]> h0).
  assert (Hr0 : h0 !! override c = Some obj).
  { rewrite Hext. by apply lookup_app_l_Some. }
  assert (Hrlt : override c < length h0) by (by eapply lookup_lt_Some).
  assert (Hsh2 : shaped (S n) h2 (VMap (override c)) (F ∪ fresh_locs h h0)).
  { exists (<[key := v]> obj),
           (λ k, if decide (k = key) then fresh_locs h h0 else Fk k).
    split; [by apply list_lookup_insert_eq|]. split; [set_solver|]. split.
    { intros k. assert (Hk' := HFk k). destruct Hk'. case_decide.
      - split; [|set_solver]. rewrite elem_of_fresh_locs.
        specialize (HF _ HrF). lia.
      - split; [done|set_solver]. }
    split.
    { intros k1 k2 Hne. repeat case_decide; subst; try done.
      - intros l Hl1 Hl2. apply elem_of_fresh_locs in Hl1.
        assert (Hk' := HFk k2). destruct Hk' as [_ Hsub].
        specialize (HF l (Hsub l Hl2)). lia.
      - intros l Hl1 Hl2. apply elem_of_fresh_locs in Hl2.
        assert (Hk' := HFk k1). destruct Hk' as [_ Hsub].
        specialize (HF l (Hsub l Hl1)). lia.
      - by apply Hdisj. }
    intros k v' Hk. destruct (decide (k = key)) as [->|Hne].
    - rewrite lookup_insert_eq in Hk. injection Hk as <-.
      apply (shaped_frame n h0).
      + intros l Hl. apply list_lookup_insert_ne. intros <-.
        apply elem_of_fresh_locs in Hl. specialize (HF _ HrF). lia.
      + eapply shaped_mono; [|reflexivity|exact Hshv]. lia.
    - rewrite lookup_insert_ne in Hk by done.
      apply (shaped_frame n h0).
      + intros l Hl. apply list_lookup_insert_ne. intros <-.
        assert (Hk' := HFk k). by destruct Hk'.
      + rewrite Hext. apply shaped_ext. by eapply Hch. }
  destruct (lookup_terminates (S n) h2 _ (override c) "" (keyDelim c) ∅ Hsh2)
    as [data Hdata].
  unfold Set_. rewrite Hsplit. simpl. rewrite Hr0. simpl. fold h2.
  unfold apply. rewrite (merge_self (S n) h2 _ _ Hsh2). simpl.
  unfold traverse. rewrite Hdata. simpl. by eexists.
Qed.

Lemma leaf_not_map (t : tree) (l : loc) : leaf t ≠ VMap l.
Proof. by destruct t. Qed.

Lemma alloc_leaf (t : tree) (h : heap) :
  (∀ tm, t ≠ TMap tm) → alloc t h = (leaf t, h).
Proof. intros Ht. destruct t; try done. by destruct (Ht m). Qed.

Lemma alloc_map_single_leaf (key : string) (t : tree) (h : heap) :
  (∀ tm, t ≠ TMap tm) →
  alloc_map {[ key := t ]} h = (length h, h ++ [ {[ key := leaf t ]} ]).
Proof.
  intros Ht. unfold alloc_map. rewrite alloc_TMap. cbv zeta.
  rewrite map_fold_singleton. cbn [fst snd]. rewrite (alloc_leaf t h Ht).
  cbn [fst snd]. by rewrite insert_empty.
Qed.

Lemma MergeStringMap_S (fuel : nat) (h : heap) (d s : loc) :
  xmap.MergeStringMap (S fuel) h d s =
  (sobj ← h !! s;
   fold_opt (xmap.merge_entry (xmap.MergeStringMap fuel) d s)
            (map_to_list sobj).*1 h).
Proof. reflexivity. Qed.

Lemma merge_single_entry (fuel : nat) (h0 : heap) (root s : loc)
    (key : string) (v : value) (obj : gmap string value) :
  h0 !! s = Some {[ key := v ]} → h0 !! root = Some obj →
  cast.ToStringMapE v = None →
  xmap.MergeStringMap (S fuel) h0 root s
  = Some (<[root := <[key := v]> obj]> h0).
Proof.
  intros Hs Hr Hv. rewrite MergeStringMap_S, Hs. cbn [mbind option_bind].
  rewrite map_to_list_singleton. cbn [fmap list_fmap fst fold_opt].
  destruct (merge_entry_cases (xmap.MergeStringMap fuel) root s h0 key
              {[ key := v ]} obj v Hs (lookup_singleton_eq key v) Hr)
    as [(tl & sl & _ & -> & _)|[_ ->]]; done.
Qed.

Lemma leaf_ToStringMapE (t : tree) : cast.ToStringMapE (leaf t) = None.
Proof. by destruct t. Qed.

(** Deep-merging the decoded mapping [{key: v}], v not a mapping, assigns
    the top-level entry. *)
Lemma merge_single_leaf (fuel : nat) (h : heap) (root : loc) (key : string)
    (t : tree) (obj : gmap string value) :
  h !! root = Some obj → (∀ tm, t ≠ TMap tm) →
  xmap.MergeStringMap (S fuel) (alloc_map {[ key := t ]} h).2 root
    (alloc_map {[ key := t ]} h).1
  = Some (<[root := <[key := leaf t]> obj]> h ++ [ {[ key := leaf t ]} ]).
Proof.
  intros Hroot Ht. rewrite (alloc_map_single_leaf key t h Ht). cbn [fst snd].
  rewrite (merge_single_entry fuel _ root (length h) key (leaf t) obj).
  - f_equal. apply insert_app_l. by eapply lookup_lt_Some.
  - by apply list_lookup_middle.
  - by apply lookup_app_l_Some.
  - apply leaf_ToStringMapE.
Qed.

(** C1 as stated fails: with the handler 7 registered through OnChange on a
    Configuration holding [{a: 1}], Set("a", 2) records the change of "a"
    and starts no handler at all. *)
Lemma Set_change_skips_OnChange :
  loaded_a1 3 7 = Some (after_load_a1 7) ∧
  onChanges (out_conf (after_load_a1 7)) = [7] ∧
  Set_ 3 (out_heap (after_load_a1 7)) (out_conf (after_load_a1 7)) "a" (VInt 2)
    = Some (after_set_a2 7) ∧
  out_changes (after_set_a2 7) !! "a" = Some (VInt 2) ∧
  7 ∉ out_spawned (after_set_a2 7).
Proof.
  split; [by vm_compute|]. split; [done|]. split; [by vm_compute|].
  split; [by vm_compute|]. apply not_elem_of_nil.
Qed.

(** C1, as the code has it: on a Configuration holding [{a: 1}] with any
    handler registered through OnChange, Set("a", 2) yields the ChangeSet
    [{a: 2}]; the handlers started for it are those of the watch prefixes
    alone, here none, and the OnChange handler is not among them; setting
    the same value again yields an empty ChangeSet and starts nothing. *)
Theorem Set_change_then_same_value (fuel : nat) (fn : handler) :
  loaded_a1 (S fuel) fn = Some (after_load_a1 fn) ∧
  onChanges (out_conf (after_load_a1 fn)) = [fn] ∧
  Set_ (S fuel) (out_heap (after_load_a1 fn)) (out_conf (after_load_a1 fn))
       "a" (VInt 2) = Some (after_set_a2 fn) ∧
  out_changes (after_set_a2 fn) = {[ "a" := VInt 2 ]} ∧
  out_spawned (after_set_a2 fn)
    = notifyChanges (out_conf (after_load_a1 fn)) (out_changes (after_set_a2 fn)) ∧
  out_spawned (after_set_a2 fn) = [] ∧
  Set_ (S fuel) (out_heap (after_set_a2 fn)) (out_conf (after_set_a2 fn))
       "a" (VInt 2) = Some (after_set_a2_again fn) ∧
  out_changes (after_set_a2_again fn) = ∅ ∧
  out_spawned (after_set_a2_again fn) = [].
Proof.
  split; [by vm_compute|]. split; [done|]. split; [by vm_compute|].
  split; [done|]. split; [by vm_compute|]. split; [done|].
  split; [by vm_compute|]. done.
Qed.

(** C3 as stated fails.  On the tree [{a: {x: 1}}] the child of Sub("a")
    reads x = 1 and decodes its whole tree as [{x: 1}]; after Set("a.x", 2)
    on the parent the same child, with x in its cache, decodes its whole
    tree as [{x: 2}]. *)
Lemma Sub_child_sees_parent_Set :
  loaded_ax1 3 = Some (mkOutcome heap_ax1 parent_ax1 ∅ [] None) ∧
  Sub heap_ax1 parent_ax1 "a" = Some (child_a, heap_ax1, parent_ax1_after_Sub) ∧
  Get heap_ax1 child_a "x" = Some (VInt 1, child_a_read_x) ∧
  UnmarshalKey tt (λ _ _, None) Decode_any heap_ax1 child_a_read_x "" None []
    = Some (Some (TMap {[ "x" := TInt 1 ]}), None, child_a_read_x) ∧
  out_heap <$> Set_ 3 heap_ax1 parent_ax1_after_Sub "a.x" (VInt 2)
    = Some (heap_ax1_set 2) ∧
  UnmarshalKey tt (λ _ _, None) Decode_any (heap_ax1_set 2) child_a_read_x ""
               None []
    = Some (Some (TMap {[ "x" := TInt 2 ]}), None, child_a_read_x).
Proof.
  split; [by vm_compute|]. split; [by vm_compute|]. split; [by vm_compute|].
  split; [by vm_compute|]. split; by vm_compute.
Qed.

(** C3, as the code has it: the child of Sub("a") on the tree
    [{a: {x: 1}}] holds the very map object that the parent holds under "a",
    not a copy; its Get("x") is 1; after a later Set("a.x", z) on the parent
    a key the child had resolved before keeps the cached value, while a key
    it had not resolved yet, and a decoding of its whole tree, give the new
    value. *)
Theorem Sub_shares_subtree (fuel : nat) (z : Z) :
  loaded_ax1 (S (S fuel)) = Some (mkOutcome heap_ax1 parent_ax1 ∅ [] None) ∧
  Sub heap_ax1 parent_ax1 "a" = Some (child_a, heap_ax1, parent_ax1_after_Sub) ∧
  heap_ax1 !! override parent_ax1_after_Sub ≫= (.!! "a")
    = Some (VMap (override child_a)) ∧
  Get heap_ax1 child_a "x" = Some (VInt 1, child_a_read_x) ∧
  out_heap <$> Set_ (S (S fuel)) heap_ax1 parent_ax1_after_Sub "a.x" (VInt z)
    = Some (heap_ax1_set z) ∧
  fst <$> Get (heap_ax1_set z) child_a_read_x "x" = Some (VInt 1) ∧
  fst <$> Get (heap_ax1_set z) child_a "x" = Some (VInt z) ∧
  UnmarshalKey tt (λ _ _, None) Decode_any (heap_ax1_set z) child_a_read_x ""
               None []
    = Some (Some (TMap {[ "x" := TInt z ]}), None, child_a_read_x).
Proof.
  split; [by vm_compute|]. split; [by vm_compute|]. split; [by vm_compute|].
  split; [by vm_compute|]. split; [by vm_compute|]. split; [by vm_compute|].
  split; by vm_compute.
Qed.

(** C2 as stated fails for a value that is a mapping: on the tree
    [{a: {x: 1}}], Set("a", {y: 2}) leaves [{a: {y: 2}}], where deep-merging
    [{a: {y: 2}}] would leave [{a: {x: 1, y: 2}}]. *)
Lemma Set_mapping_replaces_not_merges :
  Set_ 3 heap_ax1_y2 conf_root0 "a" (VMap 2) ≫= tree_of 3
    = Some (TMap {[ "a" := TMap {[ "y" := TInt 2 ]} ]}) ∧
  Set_spec (TMap {[ "a" := TMap {[ "x" := TInt 1 ]} ]}) "a" "."
           (TMap {[ "y" := TInt 2 ]})
    = TMap {[ "a" := TMap {[ "x" := TInt 1; "y" := TInt 2 ]} ]} ∧
  Set_ 3 heap_ax1_y2 conf_root0 "a" (VMap 2) ≫= tree_of 3
    ≠ Some (Set_spec (TMap {[ "a" := TMap {[ "x" := TInt 1 ]} ]}) "a" "."
                     (TMap {[ "y" := TInt 2 ]})).
Proof.
  assert (Hcode : Set_ 3 heap_ax1_y2 conf_root0 "a" (VMap 2) ≫= tree_of 3
                  = Some (TMap {[ "a" := TMap {[ "y" := TInt 2 ]} ]}))
    by (by vm_compute).
  split; [exact Hcode|]. split; [by vm_compute|].
  rewrite Hcode. intros Heq.
  apply (f_equal (λ o : option tree,
                    match o with
                    | Some t => tree_eqb (TMap {[ "a" := TMap {[ "y" := TInt 2 ]} ]}) t
                    | None => false
                    end)) in Heq.
  vm_compute in Heq. discriminate.
Qed.

(** With a key of two segments the mapping that received the leaf is merged
    at the top level: on [{a: {x: 1}}], Set("a.x", 2) leaves
    [{a: {x: 2}, x: 2}]. *)
Example Set_two_segments_top_level :
  Set_ 3 heap_ax1 parent_ax1 "a.x" (VInt 2) ≫= tree_of 3
    = Some (TMap {[ "a" := TMap {[ "x" := TInt 2 ]}; "x" := TInt 2 ]}).
Proof. by vm_compute. Qed.

(** C2, as the code has it.  For a key of a single segment, Set assigns the
    top-level entry outright, for a mapping value too (a previous mapping
    is replaced, not merged into), and changes nothing else in the tree;
    for a value that is not a mapping this is the deep merge of the
    single-key mapping.  For any path, the walk of deepSearch follows the
    mappings there are and puts a mapping wherever a segment is absent or
    holds something else, so that afterwards the path leads to the mapping
    that receives the leaf. *)
Theorem Set_walks_and_assigns
    (fuel : nat) (h : heap) (c : Configuration) (key : string) (t : tree)
    (obj : gmap string value) :
  (Split key (keyDelim c) = [key] →
   tree_shaped fuel h (override c) →
   h !! override c = Some obj →
   S (tdepth t) ≤ fuel →
   ∃ out,
     Set_ fuel (alloc t h).2 c key (alloc t h).1 = Some out ∧
     out_heap out
       = <[override c := <[key := (alloc t h).1]> obj]> (alloc t h).2 ∧
     out_err out = None ∧
     ((∀ tm, t ≠ TMap tm) →
      xmap.MergeStringMap fuel (alloc_map {[ key := t ]} h).2 (override c)
        (alloc_map {[ key := t ]} h).1
      = Some (out_heap out ++ [ {[ key := leaf t ]} ]))) ∧
  (∀ path h' m,
     deepSearch h (override c) path = Some (h', m) →
     walk h' (override c) path = Some m).
Proof.
  split.
  - intros Hsplit Hsh Hobj Hdepth.
    destruct (Set_single_heap fuel h c key t obj Hsplit Hsh Hobj Hdepth)
      as (out & Hset & Hheap & Herr).
    exists out. split; [done|]. split; [done|]. split; [done|].
    intros Ht. rewrite Hheap, (alloc_leaf t h Ht). cbn [fst snd].
    destruct fuel as [|n]; [lia|]. by apply merge_single_leaf.
  - intros path h' m Hds. by destruct (deepSearch_walk path _ _ _ _ Hds).
Qed.

Lemma New_tree_shaped (fuel : nat) (h : heap) :
  tree_shaped (S fuel) (New h).2 (override (New h).1).
Proof.
  exists {[ length h ]}. split.
  - exists ∅, (λ _, ∅). split; [by apply list_lookup_middle|].
    split; [set_solver|]. split; [set_solver|]. split; [set_solver|].
    intros k v Hk. by rewrite lookup_empty in Hk.
  - intros l ->%elem_of_singleton. simpl. rewrite length_app. simpl. lia.
Qed.

Lemma heap_a1_tree_shaped : tree_shaped 2 heap_a1 (override conf_root0).
Proof.
  exists {[ 0 ]}. split.
  - exists {[ "a" := VInt 1 ]}, (λ _, ∅). split; [done|].
    split; [set_solver|]. split; [set_solver|]. split; [set_solver|].
    intros k v [_ <-]%lookup_singleton_Some. done.
  - intros l ->%elem_of_singleton. simpl. lia.
Qed.

Lemma Set_walks_and_assigns_witness :
  ∃ out,
    Set_ 2 heap_a1 conf_root0 "b" (VInt 5) = Some out ∧
    out_heap out = [ {[ "a" := VInt 1; "b" := VInt 5 ]} ] ∧
    out_err out = None.
Proof.
  destruct (proj1 (Set_walks_and_assigns 2 heap_a1 conf_root0 "b" (TInt 5)
                     {[ "a" := VInt 1 ]})
              eq_refl heap_a1_tree_shaped eq_refl ltac:(simpl; lia))
    as (out & Hset & Hheap & Herr & _).
  exists out. split; [exact Hset|]. split; [|exact Herr].
  rewrite Hheap. by vm_compute.
Defined.

Lemma heap_ax1_collision_free : collision_free heap_ax1 0 ".".
Proof.
  assert (Hleaf : ∀ ps k v, leaf_at heap_ax1 0 ps k v → ps = ["a"] ∧ k = "x").
  { intros ps k v (m & mobj & Hwalk & Hm & Hk & Hv).
    destruct ps as [|p ps]; simpl in Hwalk.
    - injection Hwalk as <-. injection Hm as <-.
      apply lookup_singleton_Some in Hk as [_ <-]. done.
    - destruct (decide (p = "a")) as [->|Hp];
        [|by rewrite lookup_singleton_ne in Hwalk].
      rewrite lookup_singleton_eq in Hwalk.
      destruct ps as [|q ps]; simpl in Hwalk.
      + injection Hwalk as <-. injection Hm as <-.
        by apply lookup_singleton_Some in Hk as [<- _].
      + destruct (decide (q = "x")) as [->|Hq];
          [by rewrite lookup_singleton_eq in Hwalk
          |by rewrite lookup_singleton_ne in Hwalk]. }
  intros ps k v ps' k' v' H1 H2 _.
  destruct (Hleaf _ _ _ H1) as [-> ->]. by destruct (Hleaf _ _ _ H2) as [-> ->].
Qed.

Lemma Load_twice_no_change_witness :
  ∃ out1 out2 data,
    Load 2 (New []).2 (New []).1 [] unmarshal_ax1 = Some out1 ∧
    Load 2 (out_heap out1) (out_conf out1) [] unmarshal_ax1 = Some out2 ∧
    out_changes out2 = ∅ ∧ out_spawned out2 = [] ∧ out_err out2 = None ∧
    ∀ ord, fair ord →
      lookup_in ord 2 (out_heap out1) "" (override (New []).1) ∅
                (keyDelim (New []).1) = Some data ∧
      lookup_in ord 2 (out_heap out2) "" (override (New []).1) ∅
                (keyDelim (New []).1) = Some data.
Proof.
  apply (Load_twice_no_change 2 (New []).2 (New []).1 [] [] unmarshal_ax1
           unmarshal_ax1 {[ "a" := TMap {[ "x" := TInt 1 ]} ]}).
  - apply (New_tree_shaped 1 []).
  - vm_compute. lia.
  - reflexivity.
  - reflexivity.
  - split; intros l obj k v Hl Hk; (destruct l as [|l]; [|done]);
      injection Hl as <-; by rewrite lookup_empty in Hk.
  - by vm_compute.
  - intros out1 Hout1. vm_compute in Hout1. injection Hout1 as <-.
    exact heap_ax1_collision_free.
Defined.

Lemma apply_change_detection_witness :
  ∃ out,
    apply 1 [ {[ "a" := VInt 1 ]}; {[ "a" := VInt 2 ]} ]
          (set_keyMap {[ "a" := VInt 1 ]} conf_root0) 1 = Some out ∧
    out_changes out !! "a" = Some (VInt 2) ∧
    keyMap (out_conf out) !! "a" = Some (VInt 2).
Proof.
  assert (Hmerge : xmap.MergeStringMap 1
                     [ {[ "a" := VInt 1 ]}; {[ "a" := VInt 2 ]} ]
                     (override (set_keyMap {[ "a" := VInt 1 ]} conf_root0)) 1
                   = Some [ {[ "a" := VInt 2 ]}; {[ "a" := VInt 2 ]} ])
    by (by vm_compute).
  assert (Hdata : traverse 1 [ {[ "a" := VInt 2 ]}; {[ "a" := VInt 2 ]} ]
                    (set_keyMap {[ "a" := VInt 1 ]} conf_root0)
                    (keyDelim (set_keyMap {[ "a" := VInt 1 ]} conf_root0))
                  = Some {[ "a" := VInt 2 ]})
    by (by vm_compute).
  destruct (apply_change_detection 1 _ _ 1 _ _ Hmerge Hdata)
    as (out & Happly & _ & Hkeys & _).
  exists out. split; [exact Happly|].
  assert (Hk : ({[ "a" := VInt 2 ]} : gmap string value) !! "a" = Some (VInt 2))
    by (by vm_compute).
  destruct (Hkeys "a" (VInt 2) Hk) as (Hiff & Hval & Hcache).
  split; [|exact Hcache]. apply Hval, Hiff. exists (VInt 1). by vm_compute.
Defined.

Lemma find_cache_first_witness :
  find [] (set_keyMap {[ "a" := VNil ]} conf_root0) "a"
    = Some (VNil, set_keyMap {[ "a" := VNil ]} conf_root0).
Proof.
  exact (proj1 (find_cache_first heap_a1
                  (set_keyMap {[ "a" := VNil ]} conf_root0) "a")
               VNil eq_refl []).
Defined.

Lemma Load_decode_error_keeps_tree_witness :
  ∃ out,
    Load 1 heap_a1 conf_root0 [x00%byte] (λ _, inl (ErrExternal "bad"))
      = Some out ∧
    out_err out = Some (ErrExternal "bad") ∧
    out_heap out = heap_a1.
Proof.
  destruct (Load_decode_error_keeps_tree 1 heap_a1 conf_root0 [x00%byte]
              (λ _, inl (ErrExternal "bad")) (ErrExternal "bad") eq_refl)
    as (out & Hload & Herr & Hheap & _).
  by exists out.
Defined.

Lemma Load_overwrites_raw_first_witness :
  ∃ out,
    Load 1 heap_a1 (set_rawConfig [x01%byte] conf_root0) [x00%byte]
         (λ _, inl (ErrExternal "bad")) = Some out ∧
    out_err out = Some (ErrExternal "bad") ∧
    out_heap out = heap_a1 ∧
    raw (out_conf out) = [x00%byte].
Proof.
  exact (proj2 (Load_overwrites_raw_first 1 heap_a1
                  (set_rawConfig [x01%byte] conf_root0) [x00%byte]
                  (λ _, inl (ErrExternal "bad")))
               (ErrExternal "bad") eq_refl).
Defined.

(** * Further properties of the code *)

(** ** What apply leaves behind *)

Lemma apply_inv (fuel : nat) (h : heap) (c : Configuration) (conf : loc)
    (out : outcome) :
  apply fuel h c conf = Some out →
  ∃ data,
    xmap.MergeStringMap fuel h (override c) conf = Some (out_heap out) ∧
    traverse fuel (out_heap out) c (keyDelim c) = Some data ∧
    out_conf out = set_keyMap (diff fuel (out_heap out) (keyMap c) data).2 c ∧
    out_changes out = (diff fuel (out_heap out) (keyMap c) data).1 ∧
    out_spawned out
      = (if bool_decide (0 < size (out_changes out))
         then notifyChanges c (out_changes out) else []) ∧
    out_err out = None.
Proof.
  unfold apply. intros Hout.
  destruct (xmap.MergeStringMap fuel h (override c) conf) as [h1|]; [|done].
  simpl in Hout.
  destruct (traverse fuel h1 c (keyDelim c)) as [data|] eqn:Hdata; [|done].
  simpl in Hout. injection Hout as <-. simpl. by exists data.
Qed.

(** Flattening stores leaves only. *)
Lemma lookup_leaves (n : nat) :
  ∀ (h : heap) (prefix : string) (l : loc) (sep : string)
    (data r : gmap string value),
    lookup n h prefix l data sep = Some r →
    (∀ k v, data !! k = Some v → cast.ToStringMapE v = None) →
    ∀ k v, r !! k = Some v → cast.ToStringMapE v = None.
Proof.
  induction n as [|n IH]; intros h prefix l sep data r; [done|].
  simpl. destruct (h !! l) as [obj|]; [|done]. simpl. intros Hfold Hdata.
  revert Hdata Hfold.
  apply (fold_opt_preserve
           (λ d : gmap string value,
              ∀ k v, d !! k = Some v → cast.ToStringMapE v = None)).
  intros d [k' v'] d' _. unfold lookup_entry. simpl.
  destruct (cast.ToStringMapE v') as [dd|] eqn:Hv'.
  - intros Hrec Hd. by eapply IH.
  - intros [= <-] Hd k v. destruct (decide
      ((if decide (prefix = "") then k' else prefix +:+ sep +:+ k') = k))
      as [<-|Hne].
    + rewrite lookup_insert_eq. by intros [= <-].
    + rewrite lookup_insert_ne by done. apply Hd.
Qed.

(** X1: a merge never removes a cache entry: a key that the flattened tree
    does not have keeps the value cached before, which Get goes on to
    answer. *)
Theorem apply_keeps_stale_entries (fuel : nat) (h h' : heap)
    (c : Configuration) (conf : loc) (out : outcome)
    (data : gmap string value) (k : string) (dd : value) :
  apply fuel h c conf = Some out →
  traverse fuel (out_heap out) c (keyDelim c) = Some data →
  data !! k = None →
  keyMap c !! k = Some dd →
  keyMap (out_conf out) !! k = Some dd ∧
  Get h' (out_conf out) k = Some (dd, out_conf out).
Proof.
  intros Hout Hdata Hk Hdd.
  destruct (apply_inv _ _ _ _ _ Hout) as (data' & _ & Hdata' & Hconf & _).
  assert (data' = data) as -> by congruence.
  assert (keyMap (out_conf out) !! k = Some dd) as Hkm.
  { rewrite Hconf. simpl.
    by rewrite (proj1 (diff_spec fuel (out_heap out) (keyMap c) data) k), Hk. }
  split; [done|]. unfold Get, find. by rewrite Hkm.
Qed.

Lemma apply_keeps_stale_entries_witness :
  keyMap (out_conf merged_b_nil) !! "b" = Some VNil ∧
  Get [] (out_conf merged_b_nil) "b" = Some (VNil, out_conf merged_b_nil).
Proof.
  apply (apply_keeps_stale_entries 3 heap_ax1_empty [] conf_b_nil 2
           merged_b_nil {[ "a.x" := VInt 1 ]} "b" VNil); by vm_compute.
Defined.

(** X2: the ChangeSet of a merge holds no mapping, and a merge caches no
    mapping: a mapping found in the cache afterwards was there before. *)
Theorem apply_caches_leaves_only (fuel : nat) (h : heap) (c : Configuration)
    (conf : loc) (out : outcome) :
  apply fuel h c conf = Some out →
  (∀ k v, out_changes out !! k = Some v → cast.ToStringMapE v = None) ∧
  (∀ k l, keyMap (out_conf out) !! k = Some (VMap l) →
          keyMap c !! k = Some (VMap l)).
Proof.
  intros Hout.
  destruct (apply_inv _ _ _ _ _ Hout) as (data & _ & Hdata & Hconf & Hch & _).
  assert (∀ k v, data !! k = Some v → cast.ToStringMapE v = None) as Hleaf.
  { unfold traverse in Hdata. eapply lookup_leaves; [exact Hdata|].
    intros k v. by rewrite lookup_empty. }
  pose proof (diff_spec fuel (out_heap out) (keyMap c) data) as [Hkm Hchs].
  split.
  - intros k v. rewrite Hch, Hchs.
    destruct (data !! k) as [v'|] eqn:Hk; [|done].
    destruct (keyMap c !! k) as [orig|]; [|done].
    destruct (DeepEqual _ _ _ _); [done|]. intros [= <-]. by eapply Hleaf.
  - intros k l. rewrite Hconf. simpl. rewrite Hkm.
    destruct (data !! k) as [v'|] eqn:Hk; [|done].
    intros [= ->]. by apply Hleaf in Hk.
Qed.

Lemma apply_caches_leaves_only_witness :
  (∀ k v, out_changes merged_a2 !! k = Some v → cast.ToStringMapE v = None) ∧
  (∀ k l, keyMap (out_conf merged_a2) !! k = Some (VMap l) →
          keyMap conf_root0 !! k = Some (VMap l)).
Proof.
  apply (apply_caches_leaves_only 2 heap_a1_a2 conf_root0 1 merged_a2).
  by vm_compute.
Defined.

(** ** Keys without the delimiter *)

Lemma string_app_empty_r (s : string) : s +:+ "" = s.
Proof. induction s as [|ch s IH]; [done|]. rewrite string_app_cons. by f_equal. Qed.

Lemma HasPrefix_app (p r : string) : HasPrefix (p +:+ r) p = true.
Proof.
  induction p as [|ch p IH]; [by destruct r|].
  rewrite string_app_cons. simpl. rewrite IH. by rewrite bool_decide_eq_true_2.
Qed.

Lemma occurs_unfold (sep s : string) :
  occurs sep s
  = HasPrefix s sep ||
    match s with EmptyString => false | String _ s' => occurs sep s' end.
Proof. by destruct s. Qed.

Lemma occurs_app (sep a b : string) : occurs sep (a +:+ sep +:+ b) = true.
Proof.
  induction a as [|ch a IH].
  - change ("" +:+ sep +:+ b) with (sep +:+ b).
    rewrite occurs_unfold, HasPrefix_app. done.
  - rewrite string_app_cons, occurs_unfold, IH. apply orb_true_r.
Qed.

Lemma occurs_false_ne (sep key a b : string) :
  occurs sep key = false → key ≠ a +:+ sep +:+ b.
Proof. intros Hocc ->. by rewrite occurs_app in Hocc. Qed.

Lemma genSplit_no_sep (sep s cur : string) :
  occurs sep s = false → genSplit sep 0 cur s = [cur +:+ s].
Proof.
  revert cur. induction s as [|ch s IH]; intros cur Hocc.
  - simpl. by rewrite string_app_empty_r.
  - rewrite occurs_unfold in Hocc. apply orb_false_iff in Hocc as [Hp Hocc].
    cbn [genSplit]. rewrite Hp, (IH _ Hocc), string_app_assoc. done.
Qed.

Lemma Split_no_sep (sep key : string) :
  occurs sep key = false → Split key sep = [key].
Proof.
  intros Hocc. unfold Split. destruct (decide (sep = "")) as [->|_].
  - by destruct key.
  - by rewrite genSplit_no_sep.
Qed.

(** Below a non-empty prefix the flattening writes only keys that begin
    with the prefix and the delimiter. *)
Lemma lookup_prefixed (n : nat) :
  ∀ (h : heap) (prefix : string) (l : loc) (sep : string)
    (data r : gmap string value) (key : string),
    lookup n h prefix l data sep = Some r →
    prefix ≠ "" →
    (∀ s, key ≠ prefix +:+ sep +:+ s) →
    r !! key = data !! key.
Proof.
  induction n as [|n IH]; intros h prefix l sep data r key; [done|].
  simpl. destruct (h !! l) as [obj|]; [|done]. simpl.
  intros Hfold Hpre Hkey. revert Hfold.
  apply (fold_opt_preserve (λ d : gmap string value, d !! key = data !! key));
    [|done].
  intros d [k' v'] d' _. unfold lookup_entry. simpl.
  rewrite decide_False by done.
  destruct (cast.ToStringMapE v') as [dd|].
  - intros Hrec <-. eapply IH; [exact Hrec| |].
    + by destruct prefix.
    + intros s. rewrite !string_app_assoc. apply Hkey.
  - intros [= <-] <-. apply lookup_insert_ne. intros Heq.
    by apply (Hkey k').
Qed.

Lemma lookup_entry_other (n : nat) (h : heap) (sep key k' : string)
    (v' : value) (d d' : gmap string value) :
  occurs sep key = false →
  k' ≠ key ∨ (k' ≠ "" ∧ is_Some (cast.ToStringMapE v')) →
  (k' = "" → cast.ToStringMapE v' = None) →
  lookup_entry (λ pp dd data, lookup n h pp dd data sep) "" sep d (k', v')
    = Some d' →
  d' !! key = d !! key.
Proof.
  intros Hocc Hk' Hempty. unfold lookup_entry. simpl.
  destruct (cast.ToStringMapE v') as [dd|] eqn:Hv'.
  - intros Hrec. eapply lookup_prefixed; [exact Hrec| |].
    + intros ->. by specialize (Hempty eq_refl).
    + intros s. by apply occurs_false_ne.
  - intros [= <-]. apply lookup_insert_ne.
    destruct Hk' as [?|[_ [? ?]]]; done.
Qed.

Lemma fold_root_key (n : nat) (h : heap) (sep key : string)
    (l : list (string * value)) :
  occurs sep key = false →
  NoDup l.*1 →
  (∀ v, ("", v) ∈ l → cast.ToStringMapE v = None) →
  ∀ d r,
    fold_opt (lookup_entry (λ pp dd data, lookup n h pp dd data sep) "" sep)
             l d = Some r →
    (∀ v, (key, v) ∈ l → cast.ToStringMapE v = None → r !! key = Some v) ∧
    ((∀ v, (key, v) ∈ l → is_Some (cast.ToStringMapE v)) →
     r !! key = d !! key).
Proof.
  intros Hocc. induction l as [|[k' v'] l IH]; intros Hnd Hempty d r; simpl.
  - intros [= <-]. split; [|done]. intros v Hin. by apply elem_of_nil in Hin.
  - apply NoDup_cons in Hnd as [Hk' Hnd].
    destruct (lookup_entry _ "" sep d (k', v')) as [d1|] eqn:Hstep; [|done].
    intros Hfold.
    destruct (IH Hnd (λ v Hin, Hempty v (list_elem_of_further _ _ _ Hin))
                 _ _ Hfold) as [IH1 IH2].
    destruct (decide (k' = key)) as [->|Hne].
    + assert (∀ v, (key, v) ∉ l) as Hnot.
      { intros v Hin. apply Hk'. apply list_elem_of_fmap. by exists (key, v). }
      split.
      * intros v Hin Hleaf. apply elem_of_cons in Hin as [[= <-]|Hin];
          [|by destruct (Hnot v)].
        rewrite IH2 by (intros v0 Hin0; by destruct (Hnot v0)).
        unfold lookup_entry in Hstep. simpl in Hstep. rewrite Hleaf in Hstep.
        injection Hstep as <-. apply lookup_insert_eq.
      * intros Hmaps. rewrite IH2 by (intros v0 Hin0; by destruct (Hnot v0)).
        eapply lookup_entry_other; [done| | |exact Hstep].
        -- right. split; [|apply Hmaps; by left].
           intros ->. specialize (Hempty v' (list_elem_of_here _ _)).
           destruct (Hmaps v' (list_elem_of_here _ _)) as [? ?]. congruence.
        -- intros ->. apply Hempty. by left.
    + assert (d1 !! key = d !! key) as Hd1.
      { eapply lookup_entry_other; [done|by left| |exact Hstep].
        intros ->. apply Hempty. by left. }
      split.
      * intros v Hin Hleaf. apply elem_of_cons in Hin as [[= ? ?]|Hin]; [done|].
        by apply IH1.
      * intros Hmaps. rewrite <- Hd1. apply IH2. intros v Hin. apply Hmaps.
        by right.
Qed.

(** What the flattening holds for a key without the delimiter: the entry
    of the root under that key when it is not a mapping, and nothing
    otherwise.  A mapping under the empty key is left aside: the flattener
    names its entries as if they were the root's. *)
Lemma traverse_root_key (fuel : nat) (h : heap) (c : Configuration)
    (sep key : string) (obj data : gmap string value) :
  traverse fuel h c sep = Some data →
  h !! override c = Some obj →
  occurs sep key = false →
  (∀ l, obj !! "" ≠ Some (VMap l)) →
  data !! key
  = match obj !! key with
    | Some v => match cast.ToStringMapE v with
                | None => Some v
                | Some _ => None
                end
    | None => None
    end.
Proof.
  unfold traverse. destruct fuel as [|n]; [done|]. simpl.
  intros Hfold Hobj Hocc Hempty. rewrite Hobj in Hfold. simpl in Hfold.
  destruct (fold_root_key n h sep key (map_to_list obj) Hocc) with
    (d := (∅ : gmap string value)) (r := data) as [H1 H2]; [| |done|].
  { apply NoDup_fst_map_to_list. }
  { intros v Hin. apply elem_of_map_to_list in Hin.
    destruct v; try done. by destruct (Hempty l). }
  destruct (obj !! key) as [v|] eqn:Hk.
  - destruct (cast.ToStringMapE v) as [dd|] eqn:Hv.
    + rewrite H2; [done|]. intros v0 Hin. apply elem_of_map_to_list in Hin.
      assert (v0 = v) as -> by congruence. by eexists.
    + apply H1; [|done]. by apply elem_of_map_to_list.
  - rewrite H2; [done|]. intros v0 Hin. apply elem_of_map_to_list in Hin.
    congruence.
Qed.

(** ** Set and Get of a top-level key *)

(** [Set] of a key without the delimiter, on a well-formed tree: what it
    returns, and what the flattening then holds for the key. *)
Lemma Set_single_outcome (fuel : nat) (h : heap) (c : Configuration)
    (key : string) (t : tree) (obj : gmap string value) :
  occurs (keyDelim c) key = false →
  tree_shaped fuel h (override c) →
  h !! override c = Some obj →
  S (tdepth t) ≤ fuel →
  (∀ l, <[key := (alloc t h).1]> obj !! "" ≠ Some (VMap l)) →
  ∃ out data,
    Set_ fuel (alloc t h).2 c key (alloc t h).1 = Some out ∧
    out_err out = None ∧
    out_heap out
      = <[override c := <[key := (alloc t h).1]> obj]> (alloc t h).2 ∧
    traverse fuel (out_heap out) c (keyDelim c) = Some data ∧
    data !! key = match cast.ToStringMapE (alloc t h).1 with
                  | None => Some (alloc t h).1
                  | Some _ => None
                  end ∧
    out_conf out = set_keyMap (diff fuel (out_heap out) (keyMap c) data).2 c ∧
    out_changes out = (diff fuel (out_heap out) (keyMap c) data).1.
Proof.
  intros Hocc Hsh Hobj Hdepth Hempty.
  pose proof (Split_no_sep _ _ Hocc) as Hsplit.
  destruct (Set_single_heap fuel h c key t obj Hsplit Hsh Hobj Hdepth)
    as (out & Hset & Hheap & Herr).
  exists out.
  assert (Happly : apply fuel
            (<[override c := <[key := (alloc t h).1]> obj]> (alloc t h).2)
            c (override c) = Some out).
  { revert Hset. unfold Set_. rewrite Hsplit. simpl.
    destruct (alloc_spec t h) as (ext & Hext & _).
    rewrite Hext at 1. rewrite (lookup_app_l_Some _ _ _ _ Hobj). done. }
  destruct (apply_inv _ _ _ _ _ Happly)
    as (data & _ & Hdata & Hconf & Hch & _).
  exists data. split; [done|]. split; [done|]. split; [done|].
  split; [done|]. split; [|done].
  rewrite (traverse_root_key fuel (out_heap out) c (keyDelim c) key
             (<[key := (alloc t h).1]> obj) data Hdata); [| |done|done].
  - by rewrite lookup_insert_eq.
  - rewrite Hheap. apply list_lookup_insert_eq.
    destruct (alloc_spec t h) as (ext & Hext & _). rewrite Hext, length_app.
    apply lookup_lt_Some in Hobj. lia.
Qed.

Lemma plain_leaf (v : value) :
  plain v = true →
  cast.ToStringMapE v = None ∧
  ∃ t, v = leaf t ∧ (∀ tm, t ≠ TMap tm) ∧ alloc t = λ h, (v, h).
Proof.
  destruct v; try done; intros _; (split; [done|]).
  - by exists TNil.
  - by exists (TBool b).
  - by exists (TInt z).
  - by exists (TFloat f).
  - by exists (TStr s).
  - by exists (TList l).
Qed.

Lemma plain_root_entry (obj : gmap string value) (key : string) (v : value) :
  (∀ w, obj !! "" = Some w → plain w = true) →
  plain v = true →
  ∀ l, <[key := v]> obj !! "" ≠ Some (VMap l).
Proof.
  intros Hempty Hv l. destruct (decide (key = "")) as [->|Hne].
  - rewrite lookup_insert_eq. intros [= ->]. done.
  - rewrite lookup_insert_ne by done. intros Hl. by apply Hempty in Hl.
Qed.

(** X3: Set then Get.  For a key that does not hold the delimiter and a
    value on which the conversion to a mapping fails (no mapping, and no
    string that reads as a JSON object or as null), on a well-formed tree
    whose root has no convertible value under the empty key, Set returns
    without error and Get of the key then gives the value set, whatever was
    cached for the key before. *)
Theorem Set_then_Get (fuel : nat) (h h' : heap) (c : Configuration)
    (key : string) (v : value) (obj : gmap string value) :
  occurs (keyDelim c) key = false →
  tree_shaped fuel h (override c) →
  h !! override c = Some obj →
  (∀ w, obj !! "" = Some w → plain w = true) →
  plain v = true →
  1 ≤ fuel →
  ∃ out, Set_ fuel h c key v = Some out ∧
    out_err out = None ∧
    Get h' (out_conf out) key = Some (v, out_conf out).
Proof.
  intros Hocc Hsh Hobj Hempty Hv Hfuel.
  destruct (plain_leaf v Hv) as (HvE & t & -> & Ht & Halloc).
  assert (tdepth t = 0) as Hd by (destruct t; try done; by destruct (Ht m)).
  destruct (Set_single_outcome fuel h c key t obj) as
    (out & data & Hset & Herr & _ & _ & Hk & Hconf & _); try done; [lia| |].
  { rewrite Halloc. by apply plain_root_entry. }
  rewrite Halloc in Hset, Hk. simpl in Hset, Hk. rewrite HvE in Hk.
  exists out. split; [done|]. split; [done|].
  unfold Get, find. rewrite Hconf. simpl.
  by rewrite (proj1 (diff_spec fuel (out_heap out) (keyMap c) data) key), Hk.
Qed.

Lemma Set_then_Get_witness :
  ∃ out, Set_ 2 heap_a1 conf_root0 "host" (VStr "localhost") = Some out ∧
    out_err out = None ∧
    Get [] (out_conf out) "host" = Some (VStr "localhost", out_conf out).
Proof.
  apply (Set_then_Get 2 heap_a1 [] conf_root0 "host" (VStr "localhost")
           {[ "a" := VInt 1 ]});
    [by vm_compute|apply heap_a1_tree_shaped|by vm_compute|by vm_compute
    |by vm_compute|lia].
Defined.



(** X5: a lookup of a missing key turns its first assignment into a
    reported change.  For a key without the delimiter that is neither
    cached nor in the tree, Set of a value other than nil on which the
    conversion to a mapping fails (no mapping, and no string that reads as
    a JSON object or as null) reports no change for the key; after a Get of
    the key, which answers nil and caches it, the same Set puts the key
    into the ChangeSet. *)
Theorem Get_miss_then_Set_reports_change (fuel : nat) (h : heap)
    (c : Configuration) (key : string) (v : value) (obj : gmap string value) :
  occurs (keyDelim c) key = false →
  tree_shaped fuel h (override c) →
  h !! override c = Some obj →
  (∀ w, obj !! "" = Some w → plain w = true) →
  obj !! key = None →
  keyMap c !! key = None →
  plain v = true → v ≠ VNil →
  1 ≤ fuel →
  (∃ out, Set_ fuel h c key v = Some out ∧
     out_changes out !! key = None) ∧
  (∃ c1 out, Get h c key = Some (VNil, c1) ∧
     Set_ fuel h c1 key v = Some out ∧
     out_changes out !! key = Some v).
Proof.
  intros Hocc Hsh Hobj Hempty Habs Hmiss Hv Hnil Hfuel.
  destruct (plain_leaf v Hv) as (HvE & t & Heq & Ht & Halloc).
  assert (tdepth t = 0) as Hd by (destruct t; try done; by destruct (Ht m)).
  assert (∀ l, <[key := (alloc t h).1]> obj !! "" ≠ Some (VMap l)) as Hempty'.
  { rewrite Halloc. by apply plain_root_entry. }
  split.
  - destruct (Set_single_outcome fuel h c key t obj Hocc Hsh Hobj
                ltac:(lia) Hempty') as
      (out & data & Hset & _ & _ & _ & Hk & _ & Hch).
    rewrite Halloc in Hset. simpl in Hset.
    exists out. split; [done|].
    rewrite Hch, (proj2 (diff_spec fuel (out_heap out) (keyMap c) data) key),
      Hmiss. by destruct (data !! key).
  - set (c1 := set_keyMap (<[key := VNil]> (keyMap c)) c).
    destruct (Set_single_outcome fuel h c1 key t obj Hocc Hsh Hobj
                ltac:(lia) Hempty') as
      (out & data & Hset & _ & _ & _ & Hk & _ & Hch).
    rewrite Halloc in Hset, Hk. simpl in Hset, Hk. rewrite HvE in Hk.
    exists c1, out. split; [|split; [done|]].
    + unfold Get, find. rewrite Hmiss, (Split_no_sep _ _ Hocc). simpl.
      rewrite Hobj. simpl. by rewrite Habs.
    + rewrite Hch, (proj2 (diff_spec fuel (out_heap out) (keyMap c1) data) key),
        Hk. simpl. rewrite lookup_insert_eq.
      assert (DeepEqual fuel (out_heap out) VNil v = false) as ->; [|done].
      by destruct v.
Qed.

Lemma Get_miss_then_Set_reports_change_witness :
  (∃ out, Set_ 2 heap_a1 conf_root0 "b" (VInt 2) = Some out ∧
     out_changes out !! "b" = None) ∧
  (∃ c1 out, Get heap_a1 conf_root0 "b" = Some (VNil, c1) ∧
     Set_ 2 heap_a1 c1 "b" (VInt 2) = Some out ∧
     out_changes out !! "b" = Some (VInt 2)).
Proof.
  apply (Get_miss_then_Set_reports_change 2 heap_a1 conf_root0 "b" (VInt 2)
           {[ "a" := VInt 1 ]});
    [by vm_compute|apply heap_a1_tree_shaped|by vm_compute|by vm_compute
    |by vm_compute|by vm_compute|done|done|lia].
Defined.

(** ** deepSearch *)

(** X6: along a path whose segments all hold mappings, [deepSearch] writes
    and allocates nothing and returns the mapping the path leads to. *)
Theorem deepSearch_existing_path (path : list string) (h : heap) (m m' : loc) :
  walk h m path = Some m' →
  deepSearch h m path = Some (h, m').
Proof.
  revert m. induction path as [|k path IH]; intros m; simpl.
  - by intros [= <-].
  - destruct (h !! m) as [mobj|]; [|done]. simpl.
    destruct (mobj !! k) as [[| | | | | |m3]|]; try done. apply IH.
Qed.

Lemma deepSearch_existing_path_witness :
  deepSearch heap_ax1 0 ["a"] = Some (heap_ax1, 1).
Proof. apply (deepSearch_existing_path ["a"] heap_ax1 0 1). by vm_compute. Defined.

(** X7: [deepSearch] is idempotent: run again on the heap it returned, it
    changes nothing and returns the same mapping. *)
Theorem deepSearch_idempotent (path : list string) (h h' : heap) (m m' : loc) :
  deepSearch h m path = Some (h', m') →
  deepSearch h' m path = Some (h', m').
Proof.
  intros Hds. destruct (deepSearch_walk path h m h' m' Hds) as [Hwalk _].
  revert Hwalk. clear Hds. revert m.
  induction path as [|k path IH]; intros m; simpl.
  - by intros [= <-].
  - destruct (h' !! m) as [mobj|]; [|done]. simpl.
    destruct (mobj !! k) as [[| | | | | |m3]|]; try done. apply IH.
Qed.

Lemma deepSearch_idempotent_witness :
  deepSearch heap_a_b 0 ["a"; "b"] = Some (heap_a_b, 2).
Proof.
  apply (deepSearch_idempotent ["a"; "b"] heap_a1 heap_a_b 0 2).
  by vm_compute.
Defined.

(** Once [deepSearch] stands on a fresh empty mapping, it goes on with
    fresh mappings only. *)
Lemma deepSearch_fresh (path : list string) :
  ∀ (h : heap) (m : loc) (N : nat) (h' : heap) (m' : loc),
    h !! m = Some ∅ → N ≤ m →
    deepSearch h m path = Some (h', m') →
    (∀ l : loc, l < N → h' !! l = h !! l) ∧
    length h' = length h + length path.
Proof.
  induction path as [|k path IH]; intros h m N h' m' Hm HN; simpl.
  - intros [= <- <-]. split; [done|lia].
  - rewrite Hm. simpl. rewrite lookup_empty. intros Hds.
    assert (Hlt : m < length h) by (by eapply lookup_lt_Some).
    apply (IH _ _ N) in Hds as [Hsame Hlen]; [| |lia].
    + split.
      * intros l Hl. rewrite (Hsame l Hl).
        rewrite list_lookup_insert_ne by lia. apply lookup_app_l. lia.
      * rewrite Hlen, length_insert, length_app. simpl. lia.
    + rewrite list_lookup_insert_ne by lia.
      by rewrite lookup_app_r, Nat.sub_diag by lia.
Qed.

(** X8: what [deepSearch] may touch.  It allocates at most one mapping per
    segment, and of the mappings that were there it writes at most one, at
    one entry that did not hold a mapping; whatever that entry held is
    replaced by a fresh mapping. *)
Theorem deepSearch_frame (path : list string) :
  ∀ (h : heap) (m : loc) (h' : heap) (m' : loc),
    deepSearch h m path = Some (h', m') →
    length h ≤ length h' ≤ length h + length path ∧
    ((∀ (l : loc) obj, h !! l = Some obj → h' !! l = Some obj) ∨
     (∃ (l0 : loc) k0 obj0,
        h !! l0 = Some obj0 ∧
        (∀ m3, obj0 !! k0 ≠ Some (VMap m3)) ∧
        h' !! l0 = Some (<[k0 := VMap (length h)]> obj0) ∧
        ∀ (l : loc) obj, l ≠ l0 → h !! l = Some obj → h' !! l = Some obj)).
Proof.
  induction path as [|k path IH]; intros h m h' m'; simpl.
  - intros [= <- <-]. split; [lia|]. by left.
  - destruct (h !! m) as [mobj|] eqn:Hm; [|done]. simpl. intros Hds.
    assert (Hcase : (∃ m3, mobj !! k = Some (VMap m3) ∧
                           deepSearch h m3 path = Some (h', m')) ∨
                    ((∀ m3, mobj !! k ≠ Some (VMap m3)) ∧
                     deepSearch (<[m := <[k := VMap (length h)]> mobj]> (h ++ [∅]))
                                (length h) path = Some (h', m'))).
    { destruct (mobj !! k) as [[]|]; first [by (left; eexists)|by right]. }
    assert (Hlt : m < length h) by (by eapply lookup_lt_Some).
    destruct Hcase as [(m3 & Hk & Hrec)|[Hk Hrec]].
    + destruct (IH _ _ _ _ Hrec) as [Hlen Hfr]. split; [lia|done].
    + apply (deepSearch_fresh path _ _ (length h)) in Hrec as [Hsame Hlen];
        [| |lia].
      * rewrite length_insert, length_app in Hlen. simpl in Hlen.
        split; [lia|]. right. exists m, k, mobj.
        split; [done|]. split; [done|]. split.
        -- rewrite (Hsame m Hlt). apply list_lookup_insert_eq.
           rewrite length_app. lia.
        -- intros l obj Hne Hl.
           rewrite (Hsame l) by (by eapply lookup_lt_Some).
           rewrite list_lookup_insert_ne by done. by apply lookup_app_l_Some.
      * rewrite list_lookup_insert_ne by lia.
        by rewrite lookup_app_r, Nat.sub_diag by lia.
Qed.

Lemma deepSearch_frame_witness :
  length heap_a1 ≤ length heap_a_b
    ≤ length heap_a1 + length ["a"; "b"] ∧
  ((∀ (l : loc) obj, heap_a1 !! l = Some obj →
      heap_a_b !! l = Some obj) ∨
   (∃ (l0 : loc) k0 obj0,
      heap_a1 !! l0 = Some obj0 ∧
      (∀ m3, obj0 !! k0 ≠ Some (VMap m3)) ∧
      heap_a_b !! l0
        = Some (<[k0 := VMap (length heap_a1)]> obj0) ∧
      ∀ (l : loc) obj, l ≠ l0 → heap_a1 !! l = Some obj →
        heap_a_b !! l = Some obj)).
Proof.
  apply (deepSearch_frame ["a"; "b"] heap_a1 0 heap_a_b 2). by vm_compute.
Defined.

(** ** notifyChanges *)

Lemma concat_submseteq {A} (ls1 ls2 : list (list A)) :
  ls1 ⊆+ ls2 → concat ls1 ⊆+ concat ls2.
Proof.
  induction 1 as [|l ls1 ls2 _ IH|l l' ls|l ls1 ls2 _ IH|ls1 ls2 ls3 _ IH1 _ IH2];
    simpl.
  - done.
  - by apply submseteq_skips_l.
  - rewrite !(assoc_L (++)). apply submseteq_app; [|done].
    apply Permutation_submseteq, Permutation_app_comm.
  - by apply submseteq_inserts_l.
  - by etrans.
Qed.

(** X9: one generation of changes starts a handler at most as often as it
    is registered, however many changed keys begin with its prefix; an
    empty ChangeSet starts nothing. *)
Theorem notifyChanges_at_most_once (c : Configuration)
    (changes : gmap string value) :
  notifyChanges c changes ⊆+ concat (snd <$> map_to_list (watchers c)) ∧
  notifyChanges c ∅ = [].
Proof.
  split.
  - unfold notifyChanges. apply concat_submseteq.
    assert (snd <$> map_to_list (watchers c)
            = (λ p, default [] (watchers c !! p))
                <$> (map_to_list (watchers c)).*1) as ->.
    { rewrite <- list_fmap_compose. apply list_fmap_ext.
      intros i [p cbs] Hi. simpl.
      apply list_elem_of_lookup_2, elem_of_map_to_list in Hi. by rewrite Hi. }
    apply fmap_submseteq, NoDup_submseteq; [apply NoDup_elements|].
    intros p Hp. apply elem_of_elements, changedWatchPrefixMap_spec in Hp
      as [[cbs Hcbs] _].
    apply list_elem_of_fmap. exists (p, cbs). split; [done|].
    by apply elem_of_map_to_list.
  - unfold notifyChanges.
    assert (changedWatchPrefixMap c ∅ = ∅) as ->; [|by rewrite elements_empty].
    apply set_eq. intros p. rewrite changedWatchPrefixMap_spec.
    split; [|set_solver]. intros [_ (key & Hkey & _)].
    rewrite lookup_empty in Hkey. by destruct Hkey.
Qed.

(** X10: handlers that watch the empty prefix are started by every
    generation that changes some key. *)
Theorem notifyChanges_empty_prefix (c : Configuration)
    (changes : gmap string value) (cbs : list handler) :
  changes ≠ ∅ →
  watchers c !! "" = Some cbs →
  cbs ⊆+ notifyChanges c changes.
Proof.
  intros Hne Hcbs. apply map_choose in Hne as (key & v & Hkey).
  apply elem_of_submseteq_concat, list_elem_of_fmap.
  exists "". rewrite Hcbs. split; [done|].
  apply elem_of_elements, changedWatchPrefixMap_spec.
  split; [by eexists|]. exists key. split; [by eexists|]. by destruct key.
Qed.

Lemma notifyChanges_empty_prefix_witness :
  [7; 8] ⊆+ notifyChanges conf_watch_all {[ "db.host" := VStr "h" ]}.
Proof.
  apply (notifyChanges_empty_prefix conf_watch_all
           {[ "db.host" := VStr "h" ]} [7; 8]).
  - intros Heq.
    apply (f_equal (λ m : gmap string value, m !! "db.host")) in Heq. by vm_compute in Heq.
  - by vm_compute.
Defined.

(** ** LoadFromDataSource *)

(** X11: when the first read fails, LoadFromDataSource returns an error
    that wraps the data source's, leaves the Configuration as it was and
    calls no callback; the options it was given are applied to the
    package's defaults all the same. *)
Theorem LoadFromDataSource_read_error {options : Type} (fuel : nat)
    (h : heap) (c : Configuration) (defaultContainer : options) (err : error)
    (changed : list (error + list byte)) (unmarshaller : Unmarshaller)
    (opts : list (options → options)) :
  ∃ e,
    LoadFromDataSource fuel h c defaultContainer (inl err) changed
      unmarshaller opts
    = Some (Some e, foldl (λ o opt, opt o) defaultContainer opts,
            mkWatching h c [] []) ∧
    errors_Is e err.
Proof.
  eexists. split; [reflexivity|].
  apply (Is_wrapped "LoadFromDataSource ReadConfig, err: "); [done|constructor].
Qed.

(** X12: when the first payload does not decode, LoadFromDataSource returns
    an error that wraps the decoder's; the payload has become the raw
    configuration, tree and cache are as before, no callback is called and
    no later signal of the data source is handled. *)
Theorem LoadFromDataSource_decode_error {options : Type} (fuel : nat)
    (h : heap) (c : Configuration) (defaultContainer : options)
    (content : list byte) (err : error)
    (changed : list (error + list byte)) (unmarshaller : Unmarshaller)
    (opts : list (options → options)) :
  unmarshaller content = inl err →
  ∃ e,
    LoadFromDataSource fuel h c defaultContainer (inr content) changed
      unmarshaller opts
    = Some (Some e, foldl (λ o opt, opt o) defaultContainer opts,
            mkWatching h (set_rawConfig content c) [] []) ∧
    errors_Is e err.
Proof.
  intros Hdec. unfold LoadFromDataSource, Load. rewrite Hdec. simpl.
  eexists. split; [reflexivity|].
  apply (Is_wrapped "LoadFromDataSource Load, err: "); [done|constructor].
Qed.

Lemma LoadFromDataSource_decode_error_witness :
  ∃ e,
    LoadFromDataSource 1 heap_a1 conf_a1_cached tt (inr []) [inr []]
      unmarshal_fails []
    = Some (Some e, foldl (λ o opt, opt o) tt [],
            mkWatching heap_a1 (set_rawConfig [] conf_a1_cached) [] []) ∧
    errors_Is e (ErrExternal "yaml").
Proof.
  apply (LoadFromDataSource_decode_error 1 heap_a1 conf_a1_cached tt []
           (ErrExternal "yaml") [inr []] unmarshal_fails []).
  done.
Defined.

(** [Load] returns on a well-formed tree, keeps it well formed, and leaves
    the root, the delimiter, the callbacks and the watchers alone. *)
Lemma Load_shaped (fuel : nat) (h : heap) (c : Configuration)
    (content : list byte) (unmarshal : Unmarshaller) :
  tree_shaped fuel h (override c) →
  decodes_within fuel unmarshal content →
  ∃ out, Load fuel h c content unmarshal = Some out ∧
    tree_shaped fuel (out_heap out) (override (out_conf out)) ∧
    override (out_conf out) = override c ∧
    keyDelim (out_conf out) = keyDelim c ∧
    onChanges (out_conf out) = onChanges c ∧
    watchers (out_conf out) = watchers c ∧
    rawConfig (out_conf out) = content ∧
    (out_err out = None ↔ ∃ m, unmarshal content = inr m).
Proof.
  intros Hsh Hdec. unfold decodes_within in Hdec.
  destruct (unmarshal content) as [err|m] eqn:Hu.
  - exists (mkOutcome h (set_rawConfig content c) ∅ [] (Some err)).
    split; [unfold Load; by rewrite Hu|]. simpl.
    split_and!; try done. split; [done|by intros [? ?]].
  - destruct (Load_decoded fuel h c content unmarshal m Hsh Hdec Hu)
      as (h1 & data & _ & _ & _ & Hsh1 & _ & HLoad).
    eexists. split; [exact HLoad|]. simpl.
    split_and!; try done. split; [by eexists|done].
Qed.

Lemma payloads_cons_inr (content : list byte) (reads : list (error + list byte)) :
  payloads (inr content :: reads) = content :: payloads reads.
Proof. done. Qed.

(** The loop of the goroutine over the reads that follow. *)
Lemma reload_loop (fuel : nat) (unmarshaller : Unmarshaller)
    (changed : list (error + list byte)) :
  ∀ w : watching,
    tree_shaped fuel (w_heap w) (override (w_conf w)) →
    Forall (decodes_within fuel unmarshaller) (payloads changed) →
    ∃ w', fold_opt (reload fuel unmarshaller) changed w = Some w' ∧
      w_called w'
        = w_called w
          ++ concat (replicate (length (payloads changed))
                       (onChanges (w_conf w))) ∧
      onChanges (w_conf w') = onChanges (w_conf w) ∧
      override (w_conf w') = override (w_conf w) ∧
      rawConfig (w_conf w')
        = default (rawConfig (w_conf w)) (last (payloads changed)) ∧
      tree_shaped fuel (w_heap w') (override (w_conf w')).
Proof.
  induction changed as [|[err|content] changed IH]; intros w Hsh Hok.
  - exists w. simpl. rewrite app_nil_r. by split_and!.
  - simpl. by apply IH.
  - rewrite payloads_cons_inr in Hok. apply Forall_cons in Hok as [Hok1 Hok].
    destruct (Load_shaped fuel (w_heap w) (w_conf w) content unmarshaller
                Hsh Hok1)
      as (out & HLoad & Hsh1 & Hroot & _ & Hcbs & _ & Hraw & _).
    cbn [fold_opt reload]. rewrite HLoad. simpl.
    destruct (IH (mkWatching (out_heap out) (out_conf out)
                    (w_spawned w ++ out_spawned out)
                    (w_called w ++ onChanges (out_conf out))) Hsh1 Hok)
      as (w' & Hfold & Hcalled & Hcbs' & Hroot' & Hraw' & Hsh').
    exists w'. split; [done|]. simpl in *. split_and!.
    + by rewrite Hcalled, Hcbs, <- (assoc_L (++)).
    + congruence.
    + congruence.
    + rewrite Hraw', Hraw.
      destruct (payloads changed) as [|p ps] using rev_ind; [done|].
      by rewrite app_comm_cons, !last_snoc.
    + done.
Qed.

(** X13: when the first payload decodes, LoadFromDataSource returns no
    error, and the goroutine it starts calls the OnChange callbacks, all of
    them in the order of registration, once after the first load and once
    more for every later signal at which the read succeeds, whether the
    payload then decodes or changes anything or not; a signal at which the
    read fails calls nothing.  The raw configuration is the last payload
    read. *)
Theorem LoadFromDataSource_calls_OnChange {options : Type} (fuel : nat)
    (h : heap) (c : Configuration) (defaultContainer : options)
    (content : list byte) (m : gmap string tree)
    (changed : list (error + list byte)) (unmarshaller : Unmarshaller)
    (opts : list (options → options)) :
  tree_shaped fuel h (override c) →
  unmarshaller content = inr m →
  tdepth (TMap m) ≤ fuel →
  Forall (decodes_within fuel unmarshaller) (payloads changed) →
  ∃ w,
    LoadFromDataSource fuel h c defaultContainer (inr content) changed
      unmarshaller opts
    = Some (None, foldl (λ o opt, opt o) defaultContainer opts, w) ∧
    w_called w
      = concat (replicate (S (length (payloads changed))) (onChanges c)) ∧
    rawConfig (w_conf w) = default content (last (payloads changed)) ∧
    tree_shaped fuel (w_heap w) (override c).
Proof.
  intros Hsh Hdec Hdepth Hok.
  destruct (Load_shaped fuel h c content unmarshaller Hsh) as
    (out & HLoad & Hsh1 & Hroot & _ & Hcbs & _ & Hraw & Herr).
  { unfold decodes_within. by rewrite Hdec. }
  assert (out_err out = None) as Hnone by (apply Herr; by eexists).
  destruct (reload_loop fuel unmarshaller changed
              (mkWatching (out_heap out) (out_conf out) (out_spawned out)
                 (onChanges (out_conf out))) Hsh1 Hok)
    as (w & Hfold & Hcalled & _ & Hroot' & Hraw' & Hsh').
  exists w. unfold LoadFromDataSource. rewrite HLoad. simpl.
  rewrite Hnone, Hfold. simpl. simpl in Hcalled, Hroot', Hraw'.
  split_and!; [done| | |].
  - by rewrite Hcalled, Hcbs.
  - by rewrite Hraw', Hraw.
  - by rewrite <- Hroot, <- Hroot'.
Qed.

Lemma LoadFromDataSource_calls_OnChange_witness :
  ∃ w,
    LoadFromDataSource 2 (New []).2 (OnChange (New []).1 7) tt (inr [])
      [inl (ErrExternal "io"); inr []] unmarshal_a1 []
    = Some (None, foldl (λ o opt, opt o) tt [], w) ∧
    w_called w
      = concat (replicate
                  (S (length (payloads [inl (ErrExternal "io"); inr []])))
                  (onChanges (OnChange (New []).1 7))) ∧
    rawConfig (w_conf w)
      = default [] (last (payloads [inl (ErrExternal "io"); inr []])) ∧
    tree_shaped 2 (w_heap w) (override (OnChange (New []).1 7)).
Proof.
  apply (LoadFromDataSource_calls_OnChange 2 (New []).2
           (OnChange (New []).1 7) tt [] {[ "a" := TInt 1 ]}
           [inl (ErrExternal "io"); inr []] unmarshal_a1 []).
  - apply (New_tree_shaped 1 []).
  - done.
  - vm_compute. lia.
  - repeat constructor.
Defined.

(** ** New, Sub and the empty tree *)

Lemma DeepSearchInMap_empty (h : heap) (ps : list string) :
  xmap.DeepSearchInMap h ∅ ps = ∅.
Proof. destruct ps; [done|]. simpl. by rewrite lookup_empty. Qed.

(** X14: a new Configuration answers every key with nil, and GetInt with
    0; the answer is cached under the key. *)
Theorem New_Get_nil (ParseInt : string → option Z) (h : heap) (key : string) :
  Get (New h).2 (New h).1 key
    = Some (VNil, set_keyMap {[ key := VNil ]} (New h).1) ∧
  GetInt ParseInt (New h).2 (New h).1 key
    = Some (0%Z, set_keyMap {[ key := VNil ]} (New h).1).
Proof.
  assert (Get (New h).2 (New h).1 key
          = Some (VNil, set_keyMap {[ key := VNil ]} (New h).1)) as HGet.
  { unfold Get, find, New. simpl. rewrite lookup_empty.
    destruct (Split_snoc key defaultKeyDelim) as (ps & lastKey & ->); [done|].
    destruct (last_removelast_snoc ps lastKey) as [-> ->]. simpl.
    rewrite list_lookup_middle by done. simpl.
    rewrite DeepSearchInMap_empty, lookup_empty. simpl.
    by rewrite insert_empty. }
  split; [done|]. unfold GetInt. by rewrite HGet.
Qed.

(** X15: Sub of a key that resolves to nil, or to a value that is not a
    mapping, returns a child over a fresh empty mapping, and that child is
    detached: a Set on it leaves every mapping of the parent as it was. *)
Theorem Sub_non_mapping_detached (fuel : nat) (h : heap)
    (c c' : Configuration) (key k : string) (v : value) (t : tree) :
  Get h c key = Some (v, c') →
  cast.ToStringMapE v = None →
  occurs (keyDelim c) k = false →
  (∀ tm, t ≠ TMap tm) →
  ∃ child out,
    Sub h c key = Some (child, h ++ [∅], c') ∧
    (h ++ [∅]) !! override child = Some ∅ ∧
    Set_ (S fuel) (h ++ [∅]) child k (leaf t) = Some out ∧
    ∀ l : loc, l < length h → out_heap out !! l = h !! l.
Proof.
  intros HGet Hv Hocc Ht.
  set (child := mkConfiguration (length h) (keyDelim c) [] ∅ [] ∅).
  assert ((h ++ [∅]) !! override child = Some (∅ : gmap string value)) as Hroot.
  { by apply list_lookup_middle. }
  destruct (Set_single_heap (S fuel) (h ++ [∅]) child k t ∅) as
    (out & Hset & Hheap & _).
  { by apply Split_no_sep. }
  { apply (New_tree_shaped fuel h). }
  { done. }
  { destruct t; simpl; try lia. by destruct (Ht m). }
  rewrite alloc_leaf in Hset, Hheap by done. simpl in Hset, Hheap.
  exists child, out. split_and!; [|done|done|].
  - unfold Sub, GetStringMap. rewrite HGet. simpl.
    unfold cast.ToStringMap. by rewrite Hv.
  - intros l Hl. rewrite Hheap, list_lookup_insert_ne by lia.
    by apply lookup_app_l.
Qed.

Lemma Sub_non_mapping_detached_witness :
  ∃ child out,
    Sub heap_a1 conf_root0 "a" = Some (child, heap_a1 ++ [∅], conf_a1_cached) ∧
    (heap_a1 ++ [∅]) !! override child = Some ∅ ∧
    Set_ 1 (heap_a1 ++ [∅]) child "x" (leaf (TInt 2)) = Some out ∧
    ∀ l : loc, l < length heap_a1 → out_heap out !! l = heap_a1 !! l.
Proof.
  apply (Sub_non_mapping_detached 0 heap_a1 conf_root0 conf_a1_cached "a" "x"
           (VInt 1) (TInt 2)); by vm_compute.
Defined.

Lemma notifyChanges_no_watchers (c : Configuration)
    (changes : gmap string value) :
  watchers c = ∅ → notifyChanges c changes = [].
Proof.
  intros Hw. unfold notifyChanges, changedWatchPrefixMap.
  by rewrite Hw, map_fold_empty, elements_empty.
Qed.

(** X16: the child that Sub returns takes over the delimiter and nothing
    else: its cache and raw configuration are empty and it has neither
    callbacks nor watchers, so that no Set on the child starts a handler. *)
Theorem Sub_child_starts_nothing (fuel : nat) (h h' h2 : heap)
    (c c' child : Configuration) (key k : string) (val : value)
    (out : outcome) :
  Sub h c key = Some (child, h', c') →
  Set_ fuel h2 child k val = Some out →
  keyDelim child = keyDelim c ∧ keyMap child = ∅ ∧ rawConfig child = [] ∧
  onChanges (out_conf out) = [] ∧ watchers (out_conf out) = ∅ ∧
  out_spawned out = [].
Proof.
  unfold Sub. destruct (GetStringMap h c key) as [r|]; [|done]. simpl.
  intros [= <- _ _] Hset. split_and!; try done.
  all: unfold Set_ in Hset; simpl in Hset.
  all: destruct (last (Split k (keyDelim c))) as [lastKey|]; [|done].
  all: simpl in Hset.
  all: destruct (deepSearch h2 r.1.1 _) as [[h3 m]|]; [|done]; simpl in Hset.
  all: destruct (h3 !! m) as [mobj|]; [|done]; simpl in Hset.
  all: apply apply_inv in Hset as (data & _ & _ & Hconf & _ & Hsp & _).
  - by rewrite Hconf.
  - by rewrite Hconf.
  - rewrite Hsp. case_bool_decide; [|done].
    by apply notifyChanges_no_watchers.
Qed.

Lemma Sub_child_starts_nothing_witness :
  keyDelim child_a = keyDelim parent_ax1 ∧ keyMap child_a = ∅ ∧
  rawConfig child_a = [] ∧
  onChanges (out_conf child_a_set_x2) = [] ∧
  watchers (out_conf child_a_set_x2) = ∅ ∧
  out_spawned child_a_set_x2 = [].
Proof.
  apply (Sub_child_starts_nothing 2 heap_ax1 heap_ax1 heap_ax1 parent_ax1
           parent_ax1_after_Sub child_a "a" "x" (VInt 2) child_a_set_x2);
    by vm_compute.
Defined.

(** ** The empty key under the empty delimiter *)

Lemma explode_snoc (s : string) :
  s ≠ "" → ∃ ps lastKey, explode s = ps ++ [lastKey].
Proof.
  induction s as [|ch s IH]; [done|]. intros _. simpl.
  destruct s as [|ch' s].
  - by exists [], (String ch "").
  - destruct IH as (ps & lastKey & ->); [done|].
    by exists (String ch "" :: ps), lastKey.
Qed.

(** X17: Get of a key that is not cached returns for every key and
    delimiter but one pair: the empty key under the empty delimiter, where
    the split gives no segment and indexing it panics.  Set of the empty
    key under the empty delimiter panics likewise. *)
Theorem Get_panics_only_without_key_and_delimiter (h : heap)
    (c : Configuration) (key : string) :
  is_Some (h !! override c) →
  keyMap c !! key = None →
  (Get h c key = None ↔ keyDelim c = "" ∧ key = "") ∧
  (keyDelim c = "" → ∀ fuel val, Set_ fuel h c "" val = None).
Proof.
  intros [root Hroot] Hmiss. split.
  - unfold Get, find. rewrite Hmiss, Hroot. split.
    + intros Hnone.
      destruct (decide (keyDelim c = "")) as [Hd|Hd].
      * split; [done|]. destruct (decide (key = "")) as [|Hk]; [done|].
        revert Hnone. unfold Split. rewrite Hd. simpl.
        destruct (explode_snoc key Hk) as (ps & lastKey & ->).
        by rewrite last_snoc.
      * revert Hnone.
        destruct (Split_snoc key (keyDelim c) Hd) as (ps & lastKey & ->).
        by rewrite last_snoc.
    + by intros [-> ->].
  - intros Hd fuel val. unfold Set_. by rewrite Hd.
Qed.

Lemma Get_panics_only_without_key_and_delimiter_witness :
  (Get heap_a1 (SetKeyDelim conf_root0 "") "" = None
   ↔ keyDelim (SetKeyDelim conf_root0 "") = "" ∧ "" = "") ∧
  (keyDelim (SetKeyDelim conf_root0 "") = "" →
   ∀ fuel val, Set_ fuel heap_a1 (SetKeyDelim conf_root0 "") "" val = None).
Proof.
  apply (Get_panics_only_without_key_and_delimiter heap_a1
           (SetKeyDelim conf_root0 "") ""); [by eexists|by vm_compute].
Defined.

(** ** UnmarshalWithExpect *)

Section Expect.
Context {options target : Type}.
Variable defaultContainer : options.
Variable NewDecoder : options → target → option error.
Variable Decode : options → heap → value → target → target * option error.

(** X18: UnmarshalWithExpect hands back the value it was given,
    untouched, when the key, not the empty one, resolves to nil: a missing
    key, a key that holds nil, or a key for which nil is cached.  No error
    tells the caller so; the lookup has filled the cache. *)
Theorem UnmarshalWithExpect_fallback (h : heap) (c c' : Configuration)
    (key : string) (expect : target) :
  key ≠ "" →
  NewDecoder defaultContainer expect = None →
  Get h c key = Some (VNil, c') →
  UnmarshalWithExpect defaultContainer NewDecoder Decode h c key expect
  = Some (expect, c').
Proof.
  intros Hkey Hnew HGet. unfold UnmarshalWithExpect, UnmarshalKey. simpl.
  rewrite Hnew, decide_False by done. by rewrite HGet.
Qed.
End Expect.

Lemma UnmarshalWithExpect_fallback_witness :
  UnmarshalWithExpect tt (λ _ _, None) Decode_any heap_a1 conf_root0 "b"
    (Some (TInt 7))
  = Some (Some (TInt 7), mkConfiguration 0 "." [] {[ "b" := VNil ]} [] ∅).
Proof.
  apply (UnmarshalWithExpect_fallback tt (λ _ _, None) Decode_any heap_a1
           conf_root0 (mkConfiguration 0 "." [] {[ "b" := VNil ]} [] ∅)
           "b" (Some (TInt 7))); by vm_compute.
Defined.

(** ** The cache after a merge *)



(** ** The names of the leaves *)

(** The flattening only adds keys. *)
Lemma lookup_keeps_keys (n : nat) :
  ∀ (h : heap) (prefix : string) (l : loc) (sep : string)
    (data r : gmap string value) (key : string),
    lookup n h prefix l data sep = Some r →
    is_Some (data !! key) → is_Some (r !! key).
Proof.
  induction n as [|n IH]; intros h prefix l sep data r key; [done|].
  simpl. destruct (h !! l) as [obj|]; [|done]. simpl. intros Hfold Hkey.
  revert Hkey Hfold.
  apply (fold_opt_preserve (λ d : gmap string value, is_Some (d !! key))).
  intros d [k' v'] d' _. unfold lookup_entry. simpl.
  destruct (cast.ToStringMapE v') as [dd|].
  - intros Hrec Hd. by eapply IH.
  - intros [= <-] Hd. rewrite lookup_insert_is_Some'. by right.
Qed.

(** The flattening names a leaf by the segments of its path, joined
    as [join_key] has it. *)
Lemma lookup_names_leaf (sep lastKey : string) (v : value) (ps : list string) :
  cast.ToStringMapE v = None →
  ∀ (n : nat) (h : heap) (prefix : string) (l m : loc)
    (mobj data r : gmap string value),
    lookup n h prefix l data sep = Some r →
    walk h l ps = Some m →
    h !! m = Some mobj →
    mobj !! lastKey = Some v →
    is_Some (r !! foldl (λ prefix k, if decide (prefix = "") then k
                                     else prefix +:+ sep +:+ k)
                        prefix (ps ++ [lastKey])).
Proof.
  intros Hv. induction ps as [|k ps IH];
    intros n h prefix l m mobj data r Hlookup Hwalk Hm Hlast;
    (destruct n as [|n]; [done|]); simpl in Hlookup, Hwalk.
  - injection Hwalk as ->. rewrite Hm in Hlookup. simpl in Hlookup.
    revert Hlookup.
    apply (fold_opt_elem
             (λ d : gmap string value,
                is_Some (d !! (if decide (prefix = "") then lastKey
                               else prefix +:+ sep +:+ lastKey)))
             _ _ (lastKey, v)).
    + by apply elem_of_map_to_list.
    + intros b b'. unfold lookup_entry. simpl. rewrite Hv.
      intros [= <-]. simpl. by rewrite lookup_insert_eq.
    + intros b [k' v'] b' _. unfold lookup_entry. simpl.
      destruct (cast.ToStringMapE v') as [dd|].
      * intros Hrec. by eapply lookup_keeps_keys.
      * intros [= <-] Hb. rewrite lookup_insert_is_Some'. by right.
  - destruct (h !! l) as [obj|] eqn:Hl; [|done]. simpl in Hlookup, Hwalk.
    destruct (obj !! k) as [[| | | | | |m3]|] eqn:Hk; try done.
    revert Hlookup. cbn [app foldl].
    match goal with |- _ → is_Some (_ !! ?key) =>
      apply (fold_opt_elem (λ d : gmap string value, is_Some (d !! key))
               _ _ (k, VMap m3)) end.
    + by apply elem_of_map_to_list.
    + intros b b'. unfold lookup_entry. simpl. intros Hrec.
      by eapply (IH n h _ m3 m mobj b b').
    + intros b [k' v'] b' _. unfold lookup_entry. simpl.
      destruct (cast.ToStringMapE v') as [dd|].
      * intros Hrec. by eapply lookup_keeps_keys.
      * intros [= <-] Hb. rewrite lookup_insert_is_Some'. by right.
Qed.

(** X20: the flattening leaves out no leaf.  Where a path of mappings leads
    to an entry that is not a mapping, the flattened tree has the key made
    of the path's segments joined by the delimiter, and a merge puts that
    key into the cache. *)
Theorem apply_caches_every_leaf (fuel : nat) (h : heap) (c : Configuration)
    (conf : loc) (out : outcome) (ps : list string) (lastKey : string)
    (m : loc) (mobj : gmap string value) (v : value) :
  apply fuel h c conf = Some out →
  walk (out_heap out) (override c) ps = Some m →
  out_heap out !! m = Some mobj →
  mobj !! lastKey = Some v →
  cast.ToStringMapE v = None →
  is_Some (keyMap (out_conf out) !! join_key (keyDelim c) (ps ++ [lastKey])).
Proof.
  intros Hout Hwalk Hm Hlast Hv.
  destruct (apply_inv _ _ _ _ _ Hout) as (data & _ & Hdata & Hconf & _).
  destruct (lookup_names_leaf (keyDelim c) lastKey v ps Hv fuel (out_heap out)
              "" (override c) m mobj ∅ data Hdata Hwalk Hm Hlast)
    as [v' Hv'].
  rewrite Hconf. simpl.
  rewrite (proj1 (diff_spec fuel (out_heap out) (keyMap c) data) _).
  unfold join_key. rewrite Hv'. by eexists.
Qed.

Lemma apply_caches_every_leaf_witness :
  is_Some (keyMap (out_conf merged_b_nil)
             !! join_key (keyDelim conf_b_nil) (["a"] ++ ["x"])).
Proof.
  apply (apply_caches_every_leaf 3 heap_ax1_empty conf_b_nil 2 merged_b_nil
           ["a"] "x" 1 {[ "x" := VInt 1 ]} (VInt 1)); by vm_compute.
Defined.

Lemma HasPrefix_empty (s : string) : HasPrefix s "" = true.
Proof. by destruct s. Qed.

Lemma genSplit_segment (ch : ascii) (a rest cur : string) :
  occurs (String ch "") a = false →
  genSplit (String ch "") 0 cur (a +:+ String ch "" +:+ rest)
  = (cur +:+ a) :: genSplit (String ch "") 0 "" rest.
Proof.
  revert cur. induction a as [|c a IH]; intros cur Hocc.
  - change ("" +:+ String ch "" +:+ rest) with (String ch rest).
    cbn [genSplit].
    assert (HasPrefix (String ch rest) (String ch "") = true) as ->.
    { simpl. by rewrite bool_decide_eq_true_2, HasPrefix_empty. }
    simpl. by rewrite string_app_empty_r.
  - rewrite occurs_unfold in Hocc. apply orb_false_iff in Hocc as [Hp Hocc].
    rewrite string_app_cons. cbn [genSplit].
    assert (HasPrefix (String c (a +:+ String ch "" +:+ rest)) (String ch "")
            = false) as ->.
    { simpl in Hp |- *. rewrite HasPrefix_empty in Hp |- *.
      by destruct (bool_decide (ch = c)). }
    rewrite (IH _ Hocc), string_app_assoc. done.
Qed.

Lemma genSplit_after_first (ch : ascii) (segs : list string) :
  ∀ s cur,
    Forall (λ s, occurs (String ch "") s = false) (s :: segs) →
    genSplit (String ch "") 0 cur (s +:+ after_first (String ch "") segs)
    = (cur +:+ s) :: segs.
Proof.
  induction segs as [|k segs IH]; intros s cur Hall;
    apply Forall_cons in Hall as [Hs Hall].
  - simpl. rewrite string_app_empty_r. by apply genSplit_no_sep.
  - cbn [after_first foldr]. fold (after_first (String ch "") segs).
    rewrite (genSplit_segment ch s _ cur Hs). f_equal.
    by rewrite (IH k "" Hall).
Qed.

Lemma foldl_join_prefix (sep : string) (segs : list string) :
  ∀ prefix, prefix ≠ "" →
    foldl (λ prefix k, if decide (prefix = "") then k else prefix +:+ sep +:+ k)
          prefix segs
    = prefix +:+ after_first sep segs.
Proof.
  induction segs as [|k segs IH]; intros prefix Hp; simpl.
  - by rewrite string_app_empty_r.
  - rewrite decide_False by done. rewrite IH by (by destruct prefix).
    by rewrite !string_app_assoc.
Qed.

(** Splitting a joined key gives back the segments, for a delimiter of one
    character that no segment holds, when no segment that something follows
    is empty. *)
Lemma Split_join_key (ch : ascii) (ps : list string) (lastKey : string) :
  Forall (λ s, occurs (String ch "") s = false) (ps ++ [lastKey]) →
  Forall (λ s, s ≠ "") ps →
  Split (join_key (String ch "") (ps ++ [lastKey])) (String ch "")
  = ps ++ [lastKey].
Proof.
  intros Hall Hne. unfold Split. rewrite decide_False by done.
  destruct ps as [|s ps].
  - simpl. apply Forall_cons in Hall as [Hs _]. by apply genSplit_no_sep.
  - apply Forall_cons in Hne as [Hs _]. unfold join_key. simpl.
    rewrite foldl_join_prefix by done.
    by rewrite genSplit_after_first.
Qed.

Lemma DeepSearchInMap_walk (h : heap) (ps : list string) :
  ∀ (l m : loc) (root mobj : gmap string value),
    walk h l ps = Some m → h !! l = Some root → h !! m = Some mobj →
    xmap.DeepSearchInMap h root ps = mobj.
Proof.
  induction ps as [|k ps IH]; intros l m root mobj; simpl.
  - intros [= <-] Hl Hm. congruence.
  - intros Hwalk Hl Hm. rewrite Hl in Hwalk. simpl in Hwalk.
    destruct (root !! k) as [[| | | | | |m3]|]; try done.
    destruct (h !! m3) as [obj3|] eqn:Hm3.
    + by eapply IH.
    + destruct ps; simpl in Hwalk; [congruence|]. by rewrite Hm3 in Hwalk.
Qed.

(** X21: Get undoes the naming of the flattener.  For a delimiter of one
    character that no segment holds, and a path of non-empty segments that
    leads through mappings to an entry, Get of the joined key that is not
    cached reads that entry and caches it. *)
Theorem Get_reads_joined_path (h : heap) (c : Configuration) (ch : ascii)
    (ps : list string) (lastKey : string) (m : loc)
    (mobj : gmap string value) (v : value) :
  keyDelim c = String ch "" →
  Forall (λ s, occurs (String ch "") s = false) (ps ++ [lastKey]) →
  Forall (λ s, s ≠ "") ps →
  walk h (override c) ps = Some m →
  h !! m = Some mobj →
  mobj !! lastKey = Some v →
  keyMap c !! join_key (keyDelim c) (ps ++ [lastKey]) = None →
  Get h c (join_key (keyDelim c) (ps ++ [lastKey]))
  = Some (v, set_keyMap (<[join_key (keyDelim c) (ps ++ [lastKey]) := v]>
                           (keyMap c)) c).
Proof.
  intros Hd Hall Hne Hwalk Hm Hlast Hmiss. unfold Get, find.
  rewrite Hmiss, Hd, (Split_join_key ch ps lastKey Hall Hne).
  destruct (last_removelast_snoc ps lastKey) as [-> ->]. simpl.
  assert (∃ root, h !! override c = Some root) as [root Hroot].
  { destruct ps; simpl in Hwalk.
    - injection Hwalk as ->. by eexists.
    - destruct (h !! override c); [by eexists|done]. }
  rewrite Hroot. simpl.
  by rewrite (DeepSearchInMap_walk h ps _ m root mobj Hwalk Hroot Hm), Hlast.
Qed.

Lemma Get_reads_joined_path_witness :
  Get heap_ax1 conf_root0 (join_key (keyDelim conf_root0) (["a"] ++ ["x"]))
  = Some (VInt 1,
          set_keyMap (<[join_key (keyDelim conf_root0) (["a"] ++ ["x"])
                        := VInt 1]> (keyMap conf_root0)) conf_root0).
Proof.
  apply (Get_reads_joined_path heap_ax1 conf_root0 "."%char ["a"] "x" 1
           {[ "x" := VInt 1 ]} (VInt 1));
    [done|by repeat constructor|by repeat constructor
    |by vm_compute|by vm_compute|by vm_compute|by vm_compute].
Defined.

(** ** Load and the flattening, for the caller *)

(** X22: Load keeps a tree a tree.  On a tree without cycles and shared
    mappings, with a payload that decodes no deeper than the bound, Load
    returns; the tree is again without cycles and shared mappings; root,
    delimiter, callbacks and watchers are as before; the payload is the
    raw configuration; and Load reports an error exactly when the decoder
    does. *)
Theorem Load_keeps_tree_well_formed (fuel : nat) (h : heap)
    (c : Configuration) (content : list byte) (unmarshal : Unmarshaller) :
  tree_shaped fuel h (override c) →
  decodes_within fuel unmarshal content →
  ∃ out, Load fuel h c content unmarshal = Some out ∧
    tree_shaped fuel (out_heap out) (override (out_conf out)) ∧
    override (out_conf out) = override c ∧
    keyDelim (out_conf out) = keyDelim c ∧
    onChanges (out_conf out) = onChanges c ∧
    watchers (out_conf out) = watchers c ∧
    rawConfig (out_conf out) = content ∧
    (out_err out = None ↔ ∃ m, unmarshal content = inr m).
Proof. apply Load_shaped. Qed.

Lemma Load_keeps_tree_well_formed_witness :
  ∃ out, Load 2 heap_a1 conf_root0 [] unmarshal_ax1 = Some out ∧
    tree_shaped 2 (out_heap out) (override (out_conf out)) ∧
    override (out_conf out) = override conf_root0 ∧
    keyDelim (out_conf out) = keyDelim conf_root0 ∧
    onChanges (out_conf out) = onChanges conf_root0 ∧
    watchers (out_conf out) = watchers conf_root0 ∧
    rawConfig (out_conf out) = [] ∧
    (out_err out = None ↔ ∃ m, unmarshal_ax1 [] = inr m).
Proof.
  apply (Load_keeps_tree_well_formed 2 heap_a1 conf_root0 [] unmarshal_ax1).
  - apply heap_a1_tree_shaped.
  - unfold decodes_within. vm_compute. lia.
Defined.


